(** * fiaas-deploy-daemon: deployment synthesis and spec resolution

    A shallow embedding of

    - [fiaas_deploy_daemon/deployer/kubernetes/deployment/deployer.py]
      (module [Deployer] below),
    - [fiaas_deploy_daemon/deployer/kubernetes/deployment.py], the older
      single-file builder (module [Legacy]),
    - the [SpecFactory] exercised by [tests/.../specs/test_spec_factory.py]
      (module [Specs]),
    - the helpers of [tests/fiaas_deploy_daemon/utils.py] (module
      [TestUtils]),

    together with the properties the specification states about them.

    Python values are rendered as follows: [int] is [Z], [str] is [string],
    a [dict] with string keys is a [gmap string _], [None]-able attributes
    are [option]s, exceptions are the constructors of [exn], and code that
    logs, reads or writes the cluster runs in the monad [M] over [World]. *)

From Stdlib Require Import ZArith String Ascii List Lia Permutation.
From Stdlib Require Import Sorting.Sorted DecimalString.
From stdpp Require Import base option list gmap strings sorting.
Import ListNotations.
Local Set Warnings "-register-all,-clear-no-such-hyp".
Local Open Scope string_scope.
Local Open Scope list_scope.
Local Open Scope Z_scope.

(** ** Python strings *)

(** [sub in s] for two strings. *)
Fixpoint contains (sub s : string) : bool :=
  String.prefix sub s ||
  match s with
  | EmptyString => false
  | String _ s' => contains sub s'
  end.

(** [s.endswith(suffix)]. *)
Fixpoint endswith (s suffix : string) : bool :=
  String.eqb s suffix ||
  match s with
  | EmptyString => false
  | String _ s' => endswith s' suffix
  end.

(** [str(n)] for an integer. *)
Definition str (n : Z) : string := NilZero.string_of_int (Z.to_int n).

(** [sep.join(parts)]. *)
Fixpoint join (sep : string) (parts : list string) : string :=
  match parts with
  | [] => ""
  | [p] => p
  | p :: rest => p +:+ sep +:+ join sep rest
  end.

(** [str(b).lower()] for a boolean. *)
Definition str_bool_lower (b : bool) : string := if b then "true" else "false".

(** The declarative readings the theorems use. *)
Definition is_prefix (p s : string) : Prop := ∃ post, s = p +:+ post.
Definition is_substring (sub s : string) : Prop := ∃ pre post, s = pre +:+ sub +:+ post.
Definition is_suffix (suffix s : string) : Prop := ∃ pre, s = pre +:+ suffix.

(** A value that is an [int] in some configurations and a [str] in others
    (port numbers or names, absolute counts or percentages). *)
Inductive int_or_str :=
| IsInt (n : Z)
| IsStr (s : string).

(** A Python [dict] with string keys and values. *)
Abbreviation Dict := (gmap string string).

(** [key in d]. *)
Definition dict_contains {V} (key : string) (d : gmap string V) : bool :=
  bool_decide (is_Some (d !! key)).

(** What the embedding takes from the Python runtime rather than from the
    repository: the iteration order of a dict (any enumeration of its items,
    each exactly once), [shlex.split] and [int] on strings. *)
Class PyRuntime := {
  iteritems : Dict → list (string * string);
  iteritems_perm : ∀ d, iteritems d ≡ₚ map_to_list d;
  shlex_split : string → option (list string);
  py_int : string → option Z
}.

(** ** Exceptions *)

Inductive exn :=
| NotFound
| ConflictError
| RuntimeError (msg : string)
| InvalidConfiguration (msg : string) (cause : option exn)
| AttributeError
| KeyError
| IndexError
| ValueError
| TypeError
| NameError
| OtherError (class_name : string).

Definition is_conflict (e : exn) : bool :=
  match e with ConflictError => true | _ => false end.

Definition is_not_found (e : exn) : bool :=
  match e with NotFound => true | _ => false end.

(** ** The Kubernetes object model ([k8s.models]) *)

Module ObjectMeta.
Record t := {
  name : string;
  namespace : string;
  labels : Dict;
  annotations : Dict
}.
End ObjectMeta.

Module ContainerPort.
Record t := { name : string; containerPort : Z }.
End ContainerPort.

Module ResourceFieldSelector.
Record t := { containerName : string; resource : string; divisor : Z }.
End ResourceFieldSelector.

Module ObjectFieldSelector.
Record t := { fieldPath : string }.
End ObjectFieldSelector.

Module EnvVarSource.
Record t := {
  resourceFieldRef : option ResourceFieldSelector.t;
  fieldRef : option ObjectFieldSelector.t
}.
End EnvVarSource.

Module EnvVar.
Record t := {
  name : string;
  value : option string;
  valueFrom : option EnvVarSource.t
}.
End EnvVar.

Module ConfigMapEnvSource.
Record t := { name : string; optional : bool }.
End ConfigMapEnvSource.

Module EnvFromSource.
Record t := { configMapRef : ConfigMapEnvSource.t }.
End EnvFromSource.

Module HTTPHeader.
Record t := { name : string; value : string }.
End HTTPHeader.

Module HTTPGetAction.
Record t := { path : string; port : int_or_str; httpHeaders : list HTTPHeader.t }.
End HTTPGetAction.

Module TCPSocketAction.
Record t := { port : int_or_str }.
End TCPSocketAction.

Module ExecAction.
Record t := { command : list string }.
End ExecAction.

Module Probe.
Record t := {
  httpGet : option HTTPGetAction.t;
  tcpSocket : option TCPSocketAction.t;
  _exec : option ExecAction.t;
  initialDelaySeconds : option Z;
  timeoutSeconds : option Z;
  successThreshold : option Z;
  failureThreshold : option Z;
  periodSeconds : option Z
}.
End Probe.

Module Handler.
Record t := { _exec : ExecAction.t }.
End Handler.

Module Lifecycle.
Record t := { preStop : Handler.t }.
End Lifecycle.

Module VolumeMount.
Record t := { name : string; readOnly : bool; mountPath : string }.
End VolumeMount.

Module ConfigMapVolumeSource.
Record t := { name : string; optional : bool }.
End ConfigMapVolumeSource.

Module EmptyDirVolumeSource.
Record t := { medium : option string }.
End EmptyDirVolumeSource.

Module SecretVolumeSource.
Record t := { secretName : string }.
End SecretVolumeSource.

Module Volume.
Record t := {
  name : string;
  configMap : option ConfigMapVolumeSource.t;
  emptyDir : option EmptyDirVolumeSource.t;
  secret : option SecretVolumeSource.t
}.
End Volume.

Module ResourceRequirements.
Record t := {
  limits : gmap string (option string);
  requests : gmap string (option string)
}.
End ResourceRequirements.

Module Container.
Record t := {
  name : string;
  image : option string;
  ports : list ContainerPort.t;
  env : list EnvVar.t;
  envFrom : list EnvFromSource.t;
  lifecycle : option Lifecycle.t;
  livenessProbe : option Probe.t;
  readinessProbe : option Probe.t;
  imagePullPolicy : string;
  volumeMounts : list VolumeMount.t;
  resources : option ResourceRequirements.t
}.
End Container.

Module PodSpec.
Record t := {
  containers : list Container.t;
  initContainers : list Container.t;
  volumes : list Volume.t;
  serviceAccountName : string;
  automountServiceAccountToken : bool;
  terminationGracePeriodSeconds : option Z
}.
End PodSpec.

Module PodTemplateSpec.
Record t := {
  metadata : option ObjectMeta.t;
  spec : PodSpec.t
}.
End PodTemplateSpec.

Module LabelSelector.
Record t := { matchLabels : Dict }.
End LabelSelector.

Module RollingUpdateDeployment.
Record t := { maxUnavailable : int_or_str; maxSurge : int_or_str }.
End RollingUpdateDeployment.

Module DeploymentStrategy.
Record t := { rollingUpdate : RollingUpdateDeployment.t }.
End DeploymentStrategy.

Module DeploymentSpec.
Record t := {
  replicas : Z;
  selector : LabelSelector.t;
  template : option PodTemplateSpec.t;
  revisionHistoryLimit : Z;
  strategy : option DeploymentStrategy.t
}.
End DeploymentSpec.

Module Deployment.
Record t := {
  metadata : ObjectMeta.t;
  spec : option DeploymentSpec.t
}.
End Deployment.

(** ** The world a deploy runs in

    [deployments] is the cluster's store of live deployment objects by
    (name, namespace).  [save_response n] is what the API server answers to
    the [n]-th write of this run ([None]: accepted), so a test double that
    fails a number of times and then succeeds is a function of the call
    count.  [committed] lists the accepted writes in order, [log] the records
    handed to the module's logger and [slept] the back-off waits. *)

Inductive level := INFO | WARNING | ERROR.

#[global] Instance level_eq_dec : EqDecision level.
Proof. solve_decision. Defined.

Record World := {
  deployments : gmap (string * string) Deployment.t;
  save_response : nat → option exn;
  save_calls : nat;
  committed : list Deployment.t;
  log : list (level * string);
  slept : list Z
}.

Definition with_log (w : World) (l : list (level * string)) : World :=
  {| deployments := deployments w; save_response := save_response w;
     save_calls := save_calls w; committed := committed w;
     log := l; slept := slept w |}.

Definition with_slept (w : World) (s : list Z) : World :=
  {| deployments := deployments w; save_response := save_response w;
     save_calls := save_calls w; committed := committed w;
     log := log w; slept := s |}.

Definition count_save (w : World) : World :=
  {| deployments := deployments w; save_response := save_response w;
     save_calls := S (save_calls w); committed := committed w;
     log := log w; slept := slept w |}.

Definition store (key : string * string) (d : Deployment.t) (w : World) : World :=
  {| deployments := <[key := d]> (deployments w); save_response := save_response w;
     save_calls := save_calls w; committed := committed w ++ [d];
     log := log w; slept := slept w |}.

Definition unstore (key : string * string) (w : World) : World :=
  {| deployments := delete key (deployments w); save_response := save_response w;
     save_calls := save_calls w; committed := committed w;
     log := log w; slept := slept w |}.

(** ** State and exceptions

    A computation returns a value or raises, and either way leaves a world
    behind: what was logged or written before an exception stays so. *)

Definition M (A : Type) : Type := World → (exn + A) * World.

Definition ret {A} (a : A) : M A := λ w, (inr a, w).

Definition raise {A} (e : exn) : M A := λ w, (inl e, w).

Definition bind {A B} (m : M A) (k : A → M B) : M B :=
  λ w, match m w with
       | (inl e, w') => (inl e, w')
       | (inr a, w') => k a w'
       end.

(** [try: body except <handles>: handler]. *)
Definition try_except {A} (body : M A) (handles : exn → bool) (handler : M A) : M A :=
  λ w, match body w with
       | (inl e, w') => if handles e then handler w' else (inl e, w')
       | (inr a, w') => (inr a, w')
       end.

Definition lift {A} (r : exn + A) : M A := λ w, (r, w).

Declare Scope py_scope.
Delimit Scope py_scope with py.
Notation "x <- m ;; k" := (bind m (λ x, k))
  (at level 100, m at next level, right associativity) : py_scope.
Notation "m ;; k" := (bind m (λ _, k))
  (at level 100, right associativity) : py_scope.
Local Open Scope py_scope.

(** [for x in xs: acc = step(acc, x)]. *)
Fixpoint for_each {A B} (xs : list A) (step : B → A → M B) (acc : B) : M B :=
  match xs with
  | [] => ret acc
  | x :: rest => acc' <- step acc x ;; for_each rest step acc'
  end.

(** The module logger. *)
Definition LOG_info (msg : string) : M unit :=
  λ w, (inr tt, with_log w (log w ++ [(INFO, msg)])).
Definition LOG_warn (msg : string) : M unit :=
  λ w, (inr tt, with_log w (log w ++ [(WARNING, msg)])).
Definition LOG_error (msg : string) : M unit :=
  λ w, (inr tt, with_log w (log w ++ [(ERROR, msg)])).

(** ** The cluster client ([k8s.models.deployment.Deployment]) *)

(** [Deployment.get(name, namespace)]: the live object, or [NotFound]. *)
Definition Deployment_get (name namespace : string) : M Deployment.t :=
  λ w, match deployments w !! (name, namespace) with
       | Some d => (inr d, w)
       | None => (inl NotFound, w)
       end.

(** [Deployment.get_or_create(metadata=..., spec=...)]: the live object with
    its fields set from the arguments if there is one, a new object
    otherwise; no write happens here. *)
Definition Deployment_get_or_create (metadata : ObjectMeta.t) (spec : DeploymentSpec.t)
  : M Deployment.t :=
  try_except
    (instance <- Deployment_get (ObjectMeta.name metadata) (ObjectMeta.namespace metadata) ;;
     ret {| Deployment.metadata := metadata; Deployment.spec := Some spec |})
    is_not_found
    (ret {| Deployment.metadata := metadata; Deployment.spec := Some spec |}).

(** [deployment.save()]: a full-replace write, answered by the API server. *)
Definition Deployment_save (d : Deployment.t) : M unit :=
  λ w, match save_response w (save_calls w) with
       | Some e => (inl e, count_save w)
       | None =>
           (inr tt,
            store (ObjectMeta.name (Deployment.metadata d),
                   ObjectMeta.namespace (Deployment.metadata d)) d (count_save w))
       end.

(** [Deployment.delete(name, namespace, body=...)]. *)
Definition Deployment_delete (name namespace : string) (body : Dict) : M unit :=
  λ w, match deployments w !! (name, namespace) with
       | Some _ => (inr tt, unstore (name, namespace) w)
       | None => (inl NotFound, w)
       end.

(** ** Dicts as shared objects

    Where a function is about which dict object it returns, dicts live in a
    heap and are passed by reference. *)

Module PyHeap.
Abbreviation ref := nat.
Abbreviation heap := (list Dict).

Definition H (A : Type) : Type := heap → A * heap.

Definition hret {A} (a : A) : H A := λ h, (a, h).
Definition hbind {A B} (m : H A) (k : A → H B) : H B :=
  λ h, let '(a, h') := m h in k a h'.

(** The dict a reference points to. *)
Definition deref (r : ref) (h : heap) : Dict := default ∅ (h !! r).

(** Allocating a dict object. *)
Definition new_dict (d : Dict) : H ref := λ h, (List.length h, h ++ [d]).

(** [d.copy()]: a new object with the same items. *)
Definition dict_copy (r : ref) : H ref := λ h, new_dict (deref r h) h.

(** [d.update(other)]: in place, [other]'s items win. *)
Definition dict_update (r : ref) (other : Dict) : H unit :=
  λ h, (tt, <[r := other ∪ deref r h]> h).

(** Running a function from a dict object to a dict object on a value. *)
Definition on_value (f : ref → H ref) (d : Dict) : Dict :=
  let '(r, h) := f 0%nat [d] in deref r h.
End PyHeap.

(** ** The retry policy *)

(** Modelled from the spec: [fiaas_deploy_daemon.retry.retry_on_upsert_conflict]
    is imported by deployer.py but is not among the sources.  The spec says:
    on conflict, retry the entire sequence up to a fixed attempt count with
    capped exponential backoff; exhausting the retries surfaces the conflict
    error; any other error propagates immediately.  The wait before retry
    [k] is taken to be [2^k] seconds, capped at [max_value_seconds]. *)
Definition backoff_wait (max_value_seconds : Z) (attempt : nat) : Z :=
  Z.min (2 ^ Z.of_nat attempt) max_value_seconds.

(** Modelled from the spec: waiting is recorded in [slept], nothing else
    happens while the deployer waits. *)
Definition sleep (seconds : Z) : M unit :=
  λ w, (inr tt, with_slept w (slept w ++ [seconds])).

(** Modelled from the spec: the attempts.  [tries_left] is the number of
    calls still allowed after this one, [attempt] counts the calls made. *)
Fixpoint retry_loop {A} (max_value_seconds : Z) (tries_left attempt : nat) (func : M A)
  : M A :=
  λ w, match func w with
       | (inl e, w') =>
           if is_conflict e then
             match tries_left with
             | O => (inl e, w')
             | S n =>
                 (sleep (backoff_wait max_value_seconds attempt) ;;
                  retry_loop max_value_seconds n (S attempt) func) w'
             end
           else (inl e, w')
       | (inr a, w') => (inr a, w')
       end.

(** Modelled from the spec: the decorator; [max_tries] counts the calls of
    the wrapped function, of which there is always a first. *)
Definition retry_on_upsert_conflict {A} (max_value_seconds : Z) (max_tries : nat)
    (func : M A) : M A :=
  retry_loop max_value_seconds (Nat.pred max_tries) 0 func.

(** Modelled from the spec: [fiaas_deploy_daemon.tools.merge_dicts] is not
    among the sources; the spec merges the spec-declared labels with the
    caller-supplied ones, the caller winning on conflicting keys, so later
    arguments win. *)
Definition merge_dicts (a b : Dict) : Dict := b ∪ a.

(** ** The application spec ([fiaas_deploy_daemon.specs.models])

    Modelled from the spec: the named tuples themselves are not among the
    sources; the records carry the attributes the sources read, typed as the
    data model of the specification describes them. *)

Module PortSpec.
Record t := { name : string; target_port : Z }.
End PortSpec.

Module HttpCheckSpec.
Record t := { path : string; port : int_or_str; http_headers : Dict }.
End HttpCheckSpec.

Module TcpCheckSpec.
Record t := { port : int_or_str }.
End TcpCheckSpec.

Module ExecCheckSpec.
Record t := { command : string }.
End ExecCheckSpec.

Module CheckSpec.
Record t := {
  http : option HttpCheckSpec.t;
  tcp : option TcpCheckSpec.t;
  execute : option ExecCheckSpec.t;
  initial_delay_seconds : Z;
  period_seconds : Z;
  success_threshold : Z;
  failure_threshold : Z;
  timeout_seconds : Z
}.
End CheckSpec.

Module HealthCheckSpec.
Record t := { liveness : CheckSpec.t; readiness : CheckSpec.t }.
End HealthCheckSpec.

Module ResourceRequirementSpec.
Record t := { cpu : option string; memory : option string }.
End ResourceRequirementSpec.

Module ResourcesSpec.
Record t := { limits : ResourceRequirementSpec.t; requests : ResourceRequirementSpec.t }.
End ResourcesSpec.

Module LabelAndAnnotationSpec.
Record t := { deployment : Dict; pod : Dict }.
End LabelAndAnnotationSpec.

Module AutoscalerSpec.
Record t := { enabled : bool }.
End AutoscalerSpec.

Module PrometheusSpec.
Record t := { enabled : bool; port : int_or_str; path : string }.
End PrometheusSpec.

Module DatadogSpec.
Record t := { enabled : bool; tags : Dict }.
End DatadogSpec.

Module AppSpec.
Record t := {
  name : string;
  namespace : string;
  image : string;
  version : string;
  replicas : Z;
  ports : list PortSpec.t;
  health_checks : HealthCheckSpec.t;
  resources : ResourcesSpec.t;
  labels : LabelAndAnnotationSpec.t;
  annotations : LabelAndAnnotationSpec.t;
  admin_access : bool;
  singleton : bool;
  autoscaler : AutoscalerSpec.t;
  prometheus : PrometheusSpec.t;
  datadog : DatadogSpec.t
}.
End AppSpec.

(** Modelled from the spec: the daemon configuration
    ([fiaas_deploy_daemon.Configuration]) is not among the sources; the record
    carries the attributes the sources read.  An unset environment is the
    empty string. *)
Module Configuration.
Record t := {
  infrastructure : string;
  environment : string;
  log_format : string;
  global_env : Dict;
  pre_stop_delay : Z;
  use_in_memory_emptydirs : bool;
  deployment_max_surge : int_or_str;
  deployment_max_unavailable : int_or_str;
  datadog_container_image : option string;
  secrets_init_container_image : option string;
  secrets_service_account_name : option string
}.
End Configuration.

(** ** Sorting the environment

    [env.sort(key=lambda x: x.name)]: Python's sort is stable and compares
    [str] keys byte by byte.  Inserting from the right, an element going in
    front of the first one that is not smaller, is that sort. *)
Fixpoint insert_by_name (x : EnvVar.t) (l : list EnvVar.t) : list EnvVar.t :=
  match l with
  | [] => [x]
  | y :: l' =>
      if String.leb (EnvVar.name x) (EnvVar.name y) then x :: y :: l'
      else y :: insert_by_name x l'
  end.

Definition sort_by_name (l : list EnvVar.t) : list EnvVar.t :=
  foldr insert_by_name [] l.

Definition name_le (x y : EnvVar.t) : Prop :=
  String.leb (EnvVar.name x) (EnvVar.name y) = true.

(** * deployment/deployer.py *)

Module Deployer.
Section Deployer.
Context `{PyRuntime}.

(** [fiaas_deploy_daemon.deployer.kubernetes.autoscaler.should_have_autoscaler]
    is imported but not among the sources: whether the spec enables
    autoscaling is a parameter. *)
Variable should_have_autoscaler : AppSpec.t → bool.

(** The deployer object.  The three collaborators are the objects whose
    [apply] mutates the deployment before it is saved. *)
Record DeploymentDeployer := {
  _datadog : Deployment.t → AppSpec.t → bool → Deployment.t;
  _prometheus : Deployment.t → AppSpec.t → Deployment.t;
  _secrets : Deployment.t → AppSpec.t → Deployment.t;
  _fiaas_env : Dict;
  _global_env : Dict;
  _lifecycle : option Lifecycle.t;
  _grace_period : Z;
  _use_in_memory_emptydirs : bool;
  _max_surge : int_or_str;
  _max_unavailable : int_or_str
}.

Definition MINIMUM_GRACE_PERIOD : Z := 30.

Definition _build_fiaas_env (config : Configuration.t) : Dict :=
  let env : Dict :=
    <["CONSTRETTO_TAGS" := "kubernetes"]>
      (<["LOG_FORMAT" := Configuration.log_format config]>
         (<["LOG_STDOUT" := "true"]>
            (<["FIAAS_INFRASTRUCTURE" := Configuration.infrastructure config]> ∅))) in
  if negb (String.eqb (Configuration.environment config) "") then
    <["CONSTRETTO_TAGS" :=
        join "," ["kubernetes-" +:+ Configuration.environment config;
                  "kubernetes";
                  Configuration.environment config]]>
      (<["FIAAS_ENVIRONMENT" := Configuration.environment config]>
         (<["FINN_ENV" := Configuration.environment config]> env))
  else env.

Definition __init__ (config : Configuration.t)
    (datadog : Deployment.t → AppSpec.t → bool → Deployment.t)
    (prometheus deployment_secrets : Deployment.t → AppSpec.t → Deployment.t)
  : DeploymentDeployer :=
  let delayed := 0 <? Configuration.pre_stop_delay config in
  {| _datadog := datadog;
     _prometheus := prometheus;
     _secrets := deployment_secrets;
     _fiaas_env := _build_fiaas_env config;
     _global_env := Configuration.global_env config;
     _lifecycle :=
       if delayed then
         Some {| Lifecycle.preStop :=
                   {| Handler._exec :=
                        {| ExecAction.command :=
                             ["sleep"; str (Configuration.pre_stop_delay config)] |} |} |}
       else None;
     _grace_period :=
       if delayed then MINIMUM_GRACE_PERIOD + Configuration.pre_stop_delay config
       else MINIMUM_GRACE_PERIOD;
     _use_in_memory_emptydirs := Configuration.use_in_memory_emptydirs config;
     _max_surge := Configuration.deployment_max_surge config;
     _max_unavailable := Configuration.deployment_max_unavailable config |}.

Definition _make_volumes (self : DeploymentDeployer) (app_spec : AppSpec.t)
  : list Volume.t :=
  let empty_dir_volume_source :=
    if _use_in_memory_emptydirs self
    then {| EmptyDirVolumeSource.medium := Some "Memory" |}
    else {| EmptyDirVolumeSource.medium := None |} in
  [ {| Volume.name := AppSpec.name app_spec +:+ "-config";
       Volume.configMap :=
         Some {| ConfigMapVolumeSource.name := AppSpec.name app_spec;
                 ConfigMapVolumeSource.optional := true |};
       Volume.emptyDir := None;
       Volume.secret := None |};
    {| Volume.name := "tmp";
       Volume.configMap := None;
       Volume.emptyDir := Some empty_dir_volume_source;
       Volume.secret := None |} ].

Definition _make_volume_mounts (self : DeploymentDeployer) (app_spec : AppSpec.t)
  : list VolumeMount.t :=
  [ {| VolumeMount.name := AppSpec.name app_spec +:+ "-config";
       VolumeMount.readOnly := true;
       VolumeMount.mountPath := "/var/run/config/fiaas/" |};
    {| VolumeMount.name := "tmp";
       VolumeMount.readOnly := false;
       VolumeMount.mountPath := "/tmp" |} ].

(** The dict [_make_env] calls [constants]: a copy of the daemon-wide
    constants with the three identity values written over it. *)
Definition constants_of (self : DeploymentDeployer) (app_spec : AppSpec.t) : Dict :=
  <["VERSION" := AppSpec.version app_spec]>
    (<["IMAGE" := AppSpec.image app_spec]>
       (<["ARTIFACT_NAME" := AppSpec.name app_spec]> (_fiaas_env self))).

Definition literal (name value : string) : EnvVar.t :=
  {| EnvVar.name := name; EnvVar.value := Some value; EnvVar.valueFrom := None |}.

Definition resource_field (name container_name resource : string) : EnvVar.t :=
  {| EnvVar.name := name;
     EnvVar.value := None;
     EnvVar.valueFrom :=
       Some {| EnvVarSource.resourceFieldRef :=
                 Some {| ResourceFieldSelector.containerName := container_name;
                         ResourceFieldSelector.resource := resource;
                         ResourceFieldSelector.divisor := 1 |};
               EnvVarSource.fieldRef := None |} |}.

Definition object_field (name field_path : string) : EnvVar.t :=
  {| EnvVar.name := name;
     EnvVar.value := None;
     EnvVar.valueFrom :=
       Some {| EnvVarSource.resourceFieldRef := None;
               EnvVarSource.fieldRef :=
                 Some {| ObjectFieldSelector.fieldPath := field_path |} |} |}.

Definition field_references (app_spec : AppSpec.t) : list EnvVar.t :=
  [ resource_field "FIAAS_REQUESTS_CPU" (AppSpec.name app_spec) "requests.cpu";
    resource_field "FIAAS_REQUESTS_MEMORY" (AppSpec.name app_spec) "requests.memory";
    resource_field "FIAAS_LIMITS_CPU" (AppSpec.name app_spec) "limits.cpu";
    resource_field "FIAAS_LIMITS_MEMORY" (AppSpec.name app_spec) "limits.memory";
    object_field "FIAAS_NAMESPACE" "metadata.namespace";
    object_field "FIAAS_POD_NAME" "metadata.name" ].

(** One turn of the loop over the global overrides. *)
Definition global_env_step (constants : Dict) (global_env : list EnvVar.t)
    (item : string * string) : M (list EnvVar.t) :=
  let '(name, value) := item in
  if negb (dict_contains ("FIAAS_" +:+ name) constants)
     && negb (dict_contains name constants)
  then ret (global_env ++ [literal name value; literal ("FIAAS_" +:+ name) value])
  else
    LOG_warn ("Reserved environment-variable: " +:+ name
              +:+ " declared as global. Ignoring and continuing") ;;
    ret global_env.

Definition _make_env (self : DeploymentDeployer) (app_spec : AppSpec.t)
  : M (list EnvVar.t) :=
  let constants := constants_of self app_spec in
  let env := map (λ '(name, value), literal name value) (iteritems constants) in
  global_env <- for_each (iteritems (_global_env self)) (global_env_step constants) [] ;;
  let env := env ++ global_env in
  let env := env ++ field_references app_spec in
  ret (sort_by_name env).

Definition init_container_annotation (key : string) : bool :=
  endswith key "kubernetes.io/init-containers".

(** The annotations are a dict inside the deployment; deleting from it
    changes the deployment.  A [None] on the way to them is the
    [AttributeError] the function passes over. *)
Definition _clear_pod_init_container_annotations (deployment : Deployment.t)
  : Deployment.t :=
  match Deployment.spec deployment with
  | None => deployment
  | Some spec =>
      match DeploymentSpec.template spec with
      | None => deployment
      | Some template =>
          match PodTemplateSpec.metadata template with
          | None => deployment
          | Some metadata =>
              let annotations := ObjectMeta.annotations metadata in
              if bool_decide (annotations = ∅) then deployment
              else
                let keys_to_clear : gset string :=
                  dom (filter (λ item, init_container_annotation item.1 = true)
                         annotations) in
                let annotations' :=
                  set_fold (λ key acc, delete key acc) annotations keys_to_clear in
                {| Deployment.metadata := Deployment.metadata deployment;
                   Deployment.spec :=
                     Some {| DeploymentSpec.replicas := DeploymentSpec.replicas spec;
                             DeploymentSpec.selector := DeploymentSpec.selector spec;
                             DeploymentSpec.template :=
                               Some {| PodTemplateSpec.metadata :=
                                         Some {| ObjectMeta.name := ObjectMeta.name metadata;
                                                 ObjectMeta.namespace :=
                                                   ObjectMeta.namespace metadata;
                                                 ObjectMeta.labels := ObjectMeta.labels metadata;
                                                 ObjectMeta.annotations := annotations' |};
                                       PodTemplateSpec.spec := PodTemplateSpec.spec template |};
                             DeploymentSpec.revisionHistoryLimit :=
                               DeploymentSpec.revisionHistoryLimit spec;
                             DeploymentSpec.strategy := DeploymentSpec.strategy spec |} |}
          end
      end
  end.

(** On dict objects: the copy gets the status label and is returned. *)
Definition _add_status_label (labels : PyHeap.ref) : PyHeap.H PyHeap.ref :=
  PyHeap.hbind (PyHeap.dict_copy labels) (λ copy,
  PyHeap.hbind (PyHeap.dict_update copy {["fiaas/status" := "active"]}) (λ _,
  PyHeap.hret copy)).

Definition _make_resource_requirements (resources_spec : ResourcesSpec.t)
  : ResourceRequirements.t :=
  let as_dict (resource_requirement_spec : ResourceRequirementSpec.t)
    : gmap string (option string) :=
    <["memory" := ResourceRequirementSpec.memory resource_requirement_spec]>
      (<["cpu" := ResourceRequirementSpec.cpu resource_requirement_spec]> ∅) in
  {| ResourceRequirements.limits := as_dict (ResourcesSpec.limits resources_spec);
     ResourceRequirements.requests := as_dict (ResourcesSpec.requests resources_spec) |}.

Definition no_health_check : string :=
  "AppSpec must have exactly one health check, none was defined.".

Definition _make_probe (check_spec : CheckSpec.t) : exn + Probe.t :=
  let probe (httpGet : option HTTPGetAction.t) (tcpSocket : option TCPSocketAction.t)
            (_exec : option ExecAction.t) : Probe.t :=
    {| Probe.httpGet := httpGet;
       Probe.tcpSocket := tcpSocket;
       Probe._exec := _exec;
       Probe.initialDelaySeconds := Some (CheckSpec.initial_delay_seconds check_spec);
       Probe.timeoutSeconds := Some (CheckSpec.timeout_seconds check_spec);
       Probe.successThreshold := Some (CheckSpec.success_threshold check_spec);
       Probe.failureThreshold := Some (CheckSpec.failure_threshold check_spec);
       Probe.periodSeconds := Some (CheckSpec.period_seconds check_spec) |} in
  match CheckSpec.http check_spec with
  | Some http =>
      inr (probe
             (Some {| HTTPGetAction.path := HttpCheckSpec.path http;
                      HTTPGetAction.port := HttpCheckSpec.port http;
                      HTTPGetAction.httpHeaders :=
                        map (λ '(name, value),
                               {| HTTPHeader.name := name; HTTPHeader.value := value |})
                            (iteritems (HttpCheckSpec.http_headers http)) |})
             None None)
  | None =>
      match CheckSpec.tcp check_spec with
      | Some tcp =>
          inr (probe None (Some {| TCPSocketAction.port := TcpCheckSpec.port tcp |}) None)
      | None =>
          match CheckSpec.execute check_spec with
          | Some execute =>
              match shlex_split (ExecCheckSpec.command execute) with
              | Some argv => inr (probe None None (Some {| ExecAction.command := argv |}))
              | None => inl ValueError
              end
          | None => inl (RuntimeError no_health_check)
          end
      end
  end.

Definition pull_policy_of (image : string) : string :=
  if contains ":" image && negb (contains ":latest" image)
  then "IfNotPresent" else "Always".

(** [deployment.spec.replicas] of a live object. *)
Definition live_replicas (deployment : Deployment.t) : M Z :=
  match Deployment.spec deployment with
  | Some spec => ret (DeploymentSpec.replicas spec)
  | None => raise AttributeError
  end.

(** The body of [deploy], before the decorator. *)
Definition deploy_once (self : DeploymentDeployer) (app_spec : AppSpec.t)
    (selector labels : Dict) (besteffort_qos_is_required : bool) : M unit :=
  LOG_info ("Creating new deployment for " +:+ AppSpec.name app_spec) ;;
  let deployment_labels :=
    merge_dicts (LabelAndAnnotationSpec.deployment (AppSpec.labels app_spec)) labels in
  let metadata :=
    {| ObjectMeta.name := AppSpec.name app_spec;
       ObjectMeta.namespace := AppSpec.namespace app_spec;
       ObjectMeta.labels := deployment_labels;
       ObjectMeta.annotations :=
         LabelAndAnnotationSpec.deployment (AppSpec.annotations app_spec) |} in
  let container_ports :=
    map (λ port_spec,
           {| ContainerPort.name := PortSpec.name port_spec;
              ContainerPort.containerPort := PortSpec.target_port port_spec |})
        (AppSpec.ports app_spec) in
  env <- _make_env self app_spec ;;
  let pull_policy := pull_policy_of (AppSpec.image app_spec) in
  let env_from :=
    [ {| EnvFromSource.configMapRef :=
           {| ConfigMapEnvSource.name := AppSpec.name app_spec;
              ConfigMapEnvSource.optional := true |} |} ] in
  liveness <- lift (_make_probe (HealthCheckSpec.liveness (AppSpec.health_checks app_spec))) ;;
  readiness <- lift (_make_probe (HealthCheckSpec.readiness (AppSpec.health_checks app_spec))) ;;
  let containers :=
    [ {| Container.name := AppSpec.name app_spec;
         Container.image := Some (AppSpec.image app_spec);
         Container.ports := container_ports;
         Container.env := env;
         Container.envFrom := env_from;
         Container.lifecycle := _lifecycle self;
         Container.livenessProbe := Some liveness;
         Container.readinessProbe := Some readiness;
         Container.imagePullPolicy := pull_policy;
         Container.volumeMounts := _make_volume_mounts self app_spec;
         Container.resources :=
           Some (_make_resource_requirements (AppSpec.resources app_spec)) |} ] in
  let automount_service_account_token := AppSpec.admin_access app_spec in
  let init_containers : list Container.t := [] in
  let service_account_name := "default" in
  let pod_spec :=
    {| PodSpec.containers := containers;
       PodSpec.initContainers := init_containers;
       PodSpec.volumes := _make_volumes self app_spec;
       PodSpec.serviceAccountName := service_account_name;
       PodSpec.automountServiceAccountToken := automount_service_account_token;
       PodSpec.terminationGracePeriodSeconds := Some (_grace_period self) |} in
  let pod_labels :=
    merge_dicts (LabelAndAnnotationSpec.pod (AppSpec.labels app_spec))
                (PyHeap.on_value _add_status_label labels) in
  let pod_metadata :=
    {| ObjectMeta.name := AppSpec.name app_spec;
       ObjectMeta.namespace := AppSpec.namespace app_spec;
       ObjectMeta.labels := pod_labels;
       ObjectMeta.annotations :=
         LabelAndAnnotationSpec.pod (AppSpec.annotations app_spec) |} in
  let pod_template_spec :=
    {| PodTemplateSpec.metadata := Some pod_metadata;
       PodTemplateSpec.spec := pod_spec |} in
  replicas <-
    (if should_have_autoscaler app_spec then
       try_except
         (deployment <- Deployment_get (AppSpec.name app_spec) (AppSpec.namespace app_spec) ;;
          replicas <- live_replicas deployment ;;
          LOG_info ("Configured replica size (" +:+ str (AppSpec.replicas app_spec)
                    +:+ ") for deployment is being ignored, as current running replica size"
                    +:+ " is different (" +:+ str replicas +:+ ") for "
                    +:+ AppSpec.name app_spec) ;;
          ret replicas)
         is_not_found
         (ret (AppSpec.replicas app_spec))
     else ret (AppSpec.replicas app_spec)) ;;
  let deployment_strategy :=
    if (AppSpec.replicas app_spec =? 1) && AppSpec.singleton app_spec then
      {| DeploymentStrategy.rollingUpdate :=
           {| RollingUpdateDeployment.maxUnavailable := IsInt 1;
              RollingUpdateDeployment.maxSurge := IsInt 0 |} |}
    else
      {| DeploymentStrategy.rollingUpdate :=
           {| RollingUpdateDeployment.maxUnavailable := _max_unavailable self;
              RollingUpdateDeployment.maxSurge := _max_surge self |} |} in
  let spec :=
    {| DeploymentSpec.replicas := replicas;
       DeploymentSpec.selector := {| LabelSelector.matchLabels := selector |};
       DeploymentSpec.template := Some pod_template_spec;
       DeploymentSpec.revisionHistoryLimit := 5;
       DeploymentSpec.strategy := Some deployment_strategy |} in
  deployment <- Deployment_get_or_create metadata spec ;;
  let deployment := _clear_pod_init_container_annotations deployment in
  let deployment := _datadog self deployment app_spec besteffort_qos_is_required in
  let deployment := _prometheus self deployment app_spec in
  let deployment := _secrets self deployment app_spec in
  Deployment_save deployment.

(** [@retry_on_upsert_conflict(max_value_seconds=5, max_tries=5)]. *)
Definition deploy (self : DeploymentDeployer) (app_spec : AppSpec.t)
    (selector labels : Dict) (besteffort_qos_is_required : bool) : M unit :=
  retry_on_upsert_conflict 5 5
    (deploy_once self app_spec selector labels besteffort_qos_is_required).

Definition delete (self : DeploymentDeployer) (app_spec : AppSpec.t) : M unit :=
  LOG_info ("Deleting deployment for " +:+ AppSpec.name app_spec) ;;
  try_except
    (let body : Dict :=
       <["propagationPolicy" := "Foreground"]>
         (<["apiVersion" := "v1"]> (<["kind" := "DeleteOptions"]> ∅)) in
     Deployment_delete (AppSpec.name app_spec) (AppSpec.namespace app_spec) body)
    is_not_found
    (ret tt).

End Deployer.
End Deployer.

(** * deployment.py, the single-file builder *)

Module Legacy.

(** This builder reads the labels and annotations of the spec as dicts of
    dicts, and knows of secrets and of no singleton. *)
Module AppSpec.
Record t := {
  name : string;
  namespace : string;
  image : string;
  version : string;
  replicas : Z;
  ports : list PortSpec.t;
  health_checks : HealthCheckSpec.t;
  resources : ResourcesSpec.t;
  labels : gmap string Dict;
  annotations : gmap string Dict;
  admin_access : bool;
  has_secrets : bool;
  autoscaler : AutoscalerSpec.t;
  prometheus : option PrometheusSpec.t
}.
End AppSpec.

Section Legacy.
Context `{PyRuntime}.

Variable should_have_autoscaler : AppSpec.t → bool.

Record DeploymentDeployer := {
  _fiaas_env : Dict;
  _global_env : Dict;
  _secrets_init_container_image : option string;
  _secrets_service_account_name : option string
}.

Definition SECRETS_INIT_CONTAINER_NAME : string := "fiaas-secrets-init-container".

Definition __init__ (config : Configuration.t) : DeploymentDeployer :=
  {| _fiaas_env :=
       <["LOG_FORMAT" := "json"]>
         (<["LOG_STDOUT" := "true"]>
            (<["CONSTRETTO_TAGS" :=
                 join "," ["kubernetes-" +:+ Configuration.environment config;
                           "kubernetes";
                           Configuration.environment config]]>
               (<["FIAAS_ENVIRONMENT" := Configuration.environment config]>
                  (<["FIAAS_INFRASTRUCTURE" := Configuration.infrastructure config]>
                     (<["FINN_ENV" := Configuration.environment config]> ∅)))));
     _global_env := Configuration.global_env config;
     _secrets_init_container_image := Configuration.secrets_init_container_image config;
     _secrets_service_account_name := Configuration.secrets_service_account_name config |}.

(** Truth value of a string that may be [None]. *)
Definition truthy (s : option string) : bool :=
  match s with
  | Some s => negb (String.eqb s "")
  | None => false
  end.

Definition _uses_secrets_init_container (self : DeploymentDeployer) : bool :=
  truthy (_secrets_init_container_image self).

Definition _make_volumes (self : DeploymentDeployer) (app_spec : AppSpec.t)
  : list Volume.t :=
  (if AppSpec.has_secrets app_spec then
     if _uses_secrets_init_container self then
       [ {| Volume.name := AppSpec.name app_spec +:+ "-secret";
            Volume.configMap := None;
            Volume.emptyDir := Some {| EmptyDirVolumeSource.medium := None |};
            Volume.secret := None |};
         {| Volume.name := SECRETS_INIT_CONTAINER_NAME +:+ "-config";
            Volume.configMap :=
              Some {| ConfigMapVolumeSource.name := SECRETS_INIT_CONTAINER_NAME;
                      ConfigMapVolumeSource.optional := true |};
            Volume.emptyDir := None;
            Volume.secret := None |} ]
     else
       [ {| Volume.name := AppSpec.name app_spec +:+ "-secret";
            Volume.configMap := None;
            Volume.emptyDir := None;
            Volume.secret :=
              Some {| SecretVolumeSource.secretName := AppSpec.name app_spec |} |} ]
   else [])
  ++ [ {| Volume.name := AppSpec.name app_spec +:+ "-config";
          Volume.configMap :=
            Some {| ConfigMapVolumeSource.name := AppSpec.name app_spec;
                    ConfigMapVolumeSource.optional := true |};
          Volume.emptyDir := None;
          Volume.secret := None |} ].

Definition _make_volume_mounts (self : DeploymentDeployer) (app_spec : AppSpec.t)
    (is_init_container : bool) : list VolumeMount.t :=
  (if AppSpec.has_secrets app_spec then
     {| VolumeMount.name := AppSpec.name app_spec +:+ "-secret";
        VolumeMount.readOnly := negb is_init_container;
        VolumeMount.mountPath := "/var/run/secrets/fiaas/" |}
     :: (if is_init_container then
           [ {| VolumeMount.name := SECRETS_INIT_CONTAINER_NAME +:+ "-config";
                VolumeMount.readOnly := true;
                VolumeMount.mountPath :=
                  "/var/run/config/" +:+ SECRETS_INIT_CONTAINER_NAME +:+ "/" |} ]
         else [])
   else [])
  ++ [ {| VolumeMount.name := AppSpec.name app_spec +:+ "-config";
          VolumeMount.readOnly := true;
          VolumeMount.mountPath := "/var/run/config/fiaas/" |} ].

Definition literal (name value : string) : EnvVar.t :=
  {| EnvVar.name := name; EnvVar.value := Some value; EnvVar.valueFrom := None |}.

Definition _make_secrets_init_container (self : DeploymentDeployer)
    (app_spec : AppSpec.t) : Container.t :=
  {| Container.name := SECRETS_INIT_CONTAINER_NAME;
     Container.image := _secrets_init_container_image self;
     Container.ports := [];
     Container.env := [literal "K8S_DEPLOYMENT" (AppSpec.name app_spec)];
     Container.envFrom :=
       [ {| EnvFromSource.configMapRef :=
              {| ConfigMapEnvSource.name := SECRETS_INIT_CONTAINER_NAME;
                 ConfigMapEnvSource.optional := true |} |} ];
     Container.lifecycle := None;
     Container.livenessProbe := None;
     Container.readinessProbe := None;
     Container.imagePullPolicy := "IfNotPresent";
     Container.volumeMounts := _make_volume_mounts self app_spec true;
     Container.resources := None |}.

Definition constants_of (self : DeploymentDeployer) (app_spec : AppSpec.t) : Dict :=
  <["VERSION" := AppSpec.version app_spec]>
    (<["IMAGE" := AppSpec.image app_spec]>
       (<["ARTIFACT_NAME" := AppSpec.name app_spec]> (_fiaas_env self))).

Definition global_env_step (constants : Dict) (global_env : list EnvVar.t)
    (item : string * string) : M (list EnvVar.t) :=
  let '(name, value) := item in
  if negb (dict_contains ("FIAAS_" +:+ name) constants)
     && negb (dict_contains name constants)
  then ret (global_env ++ [literal name value; literal ("FIAAS_" +:+ name) value])
  else
    LOG_warn ("Reserved environment-variable: " +:+ name
              +:+ " declared as global. Ignoring and continuing") ;;
    ret global_env.

(** No field references and no sort here: the list is in dict order. *)
Definition _make_env (self : DeploymentDeployer) (app_spec : AppSpec.t)
  : M (list EnvVar.t) :=
  let constants := constants_of self app_spec in
  let env := map (λ '(name, value), literal name value) (iteritems constants) in
  global_env <- for_each (iteritems (_global_env self)) (global_env_step constants) [] ;;
  ret (env ++ global_env).

(** On dict objects: the copy gets the status label, the argument is
    returned. *)
Definition _add_status_label (labels : PyHeap.ref) : PyHeap.H PyHeap.ref :=
  PyHeap.hbind (PyHeap.dict_copy labels) (λ copy,
  PyHeap.hbind (PyHeap.dict_update copy {["fiaas/status" := "active"]}) (λ _,
  PyHeap.hret labels)).

Definition _make_prometheus_annotations (app_spec : AppSpec.t)
    (prometheus_spec : PrometheusSpec.t) : M Dict :=
  let lookup : gmap string Z :=
    foldl (λ acc p, <[PortSpec.name p := PortSpec.target_port p]> acc) ∅
          (AppSpec.ports app_spec) in
  let annotations (port : Z) : Dict :=
    <["prometheus.io/path" := PrometheusSpec.path prometheus_spec]>
      (<["prometheus.io/port" := str port]>
         (<["prometheus.io/scrape" :=
              str_bool_lower (PrometheusSpec.enabled prometheus_spec)]> ∅)) in
  let by_name (port_name : string) : M Dict :=
    match lookup !! port_name with
    | Some port => ret (annotations port)
    | None =>
        LOG_error ("Invalid prometheus configuration for " +:+ AppSpec.name app_spec) ;;
        ret ∅
    end in
  match PrometheusSpec.port prometheus_spec with
  | IsInt port => ret (annotations port)
  | IsStr s =>
      match py_int s with
      | Some port => ret (annotations port)
      | None => by_name s
      end
  end.

Definition _make_resource_requirements (resources_spec : ResourcesSpec.t)
  : ResourceRequirements.t :=
  let as_dict (resource_requirement_spec : ResourceRequirementSpec.t)
    : gmap string (option string) :=
    <["memory" := ResourceRequirementSpec.memory resource_requirement_spec]>
      (<["cpu" := ResourceRequirementSpec.cpu resource_requirement_spec]> ∅) in
  {| ResourceRequirements.limits := as_dict (ResourcesSpec.limits resources_spec);
     ResourceRequirements.requests := as_dict (ResourcesSpec.requests resources_spec) |}.

Definition no_health_check : string :=
  "AppSpec must have exactly one health check, none was defined.".

(** The failure threshold is not passed to the probe. *)
Definition _make_probe (check_spec : CheckSpec.t) : exn + Probe.t :=
  let probe (httpGet : option HTTPGetAction.t) (tcpSocket : option TCPSocketAction.t)
            (_exec : option ExecAction.t) : Probe.t :=
    {| Probe.httpGet := httpGet;
       Probe.tcpSocket := tcpSocket;
       Probe._exec := _exec;
       Probe.initialDelaySeconds := Some (CheckSpec.initial_delay_seconds check_spec);
       Probe.timeoutSeconds := Some (CheckSpec.timeout_seconds check_spec);
       Probe.successThreshold := Some (CheckSpec.success_threshold check_spec);
       Probe.failureThreshold := None;
       Probe.periodSeconds := Some (CheckSpec.period_seconds check_spec) |} in
  match CheckSpec.http check_spec with
  | Some http =>
      inr (probe
             (Some {| HTTPGetAction.path := HttpCheckSpec.path http;
                      HTTPGetAction.port := HttpCheckSpec.port http;
                      HTTPGetAction.httpHeaders :=
                        map (λ '(name, value),
                               {| HTTPHeader.name := name; HTTPHeader.value := value |})
                            (iteritems (HttpCheckSpec.http_headers http)) |})
             None None)
  | None =>
      match CheckSpec.tcp check_spec with
      | Some tcp =>
          inr (probe None (Some {| TCPSocketAction.port := TcpCheckSpec.port tcp |}) None)
      | None =>
          match CheckSpec.execute check_spec with
          | Some execute =>
              match shlex_split (ExecCheckSpec.command execute) with
              | Some argv => inr (probe None None (Some {| ExecAction.command := argv |}))
              | None => inl ValueError
              end
          | None => inl (RuntimeError no_health_check)
          end
      end
  end.

Definition pull_policy_of (image : string) : string :=
  if contains ":" image && negb (contains ":latest" image)
  then "IfNotPresent" else "Always".

Definition live_replicas (deployment : Deployment.t) : M Z :=
  match Deployment.spec deployment with
  | Some spec => ret (DeploymentSpec.replicas spec)
  | None => raise AttributeError
  end.

(** [custom_labels.update(labels)] writes into the dict taken from the
    spec; the value it leaves there is what is modelled here. *)
Definition deploy (self : DeploymentDeployer) (app_spec : AppSpec.t)
    (selector labels : Dict) : M unit :=
  LOG_info ("Creating new deployment for " +:+ AppSpec.name app_spec) ;;
  let custom_labels : Dict :=
    labels ∪ default ∅ (AppSpec.labels app_spec !! "deployment") in
  let annotations : Dict := default ∅ (AppSpec.annotations app_spec !! "deployment") in
  let metadata :=
    {| ObjectMeta.name := AppSpec.name app_spec;
       ObjectMeta.namespace := AppSpec.namespace app_spec;
       ObjectMeta.labels := custom_labels;
       ObjectMeta.annotations := annotations |} in
  let container_ports :=
    map (λ port_spec,
           {| ContainerPort.name := PortSpec.name port_spec;
              ContainerPort.containerPort := PortSpec.target_port port_spec |})
        (AppSpec.ports app_spec) in
  env <- _make_env self app_spec ;;
  let pull_policy := pull_policy_of (AppSpec.image app_spec) in
  liveness <- lift (_make_probe (HealthCheckSpec.liveness (AppSpec.health_checks app_spec))) ;;
  readiness <- lift (_make_probe (HealthCheckSpec.readiness (AppSpec.health_checks app_spec))) ;;
  let container :=
    {| Container.name := AppSpec.name app_spec;
       Container.image := Some (AppSpec.image app_spec);
       Container.ports := container_ports;
       Container.env := env;
       Container.envFrom :=
         [ {| EnvFromSource.configMapRef :=
                {| ConfigMapEnvSource.name := AppSpec.name app_spec;
                   ConfigMapEnvSource.optional := true |} |} ];
       Container.lifecycle := None;
       Container.livenessProbe := Some liveness;
       Container.readinessProbe := Some readiness;
       Container.imagePullPolicy := pull_policy;
       Container.volumeMounts := _make_volume_mounts self app_spec false;
       Container.resources :=
         Some (_make_resource_requirements (AppSpec.resources app_spec)) |} in
  let with_init_container :=
    AppSpec.has_secrets app_spec && _uses_secrets_init_container self in
  let automount_service_account_token :=
    if with_init_container then true else AppSpec.admin_access app_spec in
  let init_containers :=
    if with_init_container then [_make_secrets_init_container self app_spec] else [] in
  let service_account_name :=
    if with_init_container && truthy (_secrets_service_account_name self)
    then default "" (_secrets_service_account_name self)
    else "default" in
  let pod_spec :=
    {| PodSpec.containers := [container];
       PodSpec.initContainers := init_containers;
       PodSpec.volumes := _make_volumes self app_spec;
       PodSpec.serviceAccountName := service_account_name;
       PodSpec.automountServiceAccountToken := automount_service_account_token;
       PodSpec.terminationGracePeriodSeconds := None |} in
  prom_annotations <-
    (match AppSpec.prometheus app_spec with
     | Some prometheus_spec =>
         if PrometheusSpec.enabled prometheus_spec
         then _make_prometheus_annotations app_spec prometheus_spec
         else ret ∅
     | None => ret ∅
     end) ;;
  let pod_labels := PyHeap.on_value _add_status_label labels in
  let selector_labels := PyHeap.on_value _add_status_label selector in
  let pod_metadata :=
    {| ObjectMeta.name := AppSpec.name app_spec;
       ObjectMeta.namespace := AppSpec.namespace app_spec;
       ObjectMeta.labels := pod_labels;
       ObjectMeta.annotations := prom_annotations |} in
  let pod_template_spec :=
    {| PodTemplateSpec.metadata := Some pod_metadata;
       PodTemplateSpec.spec := pod_spec |} in
  replicas <-
    (if should_have_autoscaler app_spec then
       try_except
         (deployment <- Deployment_get (AppSpec.name app_spec) (AppSpec.namespace app_spec) ;;
          live_replicas deployment)
         is_not_found
         (ret (AppSpec.replicas app_spec))
     else ret (AppSpec.replicas app_spec)) ;;
  let spec :=
    {| DeploymentSpec.replicas := replicas;
       DeploymentSpec.selector := {| LabelSelector.matchLabels := selector_labels |};
       DeploymentSpec.template := Some pod_template_spec;
       DeploymentSpec.revisionHistoryLimit := 5;
       DeploymentSpec.strategy := None |} in
  deployment <- Deployment_get_or_create metadata spec ;;
  Deployment_save deployment.

End Legacy.
End Legacy.

(** * Spec resolution *)

Module Specs.

(** Modelled from the spec: [fiaas_deploy_daemon.specs.factory] ([SpecFactory],
    [BaseFactory], [BaseTransformer], [InvalidConfiguration]) is not among the
    sources, only its test is.  What follows renders section 4.1 of the
    specification: a raw document is an untyped nested key/value document with
    an optional integer [version]; the registry maps a version number to the
    transformer that takes a document of that version to the next one; the
    terminal factory turns a document of the terminal version into the
    canonical spec. *)
Inductive value :=
| VNone
| VBool (b : bool)
| VInt (n : Z)
| VStr (s : string)
| VList (items : list value)
| VDict (items : list (string * value)).

Abbreviation RawConfigDocument := (list (string * value)).

(** Modelled from the spec: reading a key of the document. *)
Fixpoint get (key : string) (document : RawConfigDocument) : option value :=
  match document with
  | [] => None
  | (k, v) :: rest => if String.eqb k key then Some v else get key rest
  end.

Abbreviation BaseTransformer := (RawConfigDocument → bool → exn + RawConfigDocument).

(** Modelled from the spec: the terminal factory, with the version it is
    the factory of. *)
Record BaseFactory := {
  version : Z;
  create : string → string → string → string → RawConfigDocument → string → string
           → exn + AppSpec.t
}.

(** Modelled from the spec: the resolver, with its terminal factory, its
    registry of transformers and the daemon configuration. *)
Record SpecFactory := {
  _factory : BaseFactory;
  _transformers : gmap Z BaseTransformer;
  _config : Configuration.t
}.

(** Modelled from the spec: the versions with a registered transformer or
    factory, and the lowest of them. *)
Definition supported (self : SpecFactory) (v : Z) : bool :=
  (v =? version (_factory self)) || bool_decide (is_Some (_transformers self !! v)).

Definition lowest_version (self : SpecFactory) : Z :=
  foldr Z.min (version (_factory self)) (map fst (map_to_list (_transformers self))).

(** Modelled from the spec: the declared version, the lowest registered one
    when the document has none; a [version] that is not an integer names no
    version. *)
Definition declared_version (self : SpecFactory) (app_config : RawConfigDocument)
  : option Z :=
  match get "version" app_config with
  | None => Some (lowest_version self)
  | Some (VInt v) => Some v
  | Some _ => None
  end.

(** Modelled from the spec: one turn of "while the current version is less
    than the terminal version, apply that version's transformer and increment
    the version counter".  The registry is a mapping: a version missing from
    it on the way is a failed lookup. *)
Definition transform_step (self : SpecFactory) (strip_defaults : bool)
    (acc : exn + RawConfigDocument) (current_version : Z) : exn + RawConfigDocument :=
  match acc with
  | inl e => inl e
  | inr app_config =>
      match _transformers self !! current_version with
      | Some transformer => transformer app_config strip_defaults
      | None => inl KeyError
      end
  end.

(** Modelled from the spec: the messages of the configuration errors; their
    wording is not given by the specification. *)
Definition unsupported_version : string := "Requested version is not supported".
Definition failed_to_parse : string := "Failed to parse configuration".
Definition datadog_undefined : string :=
  "Requested datadog sidecar, but datadog-container-image is undefined".

(** Modelled from the spec: the chain, from the declared version up to the
    terminal one. *)
Definition transform (self : SpecFactory) (app_config : RawConfigDocument)
    (strip_defaults : bool) : exn + RawConfigDocument :=
  match declared_version self app_config with
  | None => inl (InvalidConfiguration unsupported_version None)
  | Some fiaas_version =>
      if supported self fiaas_version then
        foldl (transform_step self strip_defaults) (inr app_config)
              (seqZ fiaas_version (version (_factory self) - fiaas_version))
      else inl (InvalidConfiguration unsupported_version None)
  end.

(** Modelled from the spec: whole-spec validation; the one rule the test
    shows is that datadog may be enabled only when the daemon has a
    container image for it. *)
Definition _validate (self : SpecFactory) (app_spec : AppSpec.t) : exn + unit :=
  if DatadogSpec.enabled (AppSpec.datadog app_spec)
     && negb (bool_decide (is_Some (Configuration.datadog_container_image (_config self))))
  then inl (InvalidConfiguration datadog_undefined None)
  else inr tt.

(** Modelled from the spec: the uniform boundary.  A configuration error
    passes through unchanged, anything else is wrapped and kept as cause. *)
Definition as_invalid_configuration (e : exn) : exn :=
  match e with
  | InvalidConfiguration _ _ => e
  | _ => InvalidConfiguration failed_to_parse (Some e)
  end.

(** Modelled from the spec: [resolve], the factory object called. *)
Definition resolve (self : SpecFactory) (name image : string)
    (app_config : RawConfigDocument) (teams tags deployment_id namespace : string)
  : exn + AppSpec.t :=
  match transform self app_config false with
  | inl e => inl (as_invalid_configuration e)
  | inr app_config' =>
      match create (_factory self) name image teams tags app_config' deployment_id namespace with
      | inl e => inl (as_invalid_configuration e)
      | inr app_spec =>
          match _validate self app_spec with
          | inl e => inl e
          | inr _ => inr app_spec
          end
      end
  end.

End Specs.

(** * Readings of the objects, used to state the properties *)

(** A key is reserved when it, or its [FIAAS_] form, is among the constants. *)
Definition reserved (constants : Dict) (name : string) : Prop :=
  is_Some (constants !! ("FIAAS_" +:+ name)) ∨ is_Some (constants !! name).

(** What one global override puts into the environment, and into the log. *)
Definition emitted_for (constants : Dict) (item : string * string) : list EnvVar.t :=
  if decide (reserved constants item.1) then []
  else [ Deployer.literal item.1 item.2;
         Deployer.literal ("FIAAS_" +:+ item.1) item.2 ].

Definition warned_for (constants : Dict) (item : string * string)
  : list (level * string) :=
  if decide (reserved constants item.1)
  then [ (WARNING, "Reserved environment-variable: " +:+ item.1
                   +:+ " declared as global. Ignoring and continuing") ]
  else [].

(** The replica count, the rollout strategy and the first (main) container of
    a deployment object, and the annotations of its pod template. *)
Definition replicas_of (d : Deployment.t) : option Z :=
  DeploymentSpec.replicas <$> Deployment.spec d.

Definition strategy_of (d : Deployment.t) : option RollingUpdateDeployment.t :=
  spec ← Deployment.spec d;
  strategy ← DeploymentSpec.strategy spec;
  Some (DeploymentStrategy.rollingUpdate strategy).

Definition main_container (d : Deployment.t) : option Container.t :=
  spec ← Deployment.spec d;
  template ← DeploymentSpec.template spec;
  head (PodSpec.containers (PodTemplateSpec.spec template)).

Definition pod_metadata_of (d : Deployment.t) : option ObjectMeta.t :=
  spec ← Deployment.spec d;
  template ← DeploymentSpec.template spec;
  PodTemplateSpec.metadata template.

Definition pod_annotations (d : Deployment.t) : Dict :=
  match pod_metadata_of d with
  | Some metadata => ObjectMeta.annotations metadata
  | None => ∅
  end.

(** The object with the annotations of its pod template replaced, when it
    has a pod template with metadata, and untouched otherwise. *)
Definition with_pod_annotations (annotations : Dict) (d : Deployment.t) : Deployment.t :=
  match Deployment.spec d with
  | None => d
  | Some spec =>
      match DeploymentSpec.template spec with
      | None => d
      | Some template =>
          match PodTemplateSpec.metadata template with
          | None => d
          | Some metadata =>
              {| Deployment.metadata := Deployment.metadata d;
                 Deployment.spec :=
                   Some {| DeploymentSpec.replicas := DeploymentSpec.replicas spec;
                           DeploymentSpec.selector := DeploymentSpec.selector spec;
                           DeploymentSpec.template :=
                             Some {| PodTemplateSpec.metadata :=
                                       Some {| ObjectMeta.name := ObjectMeta.name metadata;
                                               ObjectMeta.namespace :=
                                                 ObjectMeta.namespace metadata;
                                               ObjectMeta.labels := ObjectMeta.labels metadata;
                                               ObjectMeta.annotations := annotations |};
                                     PodTemplateSpec.spec := PodTemplateSpec.spec template |};
                           DeploymentSpec.revisionHistoryLimit :=
                             DeploymentSpec.revisionHistoryLimit spec;
                           DeploymentSpec.strategy := DeploymentSpec.strategy spec |} |}
          end
      end
  end.

Module DeployerReadings.
Section DeployerReadings.
Context `{PyRuntime}.
Variable should_have_autoscaler : AppSpec.t → bool.

(** The three collaborators, applied in the order of [deploy]. *)
Definition collaborate (self : Deployer.DeploymentDeployer) (app_spec : AppSpec.t)
    (besteffort_qos_is_required : bool) (d : Deployment.t) : Deployment.t :=
  Deployer._secrets self
    (Deployer._prometheus self
       (Deployer._datadog self d app_spec besteffort_qos_is_required) app_spec)
    app_spec.

(** The collaborators leave a reading of the object, where the object has
  it, as it is. *)
Definition keeps {A} (reading : Deployment.t → option A)
    (self : Deployer.DeploymentDeployer) (app_spec : AppSpec.t)
    (besteffort_qos_is_required : bool) : Prop :=
  ∀ d, is_Some (reading d) →
       reading (collaborate self app_spec besteffort_qos_is_required d) = reading d.

(** Both probes of the spec can be built. *)
Definition probes_buildable (app_spec : AppSpec.t) : Prop :=
  (∃ p, Deployer._make_probe
          (HealthCheckSpec.liveness (AppSpec.health_checks app_spec)) = inr p)
  ∧ (∃ p, Deployer._make_probe
            (HealthCheckSpec.readiness (AppSpec.health_checks app_spec)) = inr p).

(** A live object of the application, if the deploy reads it, has a spec. *)
Definition live_readable (app_spec : AppSpec.t) (w : World) : Prop :=
  should_have_autoscaler app_spec = true →
  ∀ live, deployments w !! (AppSpec.name app_spec, AppSpec.namespace app_spec) = Some live →
          is_Some (Deployment.spec live).

(** The replica count [deploy] settles on in a world. *)
Definition resolved_replicas (app_spec : AppSpec.t) (w : World) : Z :=
  if should_have_autoscaler app_spec then
    match deployments w !! (AppSpec.name app_spec, AppSpec.namespace app_spec) with
    | Some live => default (AppSpec.replicas app_spec) (replicas_of live)
    | None => AppSpec.replicas app_spec
    end
  else AppSpec.replicas app_spec.
(** What [deploy] synthesizes for a spec in a world, before the annotations
    are cleared and the collaborators applied: an object that
    [get_or_create] returns for its metadata and spec, with the resolved
    replica count, the rollout strategy, the main container and the pod
    annotations of the spec. *)
Definition synthesized (self : Deployer.DeploymentDeployer) (app_spec : AppSpec.t)
    (w : World) (d0 : Deployment.t) : Prop :=
  (∃ spec, Deployment.spec d0 = Some spec
     ∧ ∀ w', Deployment_get_or_create (Deployment.metadata d0) spec w' = (inr d0, w'))
  ∧ replicas_of d0 = Some (resolved_replicas app_spec w)
  ∧ strategy_of d0
    = Some (if (AppSpec.replicas app_spec =? 1) && AppSpec.singleton app_spec
            then {| RollingUpdateDeployment.maxUnavailable := IsInt 1;
                    RollingUpdateDeployment.maxSurge := IsInt 0 |}
            else {| RollingUpdateDeployment.maxUnavailable := Deployer._max_unavailable self;
                    RollingUpdateDeployment.maxSurge := Deployer._max_surge self |})
  ∧ (∃ container,
       main_container d0 = Some container
       ∧ Container.name container = AppSpec.name app_spec
       ∧ Container.image container = Some (AppSpec.image app_spec)
       ∧ Container.imagePullPolicy container
         = Deployer.pull_policy_of (AppSpec.image app_spec))
  ∧ pod_annotations d0 = LabelAndAnnotationSpec.pod (AppSpec.annotations app_spec).
End DeployerReadings.
End DeployerReadings.

(** The cases of a failed resolution. *)
Module SpecsReadings.
  Import Specs.

(** [reaches self v doc v' doc']: the registered transformers take the
    document [doc] of version [v], one version at a time, to [doc'] of
    version [v']. *)
Inductive reaches (self : SpecFactory)
    : Z → RawConfigDocument → Z → RawConfigDocument → Prop :=
  | reaches_here v doc : reaches self v doc v doc
  | reaches_next v doc transformer doc1 v' doc' :
      v < version (_factory self) →
      _transformers self !! v = Some transformer →
      transformer doc false = inr doc1 →
      reaches self (v + 1) doc1 v' doc' →
      reaches self v doc v' doc'.

(** The declared version has no registered transformer or factory. *)
Definition version_unsupported (self : SpecFactory) (doc : RawConfigDocument) : Prop :=
  match declared_version self doc with
  | Some v => supported self v = false
  | None => True
  end.

(** Somewhere on the way a transformer raises, or the terminal factory
    does; [kind] says which exceptions count. *)
Definition stage_raises (kind : exn → Prop) (self : SpecFactory) (name image : string)
    (doc : RawConfigDocument) (teams tags deployment_id namespace : string) : Prop :=
  ∃ v, declared_version self doc = Some v ∧ supported self v = true ∧
    ((∃ v' doc' transformer e,
        reaches self v doc v' doc' ∧ v' < version (_factory self) ∧
        _transformers self !! v' = Some transformer ∧
        transformer doc' false = inl e ∧ kind e)
     ∨ (∃ v' doc' e,
          reaches self v doc v' doc' ∧ version (_factory self) ≤ v' ∧
          create (_factory self) name image teams tags doc' deployment_id namespace = inl e ∧
          kind e)).

(** The terminal factory returns a spec that fails whole-spec validation. *)
Definition validation_fails (self : SpecFactory) (name image : string)
    (doc : RawConfigDocument) (teams tags deployment_id namespace : string) : Prop :=
  ∃ v v' doc' app_spec e,
    declared_version self doc = Some v ∧ supported self v = true ∧
    reaches self v doc v' doc' ∧ version (_factory self) ≤ v' ∧
    create (_factory self) name image teams tags doc' deployment_id namespace = inr app_spec ∧
    _validate self app_spec = inl e.

Definition is_data_error (e : exn) : Prop :=
  e = AttributeError ∨ e = KeyError ∨ e = IndexError ∨ e = ValueError
  ∨ e = TypeError ∨ e = NameError.

Definition any_exception (e : exn) : Prop := True.

Definition is_invalid_configuration (e : exn) : Prop :=
  ∃ msg cause, e = InvalidConfiguration msg cause.

(** A version the chain comes to, below the terminal one, has no registered
    transformer. *)
Definition transformer_missing (self : SpecFactory) (doc : RawConfigDocument) : Prop :=
  ∃ v v' doc',
    declared_version self doc = Some v ∧ supported self v = true ∧
    reaches self v doc v' doc' ∧ v' < version (_factory self) ∧
    _transformers self !! v' = None.

(** The cases in which a resolution is said to fail, with [kind] for the
    exceptions of a transformer or factory that count. *)
Definition failure_cases (kind : exn → Prop) (self : SpecFactory) (name image : string)
    (doc : RawConfigDocument) (teams tags deployment_id namespace : string) : Prop :=
  version_unsupported self doc
  ∨ stage_raises kind self name image doc teams tags deployment_id namespace
  ∨ validation_fails self name image doc teams tags deployment_id namespace.
End SpecsReadings.

(** * Sample objects

    A runtime, a configuration, a spec and worlds at which the general
    statements are instantiated. *)

Module Sample.

(** Splitting at single blanks: what [shlex.split] does to a command of
    plain words. *)
Fixpoint words (acc s : string) : list string :=
  match s with
  | EmptyString => [String.rev acc]
  | String c s' =>
      if Ascii.eqb c " " then String.rev acc :: words "" s'
      else words (String c acc) s'
  end.

Definition runtime : PyRuntime :=
  {| iteritems := map_to_list;
     iteritems_perm := λ d, reflexivity (map_to_list d);
     shlex_split := λ s, Some (words "" s);
     py_int := λ _, None |}.

(** A runtime that iterates dicts in the opposite order. *)
Definition reversed_runtime : PyRuntime :=
  {| iteritems := λ d, reverse (map_to_list d);
     iteritems_perm := λ d, reverse_Permutation (map_to_list d);
     shlex_split := λ s, Some (words "" s);
     py_int := λ _, None |}.

Definition config : Configuration.t :=
  {| Configuration.infrastructure := "diy";
     Configuration.environment := "test";
     Configuration.log_format := "json";
     Configuration.global_env := <["IMAGE" := "other"]> (<["ZONE" := "eu"]> ∅);
     Configuration.pre_stop_delay := 1;
     Configuration.use_in_memory_emptydirs := false;
     Configuration.deployment_max_surge := IsStr "25%";
     Configuration.deployment_max_unavailable := IsInt 0;
     Configuration.datadog_container_image := None;
     Configuration.secrets_init_container_image := None;
     Configuration.secrets_service_account_name := None |}.

Definition exec_check : CheckSpec.t :=
  {| CheckSpec.http := None;
     CheckSpec.tcp := None;
     CheckSpec.execute := Some {| ExecCheckSpec.command := "/bin/check -v" |};
     CheckSpec.initial_delay_seconds := 10;
     CheckSpec.period_seconds := 10;
     CheckSpec.success_threshold := 1;
     CheckSpec.failure_threshold := 3;
     CheckSpec.timeout_seconds := 1 |}.

Definition tcp_check : CheckSpec.t :=
  {| CheckSpec.http := None;
     CheckSpec.tcp := Some {| TcpCheckSpec.port := IsInt 8080 |};
     CheckSpec.execute := None;
     CheckSpec.initial_delay_seconds := 10;
     CheckSpec.period_seconds := 10;
     CheckSpec.success_threshold := 1;
     CheckSpec.failure_threshold := 3;
     CheckSpec.timeout_seconds := 1 |}.

Definition http_check : CheckSpec.t :=
  {| CheckSpec.http :=
       Some {| HttpCheckSpec.path := "/health";
               HttpCheckSpec.port := IsStr "http";
               HttpCheckSpec.http_headers := <["X-Check" := "yes"]> ∅ |};
     CheckSpec.tcp := None;
     CheckSpec.execute := None;
     CheckSpec.initial_delay_seconds := 10;
     CheckSpec.period_seconds := 10;
     CheckSpec.success_threshold := 1;
     CheckSpec.failure_threshold := 3;
     CheckSpec.timeout_seconds := 1 |}.

Definition no_check : CheckSpec.t :=
  {| CheckSpec.http := None;
     CheckSpec.tcp := None;
     CheckSpec.execute := None;
     CheckSpec.initial_delay_seconds := 10;
     CheckSpec.period_seconds := 10;
     CheckSpec.success_threshold := 1;
     CheckSpec.failure_threshold := 3;
     CheckSpec.timeout_seconds := 1 |}.

Definition no_resources : ResourceRequirementSpec.t :=
  {| ResourceRequirementSpec.cpu := None; ResourceRequirementSpec.memory := None |}.

(** An application of [replicas] replicas, a singleton or not. *)
Definition app (replicas : Z) (singleton : bool) : AppSpec.t :=
  {| AppSpec.name := "app1";
     AppSpec.namespace := "default";
     AppSpec.image := "registry/app1:v1";
     AppSpec.version := "v1";
     AppSpec.replicas := replicas;
     AppSpec.ports := [ {| PortSpec.name := "http"; PortSpec.target_port := 8080 |} ];
     AppSpec.health_checks :=
       {| HealthCheckSpec.liveness := tcp_check; HealthCheckSpec.readiness := exec_check |};
     AppSpec.resources :=
       {| ResourcesSpec.limits := no_resources; ResourcesSpec.requests := no_resources |};
     AppSpec.labels :=
       {| LabelAndAnnotationSpec.deployment := ∅; LabelAndAnnotationSpec.pod := ∅ |};
     AppSpec.annotations :=
       {| LabelAndAnnotationSpec.deployment := ∅;
          LabelAndAnnotationSpec.pod :=
            <["pod.beta.kubernetes.io/init-containers" := "[]"]> (<["team" := "io"]> ∅) |};
     AppSpec.admin_access := false;
     AppSpec.singleton := singleton;
     AppSpec.autoscaler := {| AutoscalerSpec.enabled := true |};
     AppSpec.prometheus :=
       {| PrometheusSpec.enabled := false;
          PrometheusSpec.port := IsStr "http";
          PrometheusSpec.path := "/metrics" |};
     AppSpec.datadog := {| DatadogSpec.enabled := false; DatadogSpec.tags := ∅ |} |}.

(** The sample application with no liveness mechanism. *)
Definition unchecked_app : AppSpec.t :=
  {| AppSpec.name := "app1";
     AppSpec.namespace := "default";
     AppSpec.image := "registry/app1:v1";
     AppSpec.version := "v1";
     AppSpec.replicas := 1;
     AppSpec.ports := [ {| PortSpec.name := "http"; PortSpec.target_port := 8080 |} ];
     AppSpec.health_checks :=
       {| HealthCheckSpec.liveness := no_check; HealthCheckSpec.readiness := exec_check |};
     AppSpec.resources :=
       {| ResourcesSpec.limits := no_resources; ResourcesSpec.requests := no_resources |};
     AppSpec.labels :=
       {| LabelAndAnnotationSpec.deployment := ∅; LabelAndAnnotationSpec.pod := ∅ |};
     AppSpec.annotations :=
       {| LabelAndAnnotationSpec.deployment := ∅; LabelAndAnnotationSpec.pod := ∅ |};
     AppSpec.admin_access := false;
     AppSpec.singleton := false;
     AppSpec.autoscaler := {| AutoscalerSpec.enabled := false |};
     AppSpec.prometheus :=
       {| PrometheusSpec.enabled := false;
          PrometheusSpec.port := IsStr "http";
          PrometheusSpec.path := "/metrics" |};
     AppSpec.datadog := {| DatadogSpec.enabled := false; DatadogSpec.tags := ∅ |} |}.

Definition autoscaled (app_spec : AppSpec.t) : bool :=
  AutoscalerSpec.enabled (AppSpec.autoscaler app_spec).

(** A datadog collaborator that adds a sidecar after the main container,
    and two collaborators that change nothing. *)
Definition sidecar : Container.t :=
  {| Container.name := "fiaas-datadog-container";
     Container.image := Some "datadog:latest";
     Container.ports := [];
     Container.env := [];
     Container.envFrom := [];
     Container.lifecycle := None;
     Container.livenessProbe := None;
     Container.readinessProbe := None;
     Container.imagePullPolicy := "IfNotPresent";
     Container.volumeMounts := [];
     Container.resources := None |}.

Definition add_sidecar (d : Deployment.t) : Deployment.t :=
  match Deployment.spec d with
  | None => d
  | Some spec =>
      match DeploymentSpec.template spec with
      | None => d
      | Some template =>
          let pod := PodTemplateSpec.spec template in
          {| Deployment.metadata := Deployment.metadata d;
             Deployment.spec :=
               Some {| DeploymentSpec.replicas := DeploymentSpec.replicas spec;
                       DeploymentSpec.selector := DeploymentSpec.selector spec;
                       DeploymentSpec.template :=
                         Some {| PodTemplateSpec.metadata := PodTemplateSpec.metadata template;
                                 PodTemplateSpec.spec :=
                                   {| PodSpec.containers := PodSpec.containers pod ++ [sidecar];
                                      PodSpec.initContainers := PodSpec.initContainers pod;
                                      PodSpec.volumes := PodSpec.volumes pod;
                                      PodSpec.serviceAccountName :=
                                        PodSpec.serviceAccountName pod;
                                      PodSpec.automountServiceAccountToken :=
                                        PodSpec.automountServiceAccountToken pod;
                                      PodSpec.terminationGracePeriodSeconds :=
                                        PodSpec.terminationGracePeriodSeconds pod |} |};
                       DeploymentSpec.revisionHistoryLimit :=
                         DeploymentSpec.revisionHistoryLimit spec;
                       DeploymentSpec.strategy := DeploymentSpec.strategy spec |} |}
      end
  end.

Definition deployer : Deployer.DeploymentDeployer :=
  @Deployer.__init__ config (λ d _ _, add_sidecar d) (λ d _, d) (λ d _, d).

Definition labels : Dict := <["app" := "app1"]> ∅.
Definition selector : Dict := <["app" := "app1"]> ∅.

(** A cluster whose API server answers the writes of a run as [responses]
    says, holding the deployments [live]. *)
Definition world (live : gmap (string * string) Deployment.t)
    (responses : nat → option exn) : World :=
  {| deployments := live;
     save_response := responses;
     save_calls := 0;
     committed := [];
     log := [];
     slept := [] |}.

Definition always_accepts : nat → option exn := λ _, None.

(** [configure_mock_fail_then_success] of the test utilities: the first
    [fail_times] calls fail, the later ones succeed. *)
Definition fail_then_success (fail : exn) (fail_times : nat) : nat → option exn :=
  λ n, if (n <? fail_times)%nat then Some fail else None.

(** A live deployment of the sample application running [n] replicas. *)
Definition running (n : Z) : Deployment.t :=
  {| Deployment.metadata :=
       {| ObjectMeta.name := "app1";
          ObjectMeta.namespace := "default";
          ObjectMeta.labels := labels;
          ObjectMeta.annotations := ∅ |};
     Deployment.spec :=
       Some {| DeploymentSpec.replicas := n;
               DeploymentSpec.selector := {| LabelSelector.matchLabels := selector |};
               DeploymentSpec.template := None;
               DeploymentSpec.revisionHistoryLimit := 5;
               DeploymentSpec.strategy := None |} |}.

Definition cluster_running (n : Z) : gmap (string * string) Deployment.t :=
  <[("app1", "default") := running n]> ∅.

(** The registry of the factory test: transformers for versions 1 and 2 that
    return a document of the next version, and a terminal factory of
    version 3 with a fixed result. *)
Definition v1 : Specs.BaseTransformer := λ _ _, inr [("version", Specs.VInt 2)].
Definition v2 : Specs.BaseTransformer := λ _ _, inr [("version", Specs.VInt 3)].

Definition v3 (result : exn + AppSpec.t) : Specs.BaseFactory :=
  {| Specs.version := 3;
     Specs.create := λ _ _ _ _ _ _ _, result |}.

Definition config_with_datadog (image : option string) : Configuration.t :=
  {| Configuration.infrastructure := "diy";
     Configuration.environment := "test";
     Configuration.log_format := "json";
     Configuration.global_env := ∅;
     Configuration.pre_stop_delay := 0;
     Configuration.use_in_memory_emptydirs := false;
     Configuration.deployment_max_surge := IsStr "25%";
     Configuration.deployment_max_unavailable := IsInt 0;
     Configuration.datadog_container_image := image;
     Configuration.secrets_init_container_image := None;
     Configuration.secrets_service_account_name := None |}.

Definition spec_factory (result : exn + AppSpec.t) (datadog_image : option string)
  : Specs.SpecFactory :=
  {| Specs._factory := v3 result;
     Specs._transformers := <[1 := v1]> (<[2 := v2]> ∅);
     Specs._config := config_with_datadog datadog_image |}.

(** A registry with a gap: a transformer for version 1, none for version 2,
    and the terminal factory of version 3. *)
Definition gap_factory (result : exn + AppSpec.t) : Specs.SpecFactory :=
  {| Specs._factory := v3 result;
     Specs._transformers := <[1 := v1]> ∅;
     Specs._config := config_with_datadog None |}.

Definition with_datadog (app_spec : AppSpec.t) : AppSpec.t :=
  {| AppSpec.name := AppSpec.name app_spec;
     AppSpec.namespace := AppSpec.namespace app_spec;
     AppSpec.image := AppSpec.image app_spec;
     AppSpec.version := AppSpec.version app_spec;
     AppSpec.replicas := AppSpec.replicas app_spec;
     AppSpec.ports := AppSpec.ports app_spec;
     AppSpec.health_checks := AppSpec.health_checks app_spec;
     AppSpec.resources := AppSpec.resources app_spec;
     AppSpec.labels := AppSpec.labels app_spec;
     AppSpec.annotations := AppSpec.annotations app_spec;
     AppSpec.admin_access := AppSpec.admin_access app_spec;
     AppSpec.singleton := AppSpec.singleton app_spec;
     AppSpec.autoscaler := AppSpec.autoscaler app_spec;
     AppSpec.prometheus := AppSpec.prometheus app_spec;
     AppSpec.datadog := {| DatadogSpec.enabled := true; DatadogSpec.tags := ∅ |} |}.

Definition resolve_with (factory : Specs.SpecFactory) (app_config : Specs.RawConfigDocument)
  : exn + AppSpec.t :=
  Specs.resolve factory "application-name" "finntech/docker-image:some-version"
                app_config "IO" "Foo" "deployment_id" "namespace".

(** For the single-file builder: a configuration with one global override,
    and the sample application as that builder reads it. *)
Definition zone_config : Configuration.t :=
  {| Configuration.infrastructure := "diy";
     Configuration.environment := "test";
     Configuration.log_format := "json";
     Configuration.global_env := {["ZONE" := "eu"]};
     Configuration.pre_stop_delay := 0;
     Configuration.use_in_memory_emptydirs := false;
     Configuration.deployment_max_surge := IsStr "25%";
     Configuration.deployment_max_unavailable := IsInt 0;
     Configuration.datadog_container_image := None;
     Configuration.secrets_init_container_image := None;
     Configuration.secrets_service_account_name := None |}.

Definition legacy_app (replicas : Z) : Legacy.AppSpec.t :=
  {| Legacy.AppSpec.name := "app1";
     Legacy.AppSpec.namespace := "default";
     Legacy.AppSpec.image := "registry/app1:v1";
     Legacy.AppSpec.version := "v1";
     Legacy.AppSpec.replicas := replicas;
     Legacy.AppSpec.ports := [ {| PortSpec.name := "http"; PortSpec.target_port := 8080 |} ];
     Legacy.AppSpec.health_checks :=
       {| HealthCheckSpec.liveness := tcp_check; HealthCheckSpec.readiness := exec_check |};
     Legacy.AppSpec.resources :=
       {| ResourcesSpec.limits := no_resources; ResourcesSpec.requests := no_resources |};
     Legacy.AppSpec.labels := ∅;
     Legacy.AppSpec.annotations := ∅;
     Legacy.AppSpec.admin_access := false;
     Legacy.AppSpec.has_secrets := false;
     Legacy.AppSpec.autoscaler := {| AutoscalerSpec.enabled := true |};
     Legacy.AppSpec.prometheus :=
       Some {| PrometheusSpec.enabled := true;
               PrometheusSpec.port := IsStr "http";
               PrometheusSpec.path := "/metrics" |} |}.

Definition legacy_autoscaled (app_spec : Legacy.AppSpec.t) : bool :=
  AutoscalerSpec.enabled (Legacy.AppSpec.autoscaler app_spec).

Definition legacy_deployer : Legacy.DeploymentDeployer := Legacy.__init__ zone_config.

End Sample.

(** * Further readings of a deployment object *)

(** The pod of a deployment object, and the name and namespace under which
    the cluster keeps it. *)
Definition pod_spec_of (d : Deployment.t) : option PodSpec.t :=
  spec ← Deployment.spec d;
  template ← DeploymentSpec.template spec;
  Some (PodTemplateSpec.spec template).

Definition key_of (d : Deployment.t) : option (string * string) :=
  Some (ObjectMeta.name (Deployment.metadata d),
        ObjectMeta.namespace (Deployment.metadata d)).

(** What a probe builder [make] does with a check spec: the probe it builds
    carries four timing values of the check spec, [failure_threshold] as its
    failure threshold, and exactly one action, chosen by the first of [http],
    [tcp] and [execute] that is populated; with none populated it raises the
    [RuntimeError] that says no health check was defined. *)
Definition probe_cases {runtime : PyRuntime} (make : CheckSpec.t → exn + Probe.t)
    (failure_threshold : option Z) (check_spec : CheckSpec.t) : Prop :=
  (∀ probe,
     make check_spec = inr probe →
     (Probe.initialDelaySeconds probe = Some (CheckSpec.initial_delay_seconds check_spec)
      ∧ Probe.timeoutSeconds probe = Some (CheckSpec.timeout_seconds check_spec)
      ∧ Probe.successThreshold probe = Some (CheckSpec.success_threshold check_spec)
      ∧ Probe.failureThreshold probe = failure_threshold
      ∧ Probe.periodSeconds probe = Some (CheckSpec.period_seconds check_spec))
     ∧ ((is_Some (Probe.httpGet probe)
         ∧ Probe.tcpSocket probe = None ∧ Probe._exec probe = None)
        ∨ (Probe.httpGet probe = None
           ∧ is_Some (Probe.tcpSocket probe) ∧ Probe._exec probe = None)
        ∨ (Probe.httpGet probe = None
           ∧ Probe.tcpSocket probe = None ∧ is_Some (Probe._exec probe))))
  ∧ (∀ http,
       CheckSpec.http check_spec = Some http →
       ∃ probe,
         make check_spec = inr probe
         ∧ Probe.httpGet probe
           = Some {| HTTPGetAction.path := HttpCheckSpec.path http;
                     HTTPGetAction.port := HttpCheckSpec.port http;
                     HTTPGetAction.httpHeaders :=
                       map (λ '(name, value),
                              {| HTTPHeader.name := name; HTTPHeader.value := value |})
                           (iteritems (HttpCheckSpec.http_headers http)) |})
  ∧ (∀ tcp,
       CheckSpec.http check_spec = None →
       CheckSpec.tcp check_spec = Some tcp →
       ∃ probe,
         make check_spec = inr probe
         ∧ Probe.tcpSocket probe
           = Some {| TCPSocketAction.port := TcpCheckSpec.port tcp |})
  ∧ (∀ execute argv,
       CheckSpec.http check_spec = None →
       CheckSpec.tcp check_spec = None →
       CheckSpec.execute check_spec = Some execute →
       shlex_split (ExecCheckSpec.command execute) = Some argv →
       ∃ probe,
         make check_spec = inr probe
         ∧ Probe._exec probe = Some {| ExecAction.command := argv |})
  ∧ (CheckSpec.http check_spec = None →
     CheckSpec.tcp check_spec = None →
     CheckSpec.execute check_spec = None →
     make check_spec
     = inl (RuntimeError "AppSpec must have exactly one health check, none was defined.")).

(** A probe with its failure threshold taken away. *)
Definition without_failure_threshold (probe : Probe.t) : Probe.t :=
  {| Probe.httpGet := Probe.httpGet probe;
     Probe.tcpSocket := Probe.tcpSocket probe;
     Probe._exec := Probe._exec probe;
     Probe.initialDelaySeconds := Probe.initialDelaySeconds probe;
     Probe.timeoutSeconds := Probe.timeoutSeconds probe;
     Probe.successThreshold := Probe.successThreshold probe;
     Probe.failureThreshold := None;
     Probe.periodSeconds := Probe.periodSeconds probe |}.

(** What one run of the body of [deploy] logs about the replica count: the
    record written when autoscaling is on and a live object was read. *)
Definition replica_records (should_have_autoscaler : AppSpec.t → bool)
    (app_spec : AppSpec.t) (w : World) : list (level * string) :=
  if should_have_autoscaler app_spec then
    match deployments w !! (AppSpec.name app_spec, AppSpec.namespace app_spec) with
    | Some live =>
        match replicas_of live with
        | Some replicas =>
            [ (INFO, "Configured replica size (" +:+ str (AppSpec.replicas app_spec)
                     +:+ ") for deployment is being ignored, as current running replica size"
                     +:+ " is different (" +:+ str replicas +:+ ") for "
                     +:+ AppSpec.name app_spec) ]
        | None => []
        end
    | None => []
    end
  else [].

(** * The deployment labels of deployment.py as shared objects

    [deploy] of the single-file builder takes the dict of deployment labels
    out of the spec and updates it in place:
    [custom_labels = app_spec.labels.get("deployment", {})], then
    [custom_labels.update(labels)].  Here [app_spec.labels] maps its keys to
    dict objects in the heap. *)

Module LegacyHeap.
Import PyHeap.

Definition custom_labels (spec_labels : gmap string ref) (labels : Dict) : H ref :=
  hbind (match spec_labels !! "deployment" with
         | Some custom_labels => hret custom_labels
         | None => new_dict ∅
         end) (λ custom_labels,
  hbind (dict_update custom_labels labels) (λ _,
  hret custom_labels)).

End LegacyHeap.

(** * tests/fiaas_deploy_daemon/utils.py *)

Module TestUtils.

(** ** Documents

    What [yaml.safe_load] and [as_dict()] return: nested dicts with string
    keys, lists and scalars.  The helpers below change such a document in
    place; a document that went through [deepcopy] shares nothing, so the
    change is rendered as the document after it. *)
Inductive json :=
| JNone
| JBool (b : bool)
| JInt (n : Z)
| JStr (s : string)
| JList (items : list json)
| JDict (items : gmap string json).

(** [d[key]] for a string key: a [KeyError] on a dict without the key, a
    [TypeError] on what is no dict. *)
Definition getitem (d : json) (key : string) : exn + json :=
  match d with
  | JDict items =>
      match items !! key with
      | Some value => inr value
      | None => inl KeyError
      end
  | _ => inl TypeError
  end.

(** [d[key] = value]. *)
Definition setitem (d : json) (key : string) (value : json) : exn + json :=
  match d with
  | JDict items => inr (JDict (<[key := value]> items))
  | _ => inl TypeError
  end.

(** [del d[key]]. *)
Definition delitem (d : json) (key : string) : exn + json :=
  match d with
  | JDict items =>
      match items !! key with
      | Some _ => inr (JDict (delete key items))
      | None => inl KeyError
      end
  | _ => inl TypeError
  end.

(** The dict [d] after its item [key] has changed in place into [value]. *)
Definition with_item (d : json) (key : string) (value : json) : json :=
  match d with
  | JDict items => JDict (<[key := value]> items)
  | _ => d
  end.

(** [_ensure_key_missing(d, *keys)].  [keys[0]] is read before the [try];
    the [KeyError] of a missing key is passed over at the level where it is
    raised, any other exception goes on to the caller. *)
Fixpoint _ensure_key_missing (d : json) (keys : list string) : exn + json :=
  match keys with
  | [] => inl IndexError
  | key :: rest =>
      let body :=
        match rest with
        | _ :: _ =>
            match getitem d key with
            | inl e => inl e
            | inr child =>
                match _ensure_key_missing child rest with
                | inl e => inl e
                | inr child' => inr (with_item d key child')
                end
            end
        | [] => delitem d key
        end in
      match body with
      | inl KeyError => inr d
      | result => result
      end
  end.

(** What is found in a document along a path of keys. *)
Fixpoint path_lookup (d : json) (keys : list string) : option json :=
  match keys with
  | [] => Some d
  | key :: rest =>
      match d with
      | JDict items => items !! key ≫= λ child, path_lookup child rest
      | _ => None
      end
  end.

Definition is_dict (d : json) : bool :=
  match d with JDict _ => true | _ => false end.

(** ** Strings *)

(** [s.replace(old, new)] for a non-empty [old]: from the left, each
    occurrence of [old] that does not overlap an earlier one is replaced.
    [skip] counts the characters of an occurrence still to be passed over. *)
Fixpoint replace_from (old new : string) (skip : nat) (s : string) : string :=
  match s with
  | EmptyString => EmptyString
  | String c s' =>
      match skip with
      | S n => replace_from old new n s'
      | O =>
          if String.prefix old s
          then new +:+ replace_from old new (Nat.pred (String.length old)) s'
          else String c (replace_from old new O s')
      end
  end.

Definition replace (old new s : string) : string := replace_from old new 0 s.

(** The character class [-a-z0-9]. *)
Definition is_lower (c : ascii) : bool := (("a" <=? c) && (c <=? "z"))%char.
Definition is_digit (c : ascii) : bool := (("0" <=? c) && (c <=? "9"))%char.
Definition is_name_char (c : ascii) : bool :=
  Ascii.eqb c "-" || is_lower c || is_digit c.

(** [re.sub("[^-a-z0-9]", "-", s)]. *)
Fixpoint re_sub_other (s : string) : string :=
  match s with
  | EmptyString => EmptyString
  | String c s' => String (if is_name_char c then c else "-"%char) (re_sub_other s')
  end.

Definition sanitize_resource_name (yml_path : string) : string :=
  re_sub_other (replace ".yml" "" yml_path).

(** The regex of the docstring, [[a-z]([-a-z0-9]*[a-z0-9])?], matched
    against the whole string. *)
Definition matches_resource_name (s : string) : bool :=
  match s with
  | EmptyString => false
  | String c rest =>
      is_lower c
      && match last (list_ascii_of_string rest) with
         | None => true
         | Some final =>
             forallb is_name_char (list_ascii_of_string rest)
             && (is_lower final || is_digit final)
         end
  end.

(** [s.split(sep)] for a separator of one character. *)
Fixpoint split (sep : ascii) (s : string) : list string :=
  match s with
  | EmptyString => [EmptyString]
  | String c s' =>
      if Ascii.eqb c sep then EmptyString :: split sep s'
      else match split sep s' with
           | part :: parts => String c part :: parts
           | [] => [String c EmptyString]
           end
  end.

(** [s.split(sep)[-1]]. *)
Definition last_part (sep : ascii) (s : string) : string :=
  default EmptyString (last (split sep s)).

(** ** Expected documents *)

(** [_set_labels(expected_dict, image, deployment_id)]: two assignments into
    [expected_dict["metadata"]["labels"]]. *)
Definition _set_labels (expected_dict : json) (image deployment_id : string)
  : exn + json :=
  match getitem expected_dict "metadata" with
  | inl e => inl e
  | inr metadata =>
      match getitem metadata "labels" with
      | inl e => inl e
      | inr labels =>
          match setitem labels "fiaas/version" (JStr (last_part ":" image)) with
          | inl e => inl e
          | inr labels =>
              match setitem labels "fiaas/deployment_id" (JStr deployment_id) with
              | inl e => inl e
              | inr labels =>
                  inr (with_item expected_dict "metadata"
                         (with_item metadata "labels" labels))
              end
          end
      end
  end.

(** ** Waiting

    [wait_until(action, description, exception_class, patience)].  The
    callable [action] has a docstring and a name; its [n]-th call returns
    ([None]) or raises, and then [traceback.format_exception] gives the lines
    of the traceback.  The clock is what [time_monotonic()] returns, reading by
    reading: the first reading is [start], the following ones are those of the
    loop test, with a [time.sleep(2)] before each but the first.  [now] is
    [datetime.now().isoformat(" ")].  A result of [None] is a clock that is
    not read often enough for the loop to end. *)

Record Action := {
  __doc__ : option string;
  __name__ : string;
  call : nat → option (list string)
}.

Inductive waited :=
| Returned
| Raised (exception_class : string) (message : string).

(** Truth value of a string that may be [None]. *)
Definition truthy (s : option string) : bool :=
  match s with
  | Some s => negb (String.eqb s "")
  | None => false
  end.

(** The line feed. *)
Definition newline : string := String (Ascii.ascii_of_nat 10) EmptyString.

(** The [while] loop: whether it returned, the last [cause] and the number
    of calls of [action]. *)
Fixpoint wait_loop (action : Action) (deadline : Z) (readings : list Z)
    (calls : nat) (cause : list string) : option (bool * list string * nat) :=
  match readings with
  | [] => None
  | now :: readings =>
      if now <? deadline then
        match call action calls with
        | None => Some (true, cause, S calls)
        | Some lines => wait_loop action deadline readings (S calls) lines
        end
      else Some (false, cause, calls)
  end.

Definition wait_until (action : Action) (description : option string)
    (exception_class : string) (patience : Z) (readings : list Z) (now : string)
  : option (waited * nat) :=
  match readings with
  | [] => None
  | start :: readings =>
      let description :=
        if truthy description then default "" description
        else if truthy (__doc__ action) then default "" (__doc__ action)
             else __name__ action in
      match wait_loop action (start + patience) readings 0 [] with
      | None => None
      | Some (true, _, calls) => Some (Returned, calls)
      | Some (false, cause, calls) =>
          let message :=
            match cause with
            | [] => []
            | _ :: _ => (newline +:+ "The last exception was:" +:+ newline) :: cause
            end in
          let header :=
            "Gave up waiting for " +:+ description +:+ " after " +:+ str patience
            +:+ " seconds at " +:+ now in
          Some (Raised exception_class (join "" (header :: message)), calls)
      end
  end.

(** ** A mock that fails, then succeeds

    [configure_mock_fail_then_success(mockk, fail, success, fail_times)]: the
    generator is the number of turns its [for] loop has still to make;
    [next] gives the function it yields and the generator it leaves, and the
    side effect of the mock calls that function. *)
Definition _function_generator (fail_times : Z) : nat := Z.to_nat fail_times.

Definition next {A} (fail success : A) (gen : nat) : A * nat :=
  match gen with
  | S remaining => (fail, remaining)
  | O => (success, O)
  end.

(** The functions the first [n] calls of the mock run. *)
Fixpoint side_effects {A} (fail success : A) (gen : nat) (n : nat) : list A :=
  match n with
  | O => []
  | S n => let '(function, gen) := next fail success gen in
           function :: side_effects fail success gen n
  end.

End TestUtils.

(** * Further sample objects *)

Module Cases.

(** A configuration of the single-file builder with an init container for
    the secrets, and an application that has secrets. *)
Definition secrets_config : Configuration.t :=
  {| Configuration.infrastructure := "diy";
     Configuration.environment := "test";
     Configuration.log_format := "json";
     Configuration.global_env := ∅;
     Configuration.pre_stop_delay := 0;
     Configuration.use_in_memory_emptydirs := false;
     Configuration.deployment_max_surge := IsStr "25%";
     Configuration.deployment_max_unavailable := IsInt 0;
     Configuration.datadog_container_image := None;
     Configuration.secrets_init_container_image := Some "fiaas/secrets-init:1";
     Configuration.secrets_service_account_name := Some "secrets" |}.

Definition secrets_deployer : Legacy.DeploymentDeployer := Legacy.__init__ secrets_config.

Definition secrets_app : Legacy.AppSpec.t :=
  {| Legacy.AppSpec.name := "app1";
     Legacy.AppSpec.namespace := "default";
     Legacy.AppSpec.image := "registry/app1:v1";
     Legacy.AppSpec.version := "v1";
     Legacy.AppSpec.replicas := 1;
     Legacy.AppSpec.ports := [ {| PortSpec.name := "http"; PortSpec.target_port := 8080 |} ];
     Legacy.AppSpec.health_checks :=
       {| HealthCheckSpec.liveness := Sample.tcp_check;
          HealthCheckSpec.readiness := Sample.exec_check |};
     Legacy.AppSpec.resources :=
       {| ResourcesSpec.limits := Sample.no_resources;
          ResourcesSpec.requests := Sample.no_resources |};
     Legacy.AppSpec.labels := ∅;
     Legacy.AppSpec.annotations := ∅;
     Legacy.AppSpec.admin_access := false;
     Legacy.AppSpec.has_secrets := true;
     Legacy.AppSpec.autoscaler := {| AutoscalerSpec.enabled := false |};
     Legacy.AppSpec.prometheus := None |}.

(** An action that raises at every call. *)
Definition failing_action : TestUtils.Action :=
  {| TestUtils.__doc__ := None;
     TestUtils.__name__ := "_crd_available";
     TestUtils.call := λ _, Some ["ConnectionError"] |}.

(** What the API server returns for a deployment, as a document. *)
Definition actual_dict : TestUtils.json :=
  TestUtils.JDict
    (<["status" := TestUtils.JDict ∅]>
       (<["metadata" :=
            TestUtils.JDict (<["uid" := TestUtils.JStr "7f1c"]>
                               (<["name" := TestUtils.JStr "app1"]> ∅))]> ∅)).

End Cases.

(** * Tactics *)

(** The cases of an object on the way to the annotations of its pod
    template. *)
Ltac clear_cases d :=
  unfold Deployer._clear_pod_init_container_annotations, with_pod_annotations,
         pod_annotations, pod_metadata_of, replicas_of, strategy_of, main_container;
  destruct d as [? [[? ? [[[[? ? ? ?]|] ?]|] ? ?]|]]; simpl; try done;
  try case_bool_decide; simpl; try done.

(** * Strings *)

Lemma prefix_is_prefix p s : String.prefix p s = true ↔ is_prefix p s.
Proof.
  revert s. induction p as [|c p IH]; intros s.
  - split; [intros _; by exists s|]. by destruct s.
  - destruct s as [|c' s]; simpl.
    + split; [done|]. intros [post Hpost]. discriminate.
    + destruct (Ascii.ascii_dec c c') as [->|Hne].
      * rewrite IH. split.
        -- intros [post ->]. by exists post.
        -- intros [post Hpost]. injection Hpost as ->. by exists post.
      * split; [done|]. intros [post Hpost]. injection Hpost as <- _. done.
Qed.

Lemma contains_is_substring sub s : contains sub s = true ↔ is_substring sub s.
Proof.
  induction s as [|c s IH].
  - change (contains sub "") with (String.prefix sub "" || false).
    rewrite orb_false_r, prefix_is_prefix. split.
    + intros [post ->]. by exists "", post.
    + intros [pre [post Hs]]. destruct pre; simpl in Hs; [by exists post|discriminate].
  - change (contains sub (String c s))
      with (String.prefix sub (String c s) || contains sub s).
    rewrite orb_true_iff, prefix_is_prefix, IH. split.
    + intros [[post ->]|[pre [post ->]]].
      * by exists "", post.
      * by exists (String c pre), post.
    + intros [pre [post Hs]]. destruct pre as [|c' pre]; simpl in Hs.
      * left. by exists post.
      * right. injection Hs as -> ->. by exists pre, post.
Qed.

Lemma endswith_is_suffix s suffix : endswith s suffix = true ↔ is_suffix suffix s.
Proof.
  induction s as [|c s IH].
  - change (endswith "" suffix) with (String.eqb "" suffix || false).
    rewrite orb_false_r, String.eqb_eq. split.
    + intros <-. by exists "".
    + intros [pre Hs]. destruct pre; simpl in Hs; [done|discriminate].
  - change (endswith (String c s) suffix)
      with (String.eqb (String c s) suffix || endswith s suffix).
    rewrite orb_true_iff, String.eqb_eq, IH. split.
    + intros [<-|[pre ->]].
      * by exists "".
      * by exists (String c pre).
    + intros [pre Hs]. destruct pre as [|c' pre]; simpl in Hs.
      * by left.
      * right. injection Hs as -> ->. by exists pre.
Qed.

(** * The order on names *)

Lemma string_leb_refl s : String.leb s s = true.
Proof. by destruct (String.leb_total s s). Qed.

Lemma string_leb_trans a b c :
  String.leb a b = true → String.leb b c = true → String.leb a c = true.
Proof.
  unfold String.leb. revert b c.
  induction a as [|x a IH]; intros [|y b] [|z c]; simpl; try done.
  unfold Ascii.compare.
  destruct (N.compare_spec (N_of_ascii x) (N_of_ascii y)) as [Hxy|Hxy|Hxy];
    destruct (N.compare_spec (N_of_ascii y) (N_of_ascii z)) as [Hyz|Hyz|Hyz];
    try done.
  - rewrite Hxy, Hyz, N.compare_refl. apply IH.
  - intros _ _. rewrite Hxy. by rewrite (proj2 (N.compare_lt_iff _ _) Hyz).
  - intros _ _. rewrite <- Hyz. by rewrite (proj2 (N.compare_lt_iff _ _) Hxy).
  - intros _ _. by rewrite (proj2 (N.compare_lt_iff _ _) (N.lt_trans _ _ _ Hxy Hyz)).
Qed.

Lemma name_le_trans : Transitive name_le.
Proof. intros x y z. apply string_leb_trans. Qed.

#[local] Existing Instance name_le_trans.

Lemma name_le_total x y : name_le x y ∨ name_le y x.
Proof. apply String.leb_total. Qed.

(** * Sorting *)

Lemma insert_by_name_perm x l : insert_by_name x l ≡ₚ x :: l.
Proof.
  induction l as [|y l IH]; simpl; [done|].
  destruct (String.leb _ _); [done|].
  rewrite IH. apply Permutation_swap.
Qed.

Lemma sort_by_name_perm l : sort_by_name l ≡ₚ l.
Proof.
  induction l as [|x l IH]; simpl; [done|].
  by rewrite insert_by_name_perm, IH.
Qed.

Lemma insert_by_name_sorted x l :
  StronglySorted name_le l → StronglySorted name_le (insert_by_name x l).
Proof.
  induction 1 as [|y l Hl IH Hy]; simpl.
  - repeat constructor.
  - destruct (String.leb (EnvVar.name x) (EnvVar.name y)) eqn:Hxy.
    + constructor; [by constructor|].
      constructor; [done|].
      eapply Forall_impl; [exact Hy|]. intros z Hz. by transitivity y.
    + constructor; [done|].
      rewrite insert_by_name_perm. constructor; [|done].
      destruct (name_le_total x y) as [Hle|Hle]; [|done].
      unfold name_le in Hle. congruence.
Qed.

Lemma sort_by_name_sorted l : StronglySorted name_le (sort_by_name l).
Proof.
  induction l as [|x l IH]; simpl; [constructor|].
  by apply insert_by_name_sorted.
Qed.

(** The sort keeps entries of the same name in the order they had. *)
Lemma insert_by_name_stable n x l :
  StronglySorted name_le l →
  filter (λ e, EnvVar.name e = n) (insert_by_name x l)
  = filter (λ e, EnvVar.name e = n) (x :: l).
Proof.
  induction 1 as [|y l Hl IH Hy]; simpl; [done|].
  destruct (String.leb (EnvVar.name x) (EnvVar.name y)) eqn:Hxy; [done|].
  rewrite (filter_cons _ y), IH, !filter_cons.
  destruct (decide (EnvVar.name y = n)) as [Hyn|Hyn];
    destruct (decide (EnvVar.name x = n)) as [Hxn|Hxn]; try done.
  rewrite Hxn, <- Hyn, string_leb_refl in Hxy. done.
Qed.

Lemma sort_by_name_stable n l :
  filter (λ e, EnvVar.name e = n) (sort_by_name l) = filter (λ e, EnvVar.name e = n) l.
Proof.
  induction l as [|x l IH]; simpl; [done|].
  rewrite insert_by_name_stable by apply sort_by_name_sorted.
  by rewrite !filter_cons, IH.
Qed.

(** * Worlds and computations *)

Lemma with_log_same w : with_log w (log w ++ []) = w.
Proof. destruct w. unfold with_log. simpl. by rewrite app_nil_r. Qed.

Lemma with_log_twice w l1 l2 :
  with_log (with_log w (log w ++ l1)) (log (with_log w (log w ++ l1)) ++ l2)
  = with_log w (log w ++ (l1 ++ l2)).
Proof. unfold with_log. simpl. by rewrite app_assoc. Qed.

Lemma bind_inr {A B} (m : M A) (k : A → M B) w a w' :
  m w = (inr a, w') → bind m k w = k a w'.
Proof. unfold bind. by intros ->. Qed.

Lemma bind_inl {A B} (m : M A) (k : A → M B) w e w' :
  m w = (inl e, w') → bind m k w = (inl e, w').
Proof. unfold bind. by intros ->. Qed.

Lemma get_or_create_run metadata spec w :
  Deployment_get_or_create metadata spec w
  = (inr {| Deployment.metadata := metadata; Deployment.spec := Some spec |}, w).
Proof.
  unfold Deployment_get_or_create, try_except, bind, Deployment_get.
  by destruct (deployments w !! _).
Qed.

Lemma dict_contains_is_Some {V} key (d : gmap string V) :
  dict_contains key d = true ↔ is_Some (d !! key).
Proof. unfold dict_contains. apply bool_decide_eq_true. Qed.

Lemma not_reserved_test constants name :
  negb (dict_contains ("FIAAS_" +:+ name) constants) && negb (dict_contains name constants)
  = bool_decide (¬ reserved constants name).
Proof.
  unfold reserved, dict_contains.
  repeat case_bool_decide; simpl; try done; tauto.
Qed.

(** * The environment of the main container *)

Section EnvironmentBuilder.
Context {runtime : PyRuntime}.

Lemma global_env_step_run constants acc item w :
  Deployer.global_env_step constants acc item w
  = (inr (acc ++ emitted_for constants item),
     with_log w (log w ++ warned_for constants item)).
Proof.
  destruct item as [name value].
  unfold Deployer.global_env_step, emitted_for, warned_for. cbn [fst snd].
  rewrite not_reserved_test.
  destruct (decide (reserved constants name)) as [Hres|Hres].
  - rewrite bool_decide_eq_false_2 by tauto.
    unfold bind, LOG_warn, ret. by rewrite app_nil_r.
  - rewrite bool_decide_eq_true_2 by done.
    unfold ret. by rewrite with_log_same.
Qed.

(** The loop over the global overrides appends what each override emits and
    logs what each one warns of, in the order of iteration. *)
Lemma global_env_loop constants items acc w :
  for_each items (Deployer.global_env_step constants) acc w
  = (inr (acc ++ flat_map (emitted_for constants) items),
     with_log w (log w ++ flat_map (warned_for constants) items)).
Proof.
  revert acc w. induction items as [|item items IH]; intros acc w.
  - simpl. unfold ret. by rewrite app_nil_r, with_log_same.
  - cbn [for_each flat_map].
    rewrite (bind_inr _ _ _ _ _ (global_env_step_run _ _ _ _)).
    by rewrite IH, with_log_twice, <- app_assoc.
Qed.

Lemma make_env_run (self : Deployer.DeploymentDeployer) app_spec w :
  Deployer._make_env self app_spec w
  = (inr (sort_by_name
            ((map (λ '(name, value), Deployer.literal name value)
                  (iteritems (Deployer.constants_of self app_spec))
              ++ flat_map (emitted_for (Deployer.constants_of self app_spec))
                          (iteritems (Deployer._global_env self)))
             ++ Deployer.field_references app_spec)),
     with_log w (log w ++ flat_map (warned_for (Deployer.constants_of self app_spec))
                                   (iteritems (Deployer._global_env self)))).
Proof.
  unfold Deployer._make_env.
  rewrite (bind_inr _ _ _ _ _ (global_env_loop _ _ _ _)).
  done.
Qed.

Lemma map_to_list_elem (d : Dict) name value :
  d !! name = Some value → (name, value) ∈ map_to_list d.
Proof. apply elem_of_map_to_list. Qed.

(** The built list holds the constants, what the overrides emit and the
    field references, whatever the order of iteration. *)
Lemma global_overrides_run (self : Deployer.DeploymentDeployer) app_spec w :
  ∃ env,
    (Deployer._make_env self app_spec w).1 = inr env
    ∧ env ≡ₚ map (λ '(name, value), Deployer.literal name value)
                 (map_to_list (Deployer.constants_of self app_spec))
             ++ flat_map (emitted_for (Deployer.constants_of self app_spec))
                         (map_to_list (Deployer._global_env self))
             ++ Deployer.field_references app_spec.
Proof.
  eexists. rewrite make_env_run. split; [reflexivity|].
  rewrite sort_by_name_perm, <- app_assoc.
  by rewrite !(iteritems_perm _).
Qed.

(** C6. Of the global overrides, one whose name and [FIAAS_] form are both
    absent from the reserved constants puts two entries into the environment,
    its name and the prefixed name with the same value; one that collides
    with a reserved key puts none, and a warning is logged for it.  The built
    list holds the constants, what the overrides emit and the six field
    references, nothing else, and building it raises no error. *)
Theorem global_overrides_in_env (self : Deployer.DeploymentDeployer) app_spec w :
  ∃ env logs,
    Deployer._make_env self app_spec w = (inr env, with_log w (log w ++ logs))
    ∧ env ≡ₚ map (λ '(name, value), Deployer.literal name value)
                 (map_to_list (Deployer.constants_of self app_spec))
             ++ flat_map (emitted_for (Deployer.constants_of self app_spec))
                         (map_to_list (Deployer._global_env self))
             ++ Deployer.field_references app_spec
    ∧ logs ≡ₚ flat_map (warned_for (Deployer.constants_of self app_spec))
                       (map_to_list (Deployer._global_env self))
    ∧ (∀ name value,
         Deployer._global_env self !! name = Some value →
         ¬ reserved (Deployer.constants_of self app_spec) name →
         emitted_for (Deployer.constants_of self app_spec) (name, value)
         = [ Deployer.literal name value;
             Deployer.literal ("FIAAS_" +:+ name) value ]
         ∧ Deployer.literal name value ∈ env
         ∧ Deployer.literal ("FIAAS_" +:+ name) value ∈ env
         ∧ warned_for (Deployer.constants_of self app_spec) (name, value) = [])
    ∧ (∀ name value,
         Deployer._global_env self !! name = Some value →
         reserved (Deployer.constants_of self app_spec) name →
         emitted_for (Deployer.constants_of self app_spec) (name, value) = []
         ∧ (WARNING, "Reserved environment-variable: " +:+ name
                     +:+ " declared as global. Ignoring and continuing") ∈ logs).
Proof.
  set (constants := Deployer.constants_of self app_spec).
  assert (Hperm :
    sort_by_name
      ((map (λ '(name, value), Deployer.literal name value) (iteritems constants)
        ++ flat_map (emitted_for constants) (iteritems (Deployer._global_env self)))
       ++ Deployer.field_references app_spec)
    ≡ₚ map (λ '(name, value), Deployer.literal name value) (map_to_list constants)
       ++ flat_map (emitted_for constants) (map_to_list (Deployer._global_env self))
       ++ Deployer.field_references app_spec).
  { rewrite sort_by_name_perm, <- app_assoc.
    by rewrite !(iteritems_perm _). }
  eexists _, _. split; [apply make_env_run|].
  split; [exact Hperm|].
  split; [by rewrite (iteritems_perm _)|].
  fold constants. split.
  - intros name value Hin Hfree.
    assert (Hem : emitted_for constants (name, value)
                  = [ Deployer.literal name value;
                      Deployer.literal ("FIAAS_" +:+ name) value ]).
    { unfold emitted_for. cbn [fst snd]. by rewrite decide_False. }
    assert (Hsub : ∀ e, e ∈ emitted_for constants (name, value) →
                        e ∈ sort_by_name
                              ((map (λ '(name, value), Deployer.literal name value)
                                    (iteritems constants)
                                ++ flat_map (emitted_for constants)
                                            (iteritems (Deployer._global_env self)))
                               ++ Deployer.field_references app_spec)).
    { intros e He. rewrite Hperm. rewrite !elem_of_app. right. left.
      apply list_elem_of_In, in_flat_map. exists (name, value). split.
      - apply list_elem_of_In. by apply map_to_list_elem.
      - by apply list_elem_of_In. }
    split; [done|]. rewrite Hem in Hsub.
    split; [apply Hsub; set_solver|].
    split; [apply Hsub; set_solver|].
    unfold warned_for. cbn [fst snd]. by rewrite decide_False.
  - intros name value Hin Hres. split.
    + unfold emitted_for. cbn [fst snd]. by rewrite decide_True.
    + rewrite (iteritems_perm _).
      apply list_elem_of_In, in_flat_map. exists (name, value). split.
      * apply list_elem_of_In. by apply map_to_list_elem.
      * unfold warned_for. cbn [fst snd]. rewrite decide_True by done. by left.
Qed.

End EnvironmentBuilder.

(** * Probes *)

Section ProbeBuilder.
Context {runtime : PyRuntime}.

(** C7 (as the code has it). The probe that [_make_probe] of deployer.py
    builds carries the five timing values of the check spec; the probe that
    [_make_probe] of deployment.py builds carries the initial delay, the
    timeout, the success threshold and the period, and has no failure
    threshold.  Both have exactly one action: the HTTP GET action when [http]
    is populated, else the TCP socket action when [tcp] is, else the exec
    action whose command is the shell-split command string when [execute]
    is; with none of the three populated both fail with the [RuntimeError]
    that says no health check was defined. *)
Theorem make_probe_cases (check_spec : CheckSpec.t) :
  probe_cases Deployer._make_probe (Some (CheckSpec.failure_threshold check_spec))
              check_spec
  ∧ probe_cases Legacy._make_probe None check_spec.
Proof.
  unfold probe_cases, Deployer._make_probe, Legacy._make_probe.
  split.
  all: split; [|split; [|split; [|split]]].
  all: try (intros http ->; by eexists).
  all: try (intros tcp -> ->; by eexists).
  all: try (intros execute argv -> -> -> ->; by eexists).
  all: try (by intros -> -> ->).
  all: intros probe.
  all: destruct (CheckSpec.http check_spec) as [http|];
         [intros [= <-]; simpl; split; [done|]; left; by eauto|].
  all: destruct (CheckSpec.tcp check_spec) as [tcp|];
         [intros [= <-]; simpl; split; [done|]; right; left; by eauto|].
  all: destruct (CheckSpec.execute check_spec) as [execute|]; [|done].
  all: destruct (shlex_split _) as [argv|]; [|done].
  all: intros [= <-]; simpl; split; [done|]; right; right; by eauto.
Qed.

End ProbeBuilder.

(** That the failure threshold is copied does not hold of deployment.py: the
    probe it builds for a check spec with failure threshold 3 has none.  The
    error for a check spec without a health check is a [RuntimeError] in both
    files. *)
Lemma legacy_make_probe_drops_failure_threshold :
  CheckSpec.failure_threshold Sample.tcp_check = 3
  ∧ (∃ probe,
       @Legacy._make_probe Sample.runtime Sample.tcp_check = inr probe
       ∧ Probe.failureThreshold probe = None
       ∧ Probe.failureThreshold probe ≠ Some (CheckSpec.failure_threshold Sample.tcp_check))
  ∧ @Deployer._make_probe Sample.runtime Sample.no_check
    = inl (RuntimeError "AppSpec must have exactly one health check, none was defined.")
  ∧ @Legacy._make_probe Sample.runtime Sample.no_check
    = inl (RuntimeError "AppSpec must have exactly one health check, none was defined.").
Proof.
  split; [reflexivity|].
  split; [eexists; split; [reflexivity|]; split; [reflexivity|discriminate]|].
  split; reflexivity.
Qed.

(** The four kinds of check spec at the sample runtime. *)
Example make_probe_samples :
  sum_map id Probe.tcpSocket (@Deployer._make_probe Sample.runtime Sample.tcp_check)
  = inr (Some {| TCPSocketAction.port := IsInt 8080 |})
  ∧ sum_map id Probe._exec (@Deployer._make_probe Sample.runtime Sample.exec_check)
    = inr (Some {| ExecAction.command := ["/bin/check"; "-v"] |})
  ∧ sum_map id Probe.httpGet (@Deployer._make_probe Sample.runtime Sample.http_check)
    = inr (Some {| HTTPGetAction.path := "/health";
                   HTTPGetAction.port := IsStr "http";
                   HTTPGetAction.httpHeaders :=
                     [ {| HTTPHeader.name := "X-Check"; HTTPHeader.value := "yes" |} ] |})
  ∧ @Deployer._make_probe Sample.runtime Sample.no_check
    = inl (RuntimeError "AppSpec must have exactly one health check, none was defined.").
Proof. repeat split; vm_compute; reflexivity. Qed.

(** * Clearing the init-container annotations *)

Lemma set_fold_delete_lookup (annotations : Dict) (keys : gset string) key :
  set_fold (λ key acc, delete key acc) annotations keys !! key
  = if decide (key ∈ keys) then None else annotations !! key.
Proof.
  pose (P := λ (acc : Dict) (X : gset string),
              acc !! key = if decide (key ∈ X) then None else annotations !! key).
  change (P (set_fold (λ key acc, delete key acc) annotations keys) keys).
  apply set_fold_ind_L; unfold P.
  - rewrite decide_False; [done|set_solver].
  - intros x X acc Hx IH. rewrite lookup_delete.
    destruct (decide (x = key)) as [->|Hne].
    + rewrite decide_True; [done|set_solver].
    + rewrite IH. destruct (decide (key ∈ X)).
      * rewrite decide_True; [done|set_solver].
      * rewrite decide_False; [done|].
        intros [Hx'%elem_of_singleton|Hx']%elem_of_union; [congruence|done].
Qed.

Lemma cleared_annotations_lookup (annotations : Dict) key :
  set_fold (λ key acc, delete key acc) annotations
    (dom (filter (λ item : string * string,
                    Deployer.init_container_annotation item.1 = true) annotations)) !! key
  = if Deployer.init_container_annotation key then None else annotations !! key.
Proof.
  rewrite set_fold_delete_lookup.
  destruct (Deployer.init_container_annotation key) eqn:Hkey.
  - destruct (annotations !! key) as [v|] eqn:Hv.
    + rewrite decide_True; [done|].
      apply elem_of_dom. exists v. by apply map_lookup_filter_Some.
    + by destruct (decide _).
  - rewrite decide_False; [done|].
    intros [v Hv]%elem_of_dom. apply map_lookup_filter_Some in Hv as [_ Hv].
    simpl in Hv. congruence.
Qed.

Lemma clear_pod_annotations_lookup d key :
  pod_annotations (Deployer._clear_pod_init_container_annotations d) !! key
  = if Deployer.init_container_annotation key then None else pod_annotations d !! key.
Proof.
  clear_cases d; try by destruct (Deployer.init_container_annotation key).
  - subst. by destruct (Deployer.init_container_annotation key).
  - apply cleared_annotations_lookup.
Qed.

Lemma clear_frame d :
  with_pod_annotations ∅ (Deployer._clear_pod_init_container_annotations d)
  = with_pod_annotations ∅ d.
Proof. clear_cases d. Qed.

Lemma clear_keeps_replicas d :
  replicas_of (Deployer._clear_pod_init_container_annotations d) = replicas_of d.
Proof. clear_cases d. Qed.

Lemma clear_keeps_strategy d :
  strategy_of (Deployer._clear_pod_init_container_annotations d) = strategy_of d.
Proof. clear_cases d. Qed.

Lemma clear_keeps_main_container d :
  main_container (Deployer._clear_pod_init_container_annotations d) = main_container d.
Proof. clear_cases d. Qed.

(** * The retry policy *)

Lemma backoff_wait_capped max_value_seconds attempt :
  backoff_wait max_value_seconds attempt ≤ max_value_seconds.
Proof. unfold backoff_wait. lia. Qed.

Lemma retry_loop_unfold {A} max_value_seconds tries_left attempt (func : M A) w :
  retry_loop max_value_seconds tries_left attempt func w
  = match func w with
    | (inl e, w') =>
        if is_conflict e then
          match tries_left with
          | O => (inl e, w')
          | S n =>
              retry_loop max_value_seconds n (S attempt) func
                (with_slept w' (slept w' ++ [backoff_wait max_value_seconds attempt]))
          end
        else (inl e, w')
    | (inr a, w') => (inr a, w')
    end.
Proof. destruct tries_left; reflexivity. Qed.

(** A success and an error that is no conflict end the loop at once. *)
Lemma retry_loop_success {A} max_value_seconds tries_left attempt (func : M A) w a w' :
  func w = (inr a, w') →
  retry_loop max_value_seconds tries_left attempt func w = (inr a, w').
Proof. intros Hfunc. by rewrite retry_loop_unfold, Hfunc. Qed.

Lemma retry_loop_other_error {A} max_value_seconds tries_left attempt (func : M A) w e w' :
  func w = (inl e, w') → is_conflict e = false →
  retry_loop max_value_seconds tries_left attempt func w = (inl e, w').
Proof. intros Hfunc He. by rewrite retry_loop_unfold, Hfunc, He. Qed.

Section RetriedWrite.
(** A function that, in every world over the store [live], logs [logs] and
    writes the object [d]. *)
Variable live : gmap (string * string) Deployment.t.
Variable d : Deployment.t.
Variable logs : list (level * string).
Variable func : M unit.
Hypothesis func_writes :
  ∀ w, deployments w = live →
       func w = Deployment_save d (with_log w (log w ++ logs)).
Variable max_value_seconds : Z.

Lemma write_refused w e :
  deployments w = live → save_response w (save_calls w) = Some e →
  func w = (inl e, count_save (with_log w (log w ++ logs))).
Proof.
  intros Hlive Hresponse. rewrite func_writes by done.
  unfold Deployment_save. simpl. by rewrite Hresponse.
Qed.

Lemma write_accepted w :
  deployments w = live → save_response w (save_calls w) = None →
  func w = (inr tt,
            store (ObjectMeta.name (Deployment.metadata d),
                   ObjectMeta.namespace (Deployment.metadata d)) d
                  (count_save (with_log w (log w ++ logs)))).
Proof.
  intros Hlive Hresponse. rewrite func_writes by done.
  unfold Deployment_save. simpl. by rewrite Hresponse.
Qed.

(** [k] conflicts and then an answer: the loop calls the function [k + 1]
    times, sleeps [k] times, and ends with that answer. *)
Lemma retry_loop_answer k : ∀ tries_left attempt w,
  deployments w = live →
  (k ≤ tries_left)%nat →
  (∀ i, (i < k)%nat → save_response w (save_calls w + i)%nat = Some ConflictError) →
  (∀ e, save_response w (save_calls w + k)%nat = Some e → is_conflict e = false) →
  ∃ w',
    retry_loop max_value_seconds tries_left attempt func w
    = (match save_response w (save_calls w + k)%nat with
       | Some e => inl e
       | None => inr tt
       end, w')
    ∧ committed w'
      = committed w ++ match save_response w (save_calls w + k)%nat with
                       | Some _ => []
                       | None => [d]
                       end
    ∧ save_calls w' = (save_calls w + k + 1)%nat
    ∧ slept w' = slept w ++ map (backoff_wait max_value_seconds) (seq attempt k).
Proof.
  induction k as [|k IH]; intros tries_left attempt w Hlive Hk Hconflicts Hlast.
  - rewrite Nat.add_0_r in *.
    destruct (save_response w (save_calls w)) as [e|] eqn:Hresponse.
    + eexists. split.
      * apply retry_loop_other_error; [by apply write_refused|by apply Hlast].
      * simpl. rewrite !app_nil_r. split; [done|]. split; [lia|done].
    + eexists. split.
      * apply retry_loop_success. by apply write_accepted.
      * simpl. rewrite app_nil_r. split; [done|]. split; [lia|done].
  - destruct tries_left as [|n]; [lia|].
    assert (Hfirst : save_response w (save_calls w) = Some ConflictError).
    { rewrite <- (Nat.add_0_r (save_calls w)). apply Hconflicts. lia. }
    rewrite retry_loop_unfold, (write_refused _ _ Hlive Hfirst). cbn [is_conflict].
    edestruct (IH n (S attempt)
                 (with_slept (count_save (with_log w (log w ++ logs)))
                    (slept (count_save (with_log w (log w ++ logs)))
                     ++ [backoff_wait max_value_seconds attempt])))
      as (w' & Hrun & Hcommitted & Hcalls & Hslept).
    + exact Hlive.
    + lia.
    + intros i Hi. simpl. rewrite <- Nat.add_succ_r. apply Hconflicts. lia.
    + intros e. simpl. rewrite <- Nat.add_succ_r. apply Hlast.
    + exists w'. simpl in Hrun, Hcommitted, Hcalls, Hslept.
      rewrite <- !Nat.add_succ_r in Hrun, Hcommitted.
      split; [exact Hrun|]. split; [exact Hcommitted|]. split; [lia|].
      rewrite Hslept, <- app_assoc. done.
Qed.

(** Conflicts on every attempt: the conflict is what the loop ends with. *)
Lemma retry_loop_exhausted : ∀ tries_left attempt w,
  deployments w = live →
  (∀ i, (i ≤ tries_left)%nat → save_response w (save_calls w + i)%nat = Some ConflictError) →
  ∃ w',
    retry_loop max_value_seconds tries_left attempt func w = (inl ConflictError, w')
    ∧ committed w' = committed w
    ∧ save_calls w' = (save_calls w + tries_left + 1)%nat
    ∧ slept w' = slept w ++ map (backoff_wait max_value_seconds) (seq attempt tries_left).
Proof.
  induction tries_left as [|n IH]; intros attempt w Hlive Hconflicts.
  - assert (Hfirst : save_response w (save_calls w) = Some ConflictError).
    { rewrite <- (Nat.add_0_r (save_calls w)). apply Hconflicts. lia. }
    rewrite retry_loop_unfold, (write_refused _ _ Hlive Hfirst). cbn [is_conflict].
    eexists. split; [done|]. simpl. rewrite app_nil_r. split; [done|]. split; [lia|done].
  - assert (Hfirst : save_response w (save_calls w) = Some ConflictError).
    { rewrite <- (Nat.add_0_r (save_calls w)). apply Hconflicts. lia. }
    rewrite retry_loop_unfold, (write_refused _ _ Hlive Hfirst). cbn [is_conflict].
    edestruct (IH (S attempt)
                 (with_slept (count_save (with_log w (log w ++ logs)))
                    (slept (count_save (with_log w (log w ++ logs)))
                     ++ [backoff_wait max_value_seconds attempt])))
      as (w' & Hrun & Hcommitted & Hcalls & Hslept).
    + exact Hlive.
    + intros i Hi. simpl. rewrite <- Nat.add_succ_r. apply Hconflicts. lia.
    + exists w'. simpl in Hrun, Hcommitted, Hcalls, Hslept.
      split; [exact Hrun|]. split; [exact Hcommitted|]. split; [lia|].
      rewrite Hslept, <- app_assoc. done.
Qed.

(** Whatever the API server answers, the function is called at most
    [tries_left + 1] times and no wait is longer than the cap. *)
Lemma retry_loop_bounded : ∀ tries_left attempt w r w',
  deployments w = live →
  retry_loop max_value_seconds tries_left attempt func w = (r, w') →
  (save_calls w < save_calls w' ≤ save_calls w + tries_left + 1)%nat
  ∧ ∃ waits, slept w' = slept w ++ waits
             ∧ Forall (λ s, s ≤ max_value_seconds) waits.
Proof.
  induction tries_left as [|n IH]; intros attempt w r w' Hlive;
    rewrite retry_loop_unfold;
    (destruct (save_response w (save_calls w)) as [e|] eqn:Hresponse;
     [rewrite (write_refused _ _ Hlive Hresponse)
     |rewrite (write_accepted _ Hlive Hresponse)]).
  - destruct (is_conflict e); intros [= <- <-]; simpl;
      (split; [lia|]; exists []; by rewrite app_nil_r).
  - intros [= <- <-]. simpl. split; [lia|]. exists []. by rewrite app_nil_r.
  - destruct (is_conflict e).
    + intros Hrun. apply IH in Hrun as [Hcalls (waits & Hslept & Hwaits)]; [|exact Hlive].
      simpl in Hcalls, Hslept. split; [lia|].
      exists (backoff_wait max_value_seconds attempt :: waits).
      split; [by rewrite Hslept, <- app_assoc|].
      constructor; [apply backoff_wait_capped|done].
    + intros [= <- <-]. simpl. split; [lia|]. exists []. by rewrite app_nil_r.
  - intros [= <- <-]. simpl. split; [lia|]. exists []. by rewrite app_nil_r.
Qed.

End RetriedWrite.

(** * Synthesis *)

Lemma LOG_info_run msg w :
  LOG_info msg w = (inr tt, with_log w (log w ++ [(INFO, msg)])).
Proof. done. Qed.

Lemma lift_run {A} (r : A) w : lift (inr r) w = (inr r, w).
Proof. done. Qed.

Section Synthesis.
Context {runtime : PyRuntime}.
Variable should_have_autoscaler : AppSpec.t → bool.

#[local] Abbreviation deploy_once := (Deployer.deploy_once should_have_autoscaler).
#[local] Abbreviation deploy := (Deployer.deploy should_have_autoscaler).
#[local] Abbreviation collaborate := DeployerReadings.collaborate.
#[local] Abbreviation keeps := DeployerReadings.keeps.
#[local] Abbreviation probes_buildable := DeployerReadings.probes_buildable.
#[local] Abbreviation live_readable := (DeployerReadings.live_readable should_have_autoscaler).
#[local] Abbreviation synthesized :=
  (DeployerReadings.synthesized should_have_autoscaler).
#[local] Abbreviation resolved_replicas :=
  (DeployerReadings.resolved_replicas should_have_autoscaler).

(** Reading the live replica count logs at most one record and raises
    nothing, and depends on the cluster's store only. *)
Lemma resolve_replicas_run app_spec w :
  live_readable app_spec w →
  ∃ logs, ∀ w', deployments w' = deployments w →
    (if should_have_autoscaler app_spec then
       try_except
         (deployment <- Deployment_get (AppSpec.name app_spec) (AppSpec.namespace app_spec) ;;
          replicas <- Deployer.live_replicas deployment ;;
          LOG_info ("Configured replica size (" +:+ str (AppSpec.replicas app_spec)
                    +:+ ") for deployment is being ignored, as current running replica size"
                    +:+ " is different (" +:+ str replicas +:+ ") for "
                    +:+ AppSpec.name app_spec) ;;
          ret replicas)
         is_not_found
         (ret (AppSpec.replicas app_spec))
     else ret (AppSpec.replicas app_spec)) w'
    = (inr (resolved_replicas app_spec w), with_log w' (log w' ++ logs)).
Proof.
  intros Hlive. unfold DeployerReadings.live_readable in Hlive.
  unfold DeployerReadings.resolved_replicas.
  destruct (should_have_autoscaler app_spec).
  - unfold try_except, bind at 1, Deployment_get.
    destruct (deployments w !! _) as [live|] eqn:Hget.
    + destruct (Hlive eq_refl live eq_refl) as [spec Hspec].
      unfold Deployer.live_replicas, replicas_of. rewrite Hspec. simpl.
      eexists. intros w' ->. rewrite Hget. rewrite Hspec.
      unfold bind, ret, LOG_info. reflexivity.
    + exists []. intros w' ->. rewrite Hget. simpl. unfold ret. by rewrite with_log_same.
  - exists []. intros w' _. unfold ret. by rewrite with_log_same.
Qed.

(** What one run of the body of [deploy] hands to the API server, when the
    probes can be built and the live object can be read: the object got or
    created from the synthesized metadata and spec, cleared of the
    init-container annotations and passed through the collaborators. *)
Lemma deploy_once_submits (self : Deployer.DeploymentDeployer) app_spec selector labels
    besteffort w :
  probes_buildable app_spec →
  live_readable app_spec w →
  ∃ d0 logs,
    (∀ w', deployments w' = deployments w →
       deploy_once self app_spec selector labels besteffort w'
       = Deployment_save
           (collaborate self app_spec besteffort
              (Deployer._clear_pod_init_container_annotations d0))
           (with_log w' (log w' ++ logs)))
    ∧ synthesized self app_spec w d0.
Proof.
  intros [[liveness Hliveness] [readiness Hreadiness]] Hlive.
  destruct (resolve_replicas_run _ _ Hlive) as [logs Hreplicas].
  eexists _, _. split.
  - intros w' Hw'. unfold Deployer.deploy_once.
    rewrite (bind_inr _ _ _ _ _ (LOG_info_run ("Creating new deployment for " +:+ AppSpec.name app_spec) w')). cbv beta zeta.
    erewrite bind_inr by apply make_env_run. cbv beta zeta.
    rewrite Hliveness, Hreadiness.
    erewrite bind_inr by apply lift_run. cbv beta zeta.
    erewrite bind_inr by apply lift_run. cbv beta zeta.
    erewrite bind_inr by (apply Hreplicas; exact Hw'). cbv beta zeta.
    erewrite bind_inr by apply get_or_create_run. cbv beta zeta.
    rewrite !with_log_twice. unfold DeployerReadings.collaborate. reflexivity.
  - unfold DeployerReadings.synthesized.
    split; [eexists; split; [reflexivity|intros; apply get_or_create_run]|].
    split; [reflexivity|].
    split; [unfold strategy_of; simpl; by destruct (_ && _)|].
    split; [eexists; split; [reflexivity|done]|].
    reflexivity.
Qed.

(** The decorated [deploy] when the API server answers [k] writes, fewer
    than five, with a conflict and the next one with something else. *)
Lemma deploy_answer (self : Deployer.DeploymentDeployer) app_spec selector labels
    besteffort w k :
  probes_buildable app_spec →
  live_readable app_spec w →
  (k < 5)%nat →
  (∀ i, (i < k)%nat → save_response w (save_calls w + i)%nat = Some ConflictError) →
  (∀ e, save_response w (save_calls w + k)%nat = Some e → is_conflict e = false) →
  ∃ d0 w',
    synthesized self app_spec w d0
    ∧ deploy self app_spec selector labels besteffort w
      = (match save_response w (save_calls w + k)%nat with
         | Some e => inl e
         | None => inr tt
         end, w')
    ∧ committed w'
      = committed w
        ++ match save_response w (save_calls w + k)%nat with
           | Some _ => []
           | None => [collaborate self app_spec besteffort
                        (Deployer._clear_pod_init_container_annotations d0)]
           end
    ∧ save_calls w' = (save_calls w + k + 1)%nat
    ∧ slept w' = slept w ++ map (backoff_wait 5) (seq 0 k).
Proof.
  intros Hprobes Hlive Hk Hconflicts Hlast.
  destruct (deploy_once_submits self app_spec selector labels besteffort w Hprobes Hlive)
    as (d0 & logs & Hwrites & Hd0).
  destruct (retry_loop_answer (deployments w) _ logs _ Hwrites 5 k 4 0%nat w
              eq_refl ltac:(lia) Hconflicts Hlast)
    as (w' & Hrun & Hcommitted & Hcalls & Hslept).
  exists d0, w'. split; [exact Hd0|]. split; [exact Hrun|]. split; [exact Hcommitted|].
  split; [exact Hcalls|exact Hslept].
Qed.

Lemma deploy_commits (self : Deployer.DeploymentDeployer) app_spec selector labels
    besteffort w k :
  probes_buildable app_spec →
  live_readable app_spec w →
  (k < 5)%nat →
  (∀ i, (i < k)%nat → save_response w (save_calls w + i)%nat = Some ConflictError) →
  save_response w (save_calls w + k)%nat = None →
  ∃ d0 w',
    synthesized self app_spec w d0
    ∧ deploy self app_spec selector labels besteffort w = (inr tt, w')
    ∧ committed w'
      = committed w ++ [collaborate self app_spec besteffort
                          (Deployer._clear_pod_init_container_annotations d0)].
Proof.
  intros Hprobes Hlive Hk Hconflicts Haccepted.
  destruct (deploy_answer self app_spec selector labels besteffort w k)
    as (d0 & w' & Hd0 & Hrun & Hcommitted & _); [done..| |].
  { intros e. by rewrite Haccepted. }
  rewrite Haccepted in Hrun, Hcommitted. exists d0, w'.
  split; [exact Hd0|]. split; [exact Hrun|exact Hcommitted].
Qed.

(** C1. With autoscaling enabled for the spec and a live deployment object
    running [R] replicas, [R] other than the count the spec declares, the
    object [deploy] commits has [R] replicas and not the declared count; when
    reading the live object raises not-found, the committed object has the
    declared count.  The commit is the one write the API server accepts,
    after fewer than five conflicts; the collaborators are taken to leave the
    replica count alone. *)
Theorem deploy_keeps_autoscaled_replicas (self : Deployer.DeploymentDeployer) app_spec
    selector labels besteffort w k :
  should_have_autoscaler app_spec = true →
  probes_buildable app_spec →
  live_readable app_spec w →
  keeps replicas_of self app_spec besteffort →
  (k < 5)%nat →
  (∀ i, (i < k)%nat → save_response w (save_calls w + i)%nat = Some ConflictError) →
  save_response w (save_calls w + k)%nat = None →
  ∃ d w',
    deploy self app_spec selector labels besteffort w = (inr tt, w')
    ∧ committed w' = committed w ++ [d]
    ∧ (∀ live R,
         deployments w !! (AppSpec.name app_spec, AppSpec.namespace app_spec) = Some live →
         replicas_of live = Some R →
         R ≠ AppSpec.replicas app_spec →
         replicas_of d = Some R ∧ replicas_of d ≠ Some (AppSpec.replicas app_spec))
    ∧ (Deployment_get (AppSpec.name app_spec) (AppSpec.namespace app_spec) w
       = (inl NotFound, w) →
       replicas_of d = Some (AppSpec.replicas app_spec)).
Proof.
  intros Hauto Hprobes Hlive Hkeeps Hk Hconflicts Haccepted.
  destruct (deploy_commits self app_spec selector labels besteffort w k)
    as (d0 & w' & Hd0 & Hrun & Hcommitted); [done..|].
  destruct Hd0 as (_ & Hreplicas & _).
  assert (Hd : replicas_of (collaborate self app_spec besteffort
                              (Deployer._clear_pod_init_container_annotations d0))
               = Some (resolved_replicas app_spec w)).
  { rewrite Hkeeps; rewrite clear_keeps_replicas, Hreplicas; by eauto. }
  unfold DeployerReadings.resolved_replicas in Hd. rewrite Hauto in Hd.
  eexists _, w'. split; [exact Hrun|]. split; [exact Hcommitted|]. split.
  - intros live R Hget HR Hne. rewrite Hget, HR in Hd. simpl in Hd.
    split; [done|]. rewrite Hd. congruence.
  - unfold Deployment_get. destruct (deployments w !! _); [done|]. by intros _.
Qed.

(** C3. For a spec with exactly one replica that declares itself a
    singleton, the committed deployment rolls out with max-surge 0 and
    max-unavailable 1; for every other spec it rolls out with the
    max-surge and max-unavailable of the daemon configuration.  The
    collaborators are taken to leave the strategy alone. *)
Theorem deploy_rollout_strategy (config : Configuration.t)
    (datadog : Deployment.t → AppSpec.t → bool → Deployment.t)
    (prometheus secrets : Deployment.t → AppSpec.t → Deployment.t)
    app_spec selector labels besteffort w k :
  probes_buildable app_spec →
  live_readable app_spec w →
  keeps strategy_of (Deployer.__init__ config datadog prometheus secrets)
        app_spec besteffort →
  (k < 5)%nat →
  (∀ i, (i < k)%nat → save_response w (save_calls w + i)%nat = Some ConflictError) →
  save_response w (save_calls w + k)%nat = None →
  ∃ d w',
    deploy (Deployer.__init__ config datadog prometheus secrets)
           app_spec selector labels besteffort w = (inr tt, w')
    ∧ committed w' = committed w ++ [d]
    ∧ (AppSpec.replicas app_spec = 1 → AppSpec.singleton app_spec = true →
       strategy_of d
       = Some {| RollingUpdateDeployment.maxUnavailable := IsInt 1;
                 RollingUpdateDeployment.maxSurge := IsInt 0 |})
    ∧ (AppSpec.replicas app_spec ≠ 1 ∨ AppSpec.singleton app_spec = false →
       strategy_of d
       = Some {| RollingUpdateDeployment.maxUnavailable :=
                   Configuration.deployment_max_unavailable config;
                 RollingUpdateDeployment.maxSurge :=
                   Configuration.deployment_max_surge config |}).
Proof.
  intros Hprobes Hlive Hkeeps Hk Hconflicts Haccepted.
  destruct (deploy_commits (Deployer.__init__ config datadog prometheus secrets)
              app_spec selector labels besteffort w k
              Hprobes Hlive Hk Hconflicts Haccepted)
    as (d0 & w' & Hd0 & Hrun & Hcommitted).
  destruct Hd0 as (_ & _ & Hstrategy & _).
  eexists _, w'. split; [exact Hrun|]. split; [exact Hcommitted|].
  rewrite Hkeeps; rewrite clear_keeps_strategy, Hstrategy; [|by eauto]. split.
  - intros -> ->. done.
  - intros [Hreplicas| ->].
    + apply Z.eqb_neq in Hreplicas. by rewrite Hreplicas.
    + by rewrite andb_false_r.
Qed.

Lemma pull_policy_cases image :
  (Deployer.pull_policy_of image = "IfNotPresent"
   ↔ is_substring ":" image ∧ ¬ is_substring ":latest" image)
  ∧ (Deployer.pull_policy_of image = "Always"
     ↔ ¬ (is_substring ":" image ∧ ¬ is_substring ":latest" image)).
Proof.
  unfold Deployer.pull_policy_of.
  rewrite <- !contains_is_substring.
  destruct (contains ":" image), (contains ":latest" image); simpl;
    intuition (try congruence; try discriminate).
Qed.

(** C10. The main container of the committed deployment pulls its image
    with the policy [IfNotPresent] exactly when the image string contains a
    colon and does not contain [:latest], and with [Always] otherwise.  The
    collaborators are taken to leave the main container alone. *)
Theorem deploy_image_pull_policy (self : Deployer.DeploymentDeployer) app_spec
    selector labels besteffort w k :
  probes_buildable app_spec →
  live_readable app_spec w →
  keeps main_container self app_spec besteffort →
  (k < 5)%nat →
  (∀ i, (i < k)%nat → save_response w (save_calls w + i)%nat = Some ConflictError) →
  save_response w (save_calls w + k)%nat = None →
  ∃ d w' container,
    deploy self app_spec selector labels besteffort w = (inr tt, w')
    ∧ committed w' = committed w ++ [d]
    ∧ main_container d = Some container
    ∧ Container.image container = Some (AppSpec.image app_spec)
    ∧ (Container.imagePullPolicy container = "IfNotPresent"
       ↔ is_substring ":" (AppSpec.image app_spec)
         ∧ ¬ is_substring ":latest" (AppSpec.image app_spec))
    ∧ (Container.imagePullPolicy container = "Always"
       ↔ ¬ (is_substring ":" (AppSpec.image app_spec)
            ∧ ¬ is_substring ":latest" (AppSpec.image app_spec))).
Proof.
  intros Hprobes Hlive Hkeeps Hk Hconflicts Haccepted.
  destruct (deploy_commits self app_spec selector labels besteffort w k
              Hprobes Hlive Hk Hconflicts Haccepted)
    as (d0 & w' & Hd0 & Hrun & Hcommitted).
  destruct Hd0 as (_ & _ & _ & (container & Hmain & _ & Himage & Hpolicy) & _).
  eexists _, w', container. split; [exact Hrun|]. split; [exact Hcommitted|].
  split; [rewrite Hkeeps; rewrite clear_keeps_main_container, Hmain; by eauto|].
  split; [exact Himage|]. rewrite Hpolicy. apply pull_policy_cases.
Qed.

(** C8. Clearing removes from the pod-template annotations of a deployment
    every key that ends with [kubernetes.io/init-containers], keeps every
    other annotation with its value, and changes nothing else of the object;
    and in [deploy] it is applied to the object that [get_or_create]
    returned, before the collaborators and the write. *)
Theorem clear_pod_init_container_annotations_frame (d : Deployment.t) :
  (∀ key,
     pod_annotations (Deployer._clear_pod_init_container_annotations d) !! key
     = if Deployer.init_container_annotation key then None else pod_annotations d !! key)
  ∧ (∀ key, Deployer.init_container_annotation key = true
            ↔ is_suffix "kubernetes.io/init-containers" key)
  ∧ with_pod_annotations ∅ (Deployer._clear_pod_init_container_annotations d)
    = with_pod_annotations ∅ d
  ∧ (∀ (self : Deployer.DeploymentDeployer) app_spec selector labels besteffort w,
       probes_buildable app_spec →
       live_readable app_spec w →
       ∃ d0 spec logs,
         Deployment_get_or_create (Deployment.metadata d0) spec
           (with_log w (log w ++ logs)) = (inr d0, with_log w (log w ++ logs))
         ∧ pod_annotations d0 = LabelAndAnnotationSpec.pod (AppSpec.annotations app_spec)
         ∧ deploy_once self app_spec selector labels besteffort w
           = Deployment_save
               (collaborate self app_spec besteffort
                  (Deployer._clear_pod_init_container_annotations d0))
               (with_log w (log w ++ logs))).
Proof.
  split; [apply clear_pod_annotations_lookup|].
  split; [intros key; apply endswith_is_suffix|].
  split; [apply clear_frame|].
  intros self app_spec selector labels besteffort w Hprobes Hlive.
  destruct (deploy_once_submits self app_spec selector labels besteffort w Hprobes Hlive)
    as (d0 & logs & Hwrites & (spec & _ & Hcreate) & _ & _ & _ & Hannotations).
  exists d0, spec, logs. split; [apply Hcreate|]. split; [exact Hannotations|].
  by apply Hwrites.
Qed.

(** C2. [deploy] is retried on conflict, five attempts at most, with waits
    of at most five seconds: two conflicts and then an accepted write give a
    success with one commit; a conflict on each of the five attempts gives
    the conflict error; an error that is no conflict is returned after the
    one attempt, without a wait. *)
Theorem deploy_retries_on_conflict (self : Deployer.DeploymentDeployer) app_spec
    selector labels besteffort w :
  probes_buildable app_spec →
  live_readable app_spec w →
  (save_response w (save_calls w) = Some ConflictError →
   save_response w (save_calls w + 1)%nat = Some ConflictError →
   save_response w (save_calls w + 2)%nat = None →
   ∃ d w',
     deploy self app_spec selector labels besteffort w = (inr tt, w')
     ∧ committed w' = committed w ++ [d]
     ∧ save_calls w' = (save_calls w + 3)%nat
     ∧ slept w' = slept w ++ [1; 2])
  ∧ ((∀ i, (i < 5)%nat → save_response w (save_calls w + i)%nat = Some ConflictError) →
     ∃ w',
       deploy self app_spec selector labels besteffort w = (inl ConflictError, w')
       ∧ committed w' = committed w
       ∧ save_calls w' = (save_calls w + 5)%nat
       ∧ slept w' = slept w ++ [1; 2; 4; 5])
  ∧ (∀ e,
       save_response w (save_calls w) = Some e → is_conflict e = false →
       ∃ w',
         deploy self app_spec selector labels besteffort w = (inl e, w')
         ∧ committed w' = committed w
         ∧ save_calls w' = (save_calls w + 1)%nat
         ∧ slept w' = slept w)
  ∧ (∀ r w',
       deploy self app_spec selector labels besteffort w = (r, w') →
       (save_calls w' ≤ save_calls w + 5)%nat
       ∧ ∃ waits, slept w' = slept w ++ waits ∧ Forall (λ s, s ≤ 5) waits).
Proof.
  intros Hprobes Hlive.
  destruct (deploy_once_submits self app_spec selector labels besteffort w Hprobes Hlive)
    as (d0 & logs & Hwrites & _).
  split; [|split; [|split]].
  - intros H0 H1 H2.
    destruct (deploy_answer self app_spec selector labels besteffort w 2
                Hprobes Hlive ltac:(lia))
      as (d1 & w' & _ & Hrun & Hcommitted & Hcalls & Hslept).
    + intros [|[|i]] Hi; [by rewrite Nat.add_0_r|done|lia].
    + intros e. by rewrite H2.
    + rewrite H2 in Hrun, Hcommitted. eexists _, w'.
      split; [exact Hrun|]. split; [exact Hcommitted|]. split; [lia|exact Hslept].
  - intros Hconflicts.
    destruct (retry_loop_exhausted (deployments w) _ logs _ Hwrites 5 4 0%nat w eq_refl)
      as (w' & Hrun & Hcommitted & Hcalls & Hslept).
    + intros i Hi. apply Hconflicts. lia.
    + exists w'. split; [exact Hrun|]. split; [exact Hcommitted|].
      split; [lia|exact Hslept].
  - intros e He Hother.
    destruct (deploy_answer self app_spec selector labels besteffort w 0
                Hprobes Hlive ltac:(lia))
      as (d1 & w' & _ & Hrun & Hcommitted & Hcalls & Hslept).
    + intros i Hi. lia.
    + intros e'. rewrite Nat.add_0_r, He. by intros [= <-].
    + rewrite Nat.add_0_r, He in Hrun, Hcommitted. simpl in Hslept.
      rewrite !app_nil_r in *. exists w'.
      split; [exact Hrun|]. split; [exact Hcommitted|]. split; [lia|exact Hslept].
  - intros r w' Hrun.
    destruct (retry_loop_bounded (deployments w) _ logs _ Hwrites 5 4 0%nat w r w'
                eq_refl Hrun) as [Hcalls Hwaits].
    split; [lia|done].
Qed.

(** A probe that cannot be built fails the deploy at once: nothing is
    written and nothing is retried. *)
Lemma deploy_probe_error (self : Deployer.DeploymentDeployer) app_spec selector labels
    besteffort w e :
  Deployer._make_probe (HealthCheckSpec.liveness (AppSpec.health_checks app_spec)) = inl e →
  ∃ w',
    deploy self app_spec selector labels besteffort w = (inl e, w')
    ∧ save_calls w' = save_calls w ∧ committed w' = committed w ∧ slept w' = slept w.
Proof.
  intros Hliveness.
  assert (Hother : is_conflict e = false).
  { unfold Deployer._make_probe in Hliveness.
    repeat match type of Hliveness with
           | match ?x with _ => _ end = _ => destruct x
           end; by inversion Hliveness. }
  eexists. split.
  - apply retry_loop_other_error; [|exact Hother].
    unfold Deployer.deploy_once.
    rewrite (bind_inr _ _ _ _ _ (LOG_info_run ("Creating new deployment for " +:+ AppSpec.name app_spec) w)). cbv beta zeta.
    erewrite bind_inr by apply make_env_run. cbv beta zeta.
    rewrite Hliveness. reflexivity.
  - done.
Qed.

End Synthesis.

(** * The status label *)

Lemma singleton_union_insert (m : Dict) key value :
  {[key := value]} ∪ m = <[key := value]> m.
Proof. by rewrite insert_union_singleton_l. Qed.

(** C9 (as the code has it). The helper of deployment.py copies the label
    dict, adds the status label to the copy and returns its argument, the
    very object, unmodified: the returned dict has the status label exactly
    when the argument had it.  The helper of deployer.py returns the copy,
    a new object holding the labels and [fiaas/status: active], and leaves
    its argument unmodified. *)
Theorem add_status_label_returns (h : PyHeap.heap) (labels : PyHeap.ref) (m : Dict) :
  h !! labels = Some m →
  (let '(returned, h') := Legacy._add_status_label labels h in
   returned = labels
   ∧ h' !! labels = Some m
   ∧ PyHeap.deref returned h' = m
   ∧ PyHeap.deref returned h' !! "fiaas/status" = m !! "fiaas/status"
   ∧ h' !! List.length h = Some (<["fiaas/status" := "active"]> m))
  ∧ (let '(returned, h') := Deployer._add_status_label labels h in
     returned = List.length h
     ∧ returned ≠ labels
     ∧ h' !! returned = Some (<["fiaas/status" := "active"]> m)
     ∧ PyHeap.deref returned h' !! "fiaas/status" = Some "active"
     ∧ h' !! labels = Some m).
Proof.
  intros Hlabels.
  assert (Hlt : (labels < List.length h)%nat) by by eapply lookup_lt_Some.
  assert (Hcopy : <[List.length h := ({["fiaas/status" := "active"]} : Dict)
                                     ∪ PyHeap.deref (List.length h) (h ++ [m])]> (h ++ [m])
                  = h ++ [<["fiaas/status" := "active"]> m]).
  { unfold PyHeap.deref. rewrite lookup_app_r, Nat.sub_diag by lia. simpl.
    rewrite singleton_union_insert.
    rewrite insert_app_r_alt, Nat.sub_diag by lia. done. }
  unfold Legacy._add_status_label, Deployer._add_status_label,
    PyHeap.hbind, PyHeap.hret, PyHeap.dict_copy, PyHeap.dict_update, PyHeap.new_dict.
  replace (PyHeap.deref labels h) with m by (unfold PyHeap.deref; by rewrite Hlabels).
  rewrite Hcopy. split.
  - assert (Hsame : (h ++ [<["fiaas/status" := "active"]> m]) !! labels = Some m).
    { by rewrite lookup_app_l. }
    split; [done|]. split; [done|].
    unfold PyHeap.deref. rewrite Hsame. simpl.
    split; [done|]. split; [done|].
    by rewrite lookup_app_r, Nat.sub_diag by lia.
  - split; [done|]. split; [lia|].
    unfold PyHeap.deref.
    rewrite lookup_app_r, Nat.sub_diag by lia. simpl.
    split; [done|]. split; [by rewrite lookup_insert_eq|].
    by rewrite lookup_app_l.
Qed.

Lemma add_status_label_returns_witness :
  (let '(returned, h') := Legacy._add_status_label 0%nat [Sample.labels] in
   returned = 0%nat
   ∧ h' !! 0%nat = Some Sample.labels
   ∧ PyHeap.deref returned h' = Sample.labels
   ∧ PyHeap.deref returned h' !! "fiaas/status" = Sample.labels !! "fiaas/status"
   ∧ h' !! 1%nat = Some (<["fiaas/status" := "active"]> Sample.labels))
  ∧ (let '(returned, h') := Deployer._add_status_label 0%nat [Sample.labels] in
     returned = 1%nat
     ∧ returned ≠ 0%nat
     ∧ h' !! returned = Some (<["fiaas/status" := "active"]> Sample.labels)
     ∧ PyHeap.deref returned h' !! "fiaas/status" = Some "active"
     ∧ h' !! 0%nat = Some Sample.labels).
Proof. apply (add_status_label_returns [Sample.labels] 0%nat Sample.labels). reflexivity. Defined.

(** That the dict returned by the helper of deployment.py never has the
    status label does not hold for a label dict that has it already. *)
Lemma add_status_label_may_return_status :
  (let '(returned, h') :=
     Legacy._add_status_label 0%nat [ ({["fiaas/status" := "active"]} : Dict) ] in
   PyHeap.deref returned h' !! "fiaas/status" = Some "active")
  ∧ ¬ (∀ (h : PyHeap.heap) (labels : PyHeap.ref) (m : Dict),
         h !! labels = Some m →
         let '(returned, h') := Legacy._add_status_label labels h in
         PyHeap.deref returned h' !! "fiaas/status" = None).
Proof.
  split; [reflexivity|].
  intros Hclaim.
  specialize (Hclaim [ ({["fiaas/status" := "active"]} : Dict) ] 0%nat _ eq_refl).
  discriminate Hclaim.
Qed.


(** * Spec resolution *)

Section Resolution.
Import Specs SpecsReadings.
Variable self : SpecFactory.

#[local] Abbreviation terminal := (version (_factory self)).

Lemma transform_step_error strip_defaults e versions :
  foldl (transform_step self strip_defaults) (inl e) versions = inl e.
Proof. by induction versions. Qed.

Lemma reaches_le v doc v' doc' : reaches self v doc v' doc' → v ≤ v'.
Proof. induction 1; lia. Qed.

Lemma reaches_within v doc v' doc' :
  reaches self v doc v' doc' → v ≤ terminal → v' ≤ terminal.
Proof. induction 1; intros; [done|]. apply IHreaches. lia. Qed.

(** The chain from a version below or at the terminal one: it ends at the
    terminal version, or at the first version whose transformer raises or is
    missing. *)
Lemma transform_chain (n : nat) : ∀ v doc,
  v + Z.of_nat n = terminal →
  match foldl (transform_step self false) (inr doc) (seqZ v (Z.of_nat n)) with
  | inr doc' => reaches self v doc terminal doc'
  | inl e =>
      ∃ v' doc',
        reaches self v doc v' doc' ∧ v' < terminal
        ∧ match _transformers self !! v' with
          | Some transformer => transformer doc' false = inl e
          | None => e = KeyError
          end
  end.
Proof.
  induction n as [|n IH]; intros v doc Hv.
  - simpl. replace terminal with v by lia. constructor.
  - rewrite seqZ_cons by lia.
    replace (Z.pred (Z.of_nat (S n))) with (Z.of_nat n) by lia.
    cbn [foldl]. unfold transform_step at 2.
    destruct (_transformers self !! v) as [transformer|] eqn:Hlookup.
    + destruct (transformer doc false) as [e|doc1] eqn:Hstep.
      * rewrite transform_step_error. exists v, doc.
        split; [constructor|]. split; [lia|]. by rewrite Hlookup.
      * specialize (IH (Z.succ v) doc1 ltac:(lia)).
        destruct (foldl _ _ _) as [e|doc'].
        -- destruct IH as (v' & doc' & Hreach & Hlt & Hfail).
           exists v', doc'. split; [|done].
           eapply reaches_next; [lia|done|done|done].
        -- eapply reaches_next; [lia|done|done|done].
    + rewrite transform_step_error. exists v, doc.
      split; [constructor|]. split; [lia|]. by rewrite Hlookup.
Qed.

(** Conversely the fold follows every chain of successful steps. *)
Lemma reaches_fold v doc v' doc' :
  reaches self v doc v' doc' → v' ≤ terminal →
  foldl (transform_step self false) (inr doc) (seqZ v (terminal - v))
  = foldl (transform_step self false) (inr doc') (seqZ v' (terminal - v')).
Proof.
  induction 1 as [|v doc transformer doc1 v' doc' Hlt Hlookup Hstep Hreach IH];
    intros Hle; [done|].
  rewrite (seqZ_cons v) by lia. cbn [foldl]. unfold transform_step at 2.
  rewrite Hlookup, Hstep.
  replace (Z.pred (terminal - v)) with (terminal - Z.succ v) by lia.
  by apply IH.
Qed.

Lemma as_invalid_configuration_is_invalid e :
  is_invalid_configuration (as_invalid_configuration e).
Proof. destruct e; simpl; by eexists _, _. Qed.

Lemma validate_error app_spec e :
  _validate self app_spec = inl e → is_invalid_configuration e.
Proof.
  unfold _validate. destruct (_ && _); [|done].
  intros [= <-]. by eexists _, _.
Qed.

(** At or above the terminal version the chain makes no step. *)
Lemma reaches_at_terminal v doc v' doc' :
  reaches self v doc v' doc' → terminal ≤ v → v' = v ∧ doc' = doc.
Proof. destruct 1; [done|lia]. Qed.

(** The chain from the declared version: it ends with the document the
    terminal factory is called with, or at the first version below the
    terminal one whose transformer raises or is missing. *)
Lemma transform_run (doc : RawConfigDocument) v :
  declared_version self doc = Some v → supported self v = true →
  transform self doc false
  = foldl (transform_step self false) (inr doc) (seqZ v (terminal - v))
  ∧ match transform self doc false with
    | inr doc' => reaches self v doc (Z.max v terminal) doc'
    | inl e =>
        ∃ v' doc',
          reaches self v doc v' doc' ∧ v' < terminal
          ∧ match _transformers self !! v' with
            | Some transformer => transformer doc' false = inl e
            | None => e = KeyError
            end
    end.
Proof.
  intros Hdeclared Hsupported.
  unfold transform. rewrite Hdeclared, Hsupported. split; [done|].
  destruct (decide (v ≤ terminal)) as [Hle|Hgt].
  - pose proof (transform_chain (Z.to_nat (terminal - v)) v doc ltac:(lia)) as Hrun.
    rewrite Z2Nat.id in Hrun by lia.
    rewrite Z.max_r by lia.
    by destruct (foldl _ _ _) as [e|doc'].
  - unfold seqZ. rewrite Z2Nat.nonpos by lia. simpl.
    rewrite Z.max_l by lia. constructor.
Qed.

(** The chain follows every sequence of successful steps. *)
Lemma reaches_transform (doc : RawConfigDocument) v v' doc' :
  declared_version self doc = Some v → supported self v = true →
  reaches self v doc v' doc' →
  (terminal ≤ v' → transform self doc false = inr doc')
  ∧ (v' < terminal →
     transform self doc false
     = foldl (transform_step self false) (inr doc') (seqZ v' (terminal - v'))).
Proof.
  intros Hdeclared Hsupported Hreach.
  destruct (transform_run doc v Hdeclared Hsupported) as [-> _].
  destruct (decide (v ≤ terminal)) as [Hle|Hgt].
  - pose proof (reaches_within _ _ _ _ Hreach Hle) as Hle'.
    rewrite (reaches_fold _ _ _ _ Hreach Hle').
    split; [|done].
    intros Hge. replace v' with terminal by lia. by rewrite Z.sub_diag.
  - destruct (reaches_at_terminal _ _ _ _ Hreach ltac:(lia)) as [-> ->].
    split; [|lia].
    intros _. unfold seqZ. by rewrite Z2Nat.nonpos by lia.
Qed.

(** C4 (as the model has it). Resolution fails, and then always with
    [InvalidConfiguration], exactly when the declared version has no
    registered transformer or factory, or a version the chain comes to below
    the terminal one has no registered transformer, or a transformer or the
    terminal factory raises, whatever it raises, or whole-spec validation
    fails.  The failed lookup of a missing transformer, like a data error, is
    wrapped and kept as the cause; an error that is an [InvalidConfiguration]
    already passes through as it is.  A resolution that succeeds returns the
    spec the terminal factory produced. *)
Theorem resolve_fails_with_invalid_configuration name image (doc : RawConfigDocument)
    teams tags deployment_id namespace :
  (∀ e, resolve self name image doc teams tags deployment_id namespace = inl e →
        is_invalid_configuration e)
  ∧ ((∃ e, resolve self name image doc teams tags deployment_id namespace = inl e)
     ↔ failure_cases any_exception self name image doc teams tags deployment_id namespace
       ∨ transformer_missing self doc)
  ∧ (transformer_missing self doc →
     resolve self name image doc teams tags deployment_id namespace
     = inl (InvalidConfiguration failed_to_parse (Some KeyError)))
  ∧ (∀ app_spec,
       resolve self name image doc teams tags deployment_id namespace = inr app_spec →
       ∃ v doc',
         declared_version self doc = Some v
         ∧ supported self v = true
         ∧ reaches self v doc (Z.max v terminal) doc'
         ∧ create (_factory self) name image teams tags doc' deployment_id namespace
           = inr app_spec
         ∧ _validate self app_spec = inr tt)
  ∧ (∀ e, is_data_error e →
          as_invalid_configuration e = InvalidConfiguration failed_to_parse (Some e))
  ∧ (∀ msg cause,
       as_invalid_configuration (InvalidConfiguration msg cause)
       = InvalidConfiguration msg cause).
Proof.
  assert (Hmissing : transformer_missing self doc →
    resolve self name image doc teams tags deployment_id namespace
    = inl (InvalidConfiguration failed_to_parse (Some KeyError))).
  { intros (v & v' & doc' & Hdeclared & Hsupported & Hreach & Hlt & Hlookup).
    destruct (reaches_transform doc v v' doc' Hdeclared Hsupported Hreach) as [_ Hrun].
    unfold resolve. rewrite (Hrun Hlt).
    rewrite (seqZ_cons v') by lia. cbn [foldl]. unfold transform_step at 2.
    by rewrite Hlookup, transform_step_error. }
  split; [|split; [|split; [|split; [|split]]]].
  - intros e. unfold resolve.
    destruct (transform self doc false) as [e0|doc'].
    { intros [= <-]. apply as_invalid_configuration_is_invalid. }
    destruct (create _ _ _ _ _ _ _ _) as [e0|app_spec].
    { intros [= <-]. apply as_invalid_configuration_is_invalid. }
    destruct (_validate self app_spec) as [e0|] eqn:Hvalidate; [|done].
    intros [= <-]. by eapply validate_error.
  - split.
    + intros [e Hresolve].
      unfold failure_cases, version_unsupported, stage_raises, validation_fails.
      destruct (declared_version self doc) as [v|] eqn:Hdeclared; [|by left; left].
      destruct (supported self v) eqn:Hsupported; [|by left; left].
      destruct (transform_run doc v Hdeclared Hsupported) as [_ Hrun].
      unfold resolve in Hresolve.
      destruct (transform self doc false) as [e0|doc'].
      { destruct Hrun as (v' & doc' & Hreach & Hlt & Hfail).
        destruct (_transformers self !! v') as [transformer|] eqn:Hlookup.
        - left. right. left. exists v. split; [done|]. split; [done|]. left.
          by exists v', doc', transformer, e0.
        - right. by exists v, v', doc'. }
      left. right.
      destruct (create _ _ _ _ _ _ _ _) as [e0|app_spec] eqn:Hcreate.
      { left. exists v. split; [done|]. split; [done|]. right.
        exists (Z.max v terminal), doc', e0. split; [done|]. split; [lia|]. done. }
      destruct (_validate self app_spec) as [e0|] eqn:Hvalidate; [|done].
      right. exists v, (Z.max v terminal), doc', app_spec, e0.
      split; [done|]. split; [done|]. split; [done|]. split; [lia|]. done.
    + intros [[Hunsupported|[Hraises|Hvalidation]]|Hgap].
      * unfold version_unsupported in Hunsupported. unfold resolve, transform.
        destruct (declared_version self doc) as [v|]; [|by eexists].
        rewrite Hunsupported. by eexists.
      * destruct Hraises as (v & Hdeclared & Hsupported & Hraises).
        destruct Hraises as [(v' & doc' & transformer & e & Hreach & Hlt & Hlookup & Hfail & _)
                            |(v' & doc' & e & Hreach & Hge & Hcreate & _)].
        -- destruct (reaches_transform doc v v' doc' Hdeclared Hsupported Hreach)
             as [_ Hrun].
           unfold resolve. rewrite (Hrun Hlt).
           rewrite (seqZ_cons v') by lia. cbn [foldl]. unfold transform_step at 2.
           rewrite Hlookup, Hfail, transform_step_error. by eexists.
        -- destruct (reaches_transform doc v v' doc' Hdeclared Hsupported Hreach)
             as [Hrun _].
           unfold resolve. rewrite (Hrun Hge), Hcreate. by eexists.
      * destruct Hvalidation
          as (v & v' & doc' & app_spec & e & Hdeclared & Hsupported & Hreach & Hge
              & Hcreate & Hvalidate).
        destruct (reaches_transform doc v v' doc' Hdeclared Hsupported Hreach)
          as [Hrun _].
        unfold resolve. rewrite (Hrun Hge), Hcreate, Hvalidate. by eexists.
      * rewrite (Hmissing Hgap). by eexists.
  - exact Hmissing.
  - intros app_spec. unfold resolve.
    destruct (transform self doc false) as [e0|doc'] eqn:Htransform; [done|].
    destruct (create _ _ _ _ _ _ _ _) as [e0|app_spec'] eqn:Hcreate; [done|].
    destruct (_validate self app_spec') as [e0|[]] eqn:Hvalidate; [done|].
    intros [= <-].
    pose proof Htransform as Hrun. unfold transform in Hrun.
    destruct (declared_version self doc) as [v|] eqn:Hdeclared; [|done].
    destruct (supported self v) eqn:Hsupported; [|done].
    clear Hrun.
    destruct (transform_run doc v Hdeclared Hsupported) as [_ Hrun].
    rewrite Htransform in Hrun.
    by exists v, doc'.
  - intros e [->|[->|[->|[->|[->| ->]]]]]; done.
  - done.
Qed.

End Resolution.

(** The registry with a gap, asked for version 1: the chain comes to
    version 2, which has no transformer. *)
Lemma resolve_fails_with_invalid_configuration_witness :
  Sample.resolve_with (Sample.gap_factory (inr (Sample.app 1 false)))
                      [("version", Specs.VInt 1)]
  = inl (InvalidConfiguration Specs.failed_to_parse (Some KeyError)).
Proof.
  destruct (resolve_fails_with_invalid_configuration
              (Sample.gap_factory (inr (Sample.app 1 false)))
              "application-name" "finntech/docker-image:some-version"
              [("version", Specs.VInt 1)] "IO" "Foo" "deployment_id" "namespace")
    as (_ & _ & Hmissing & _).
  apply Hmissing.
  exists 1, 2, [("version", Specs.VInt 2)].
  split; [reflexivity|]. split; [reflexivity|].
  split; [|split; [reflexivity|reflexivity]].
  eapply SpecsReadings.reaches_next; [reflexivity|reflexivity|reflexivity|].
  apply SpecsReadings.reaches_here.
Defined.

(** The cases of the factory test. *)
Example resolve_as_in_the_tests :
  let app := Sample.app 1 false in
  let ok := Sample.spec_factory (inr app) None in
  Sample.resolve_with ok [] = inr app
  ∧ Sample.resolve_with ok [("version", Specs.VInt 1)] = inr app
  ∧ Sample.resolve_with ok [("version", Specs.VInt 2)] = inr app
  ∧ Sample.resolve_with ok [("version", Specs.VInt 3)] = inr app
  ∧ Sample.resolve_with ok [("version", Specs.VInt 999)]
    = inl (InvalidConfiguration Specs.unsupported_version None)
  ∧ Sample.resolve_with (Sample.spec_factory (inr (Sample.with_datadog app)) None)
                        [("version", Specs.VInt 3)]
    = inl (InvalidConfiguration Specs.datadog_undefined None)
  ∧ Sample.resolve_with (Sample.spec_factory (inr (Sample.with_datadog app)) (Some "datadog"))
                        [("version", Specs.VInt 3)]
    = inr (Sample.with_datadog app)
  ∧ Forall (λ e, Sample.resolve_with (Sample.spec_factory (inl e) None)
                                     [("version", Specs.VInt 3)]
                 = inl (InvalidConfiguration Specs.failed_to_parse (Some e)))
           [AttributeError; KeyError; IndexError; ValueError; TypeError; NameError].
Proof. repeat split; repeat constructor. Qed.

(** That these are exactly the cases, with only the six data errors
    counted, does not hold: a terminal factory that raises a configuration
    error of its own, or an exception that is none of the six, makes the
    resolution fail with [InvalidConfiguration] all the same. *)
Lemma resolve_fails_outside_the_listed_cases :
  (Sample.resolve_with
     (Sample.spec_factory (inl (InvalidConfiguration "unknown key" None)) None)
     [("version", Specs.VInt 3)]
   = inl (InvalidConfiguration "unknown key" None)
   ∧ ¬ SpecsReadings.failure_cases SpecsReadings.is_data_error
         (Sample.spec_factory (inl (InvalidConfiguration "unknown key" None)) None)
         "application-name" "finntech/docker-image:some-version"
         [("version", Specs.VInt 3)] "IO" "Foo" "deployment_id" "namespace")
  ∧ (Sample.resolve_with
       (Sample.spec_factory (inl (RuntimeError "no such port")) None)
       [("version", Specs.VInt 3)]
     = inl (InvalidConfiguration Specs.failed_to_parse (Some (RuntimeError "no such port")))
     ∧ ¬ SpecsReadings.failure_cases SpecsReadings.is_data_error
           (Sample.spec_factory (inl (RuntimeError "no such port")) None)
           "application-name" "finntech/docker-image:some-version"
           [("version", Specs.VInt 3)] "IO" "Foo" "deployment_id" "namespace").
Proof.
  split; (split; [reflexivity|]).
  all: intros [Hunsupported|[Hraises|Hvalidation]].
  all: try discriminate Hunsupported.
  all: try (destruct Hvalidation as (? & ? & ? & ? & ? & _ & _ & _ & _ & Hcreate & _);
            discriminate Hcreate).
  all: destruct Hraises as (v & [= <-] & _ & [Htransformer|Hfactory]).
  all: try (destruct Htransformer as (v' & ? & ? & ? & Hreach%reaches_le & Hlt & _);
            simpl in Hlt; lia).
  all: destruct Hfactory as (? & ? & e & _ & _ & [= <-] & Hkind).
  all: by repeat destruct Hkind as [Hkind|Hkind].
Qed.

(** * The sample deployment *)

Lemma sample_probes_buildable replicas singleton :
  @DeployerReadings.probes_buildable Sample.runtime (Sample.app replicas singleton).
Proof. split; eexists; reflexivity. Qed.

Lemma sample_live_readable replicas singleton n responses :
  DeployerReadings.live_readable Sample.autoscaled (Sample.app replicas singleton)
    (Sample.world (Sample.cluster_running n) responses).
Proof.
  intros _ live Hlive. simpl in Hlive. unfold Sample.cluster_running in Hlive.
  rewrite lookup_insert_eq in Hlive. injection Hlive as <-. by eexists.
Qed.

Lemma sample_live_readable_empty replicas singleton responses :
  DeployerReadings.live_readable Sample.autoscaled (Sample.app replicas singleton)
    (Sample.world ∅ responses).
Proof. intros _ live Hlive. simpl in Hlive. by rewrite lookup_empty in Hlive. Qed.

Lemma add_sidecar_keeps_replicas d : replicas_of (Sample.add_sidecar d) = replicas_of d.
Proof. unfold replicas_of, Sample.add_sidecar. by destruct d as [? [[? ? [?|] ? ?]|]]. Qed.

Lemma add_sidecar_keeps_strategy d : strategy_of (Sample.add_sidecar d) = strategy_of d.
Proof. unfold strategy_of, Sample.add_sidecar. by destruct d as [? [[? ? [?|] ? ?]|]]. Qed.

Lemma add_sidecar_keeps_main_container d :
  is_Some (main_container d) → main_container (Sample.add_sidecar d) = main_container d.
Proof.
  unfold main_container, Sample.add_sidecar.
  destruct d as [? [[? ? [[? [[|c cs] ? ? ? ? ?]]|] ? ?]|]]; simpl; try done.
  all: by intros [? ?].
Qed.

Lemma sample_keeps_replicas app_spec besteffort :
  DeployerReadings.keeps replicas_of Sample.deployer app_spec besteffort.
Proof. intros d _. apply add_sidecar_keeps_replicas. Qed.

Lemma sample_keeps_strategy app_spec besteffort :
  DeployerReadings.keeps strategy_of Sample.deployer app_spec besteffort.
Proof. intros d _. apply add_sidecar_keeps_strategy. Qed.

Lemma sample_keeps_main_container app_spec besteffort :
  DeployerReadings.keeps main_container Sample.deployer app_spec besteffort.
Proof. intros d Hmain. by apply add_sidecar_keeps_main_container. Qed.


(** The sample application deployed to a cluster that runs three replicas of
    it, while its spec declares one. *)
Lemma deploy_keeps_autoscaled_replicas_witness :
  ∃ d w',
    @Deployer.deploy Sample.runtime Sample.autoscaled Sample.deployer (Sample.app 1 false)
      Sample.selector Sample.labels false
      (Sample.world (Sample.cluster_running 3) Sample.always_accepts) = (inr tt, w')
    ∧ committed w' = [d]
    ∧ replicas_of d = Some 3.
Proof.
  destruct (@deploy_keeps_autoscaled_replicas Sample.runtime Sample.autoscaled
              Sample.deployer (Sample.app 1 false) Sample.selector Sample.labels false
              (Sample.world (Sample.cluster_running 3) Sample.always_accepts) 0%nat)
    as (d & w' & Hrun & Hcommitted & Hlive & _).
  - reflexivity.
  - apply sample_probes_buildable.
  - apply sample_live_readable.
  - apply sample_keeps_replicas.
  - lia.
  - intros i Hi. lia.
  - reflexivity.
  - exists d, w'. split; [exact Hrun|]. split; [exact Hcommitted|].
    apply (Hlive (Sample.running 3) 3); [reflexivity|reflexivity|discriminate].
Defined.

(** Two conflicts, then an accepted write. *)
Lemma deploy_retries_on_conflict_witness :
  ∃ d w',
    @Deployer.deploy Sample.runtime Sample.autoscaled Sample.deployer (Sample.app 1 false)
      Sample.selector Sample.labels false
      (Sample.world ∅ (Sample.fail_then_success ConflictError 2)) = (inr tt, w')
    ∧ committed w' = [d]
    ∧ save_calls w' = 3%nat
    ∧ slept w' = [1; 2].
Proof.
  destruct (@deploy_retries_on_conflict Sample.runtime Sample.autoscaled
              Sample.deployer (Sample.app 1 false) Sample.selector Sample.labels false
              (Sample.world ∅ (Sample.fail_then_success ConflictError 2)))
    as (Htwice & _).
  - apply sample_probes_buildable.
  - apply sample_live_readable_empty.
  - apply Htwice; reflexivity.
Defined.

(** A singleton of one replica. *)
Lemma deploy_rollout_strategy_witness :
  ∃ d w',
    @Deployer.deploy Sample.runtime Sample.autoscaled Sample.deployer (Sample.app 1 true)
      Sample.selector Sample.labels false
      (Sample.world ∅ Sample.always_accepts) = (inr tt, w')
    ∧ committed w' = [d]
    ∧ strategy_of d
      = Some {| RollingUpdateDeployment.maxUnavailable := IsInt 1;
                RollingUpdateDeployment.maxSurge := IsInt 0 |}.
Proof.
  destruct (@deploy_rollout_strategy Sample.runtime Sample.autoscaled Sample.config
              (λ d _ _, Sample.add_sidecar d) (λ d _, d) (λ d _, d)
              (Sample.app 1 true) Sample.selector Sample.labels false
              (Sample.world ∅ Sample.always_accepts) 0%nat)
    as (d & w' & Hrun & Hcommitted & Hsingleton & _).
  - apply sample_probes_buildable.
  - apply sample_live_readable_empty.
  - apply (sample_keeps_strategy (Sample.app 1 true) false).
  - lia.
  - intros i Hi. lia.
  - reflexivity.
  - exists d, w'. split; [exact Hrun|]. split; [exact Hcommitted|].
    apply Hsingleton; reflexivity.
Defined.

(** An image with a tag that is not [latest]. *)
Lemma deploy_image_pull_policy_witness :
  ∃ d w' container,
    @Deployer.deploy Sample.runtime Sample.autoscaled Sample.deployer (Sample.app 1 false)
      Sample.selector Sample.labels false
      (Sample.world ∅ Sample.always_accepts) = (inr tt, w')
    ∧ committed w' = [d]
    ∧ main_container d = Some container
    ∧ Container.imagePullPolicy container = "IfNotPresent".
Proof.
  destruct (@deploy_image_pull_policy Sample.runtime Sample.autoscaled Sample.deployer
              (Sample.app 1 false) Sample.selector Sample.labels false
              (Sample.world ∅ Sample.always_accepts) 0%nat)
    as (d & w' & container & Hrun & Hcommitted & Hmain & _ & Hpolicy & _).
  - apply sample_probes_buildable.
  - apply sample_live_readable_empty.
  - apply sample_keeps_main_container.
  - lia.
  - intros i Hi. lia.
  - reflexivity.
  - exists d, w', container. split; [exact Hrun|]. split; [exact Hcommitted|].
    split; [exact Hmain|]. apply Hpolicy.
    rewrite <- !contains_is_substring. split; [reflexivity|discriminate].
Defined.

(** The whole run on the sample: what is committed after two conflicts. *)
Example deploy_sample_run :
  let '(result, w') :=
    @Deployer.deploy Sample.runtime Sample.autoscaled Sample.deployer (Sample.app 1 true)
      Sample.selector Sample.labels false
      (Sample.world (Sample.cluster_running 3) (Sample.fail_then_success ConflictError 2)) in
  result = inr tt
  ∧ save_calls w' = 3%nat
  ∧ slept w' = [1; 2]
  ∧ map replicas_of (committed w') = [Some 3]
  ∧ map strategy_of (committed w')
    = [Some {| RollingUpdateDeployment.maxUnavailable := IsInt 1;
               RollingUpdateDeployment.maxSurge := IsInt 0 |}]
  ∧ map (λ d, map_to_list (pod_annotations d)) (committed w') = [[("team", "io")]]
  ∧ map (λ d, (λ c, (Container.imagePullPolicy c,
                     map (λ e, (EnvVar.name e, EnvVar.value e)) (Container.env c)))
                <$> main_container d) (committed w')
    = [Some ("IfNotPresent",
             [ ("ARTIFACT_NAME", Some "app1");
               ("CONSTRETTO_TAGS", Some "kubernetes-test,kubernetes,test");
               ("FIAAS_ENVIRONMENT", Some "test");
               ("FIAAS_INFRASTRUCTURE", Some "diy");
               ("FIAAS_LIMITS_CPU", None);
               ("FIAAS_LIMITS_MEMORY", None);
               ("FIAAS_NAMESPACE", None);
               ("FIAAS_POD_NAME", None);
               ("FIAAS_REQUESTS_CPU", None);
               ("FIAAS_REQUESTS_MEMORY", None);
               ("FIAAS_ZONE", Some "eu");
               ("FINN_ENV", Some "test");
               ("IMAGE", Some "registry/app1:v1");
               ("LOG_FORMAT", Some "json");
               ("LOG_STDOUT", Some "true");
               ("VERSION", Some "v1");
               ("ZONE", Some "eu") ])]
  ∧ filter (λ record, record.1 = WARNING) (log w')
    = replicate 3 (WARNING, "Reserved environment-variable: IMAGE declared as global. "
                            +:+ "Ignoring and continuing").
Proof. vm_compute. repeat split. Qed.

(** * The single-file builder *)

Section LegacyBuilder.
Context {runtime : PyRuntime}.
Variable should_have_autoscaler : Legacy.AppSpec.t → bool.

Lemma legacy_make_env_run (self : Legacy.DeploymentDeployer) app_spec w :
  Legacy._make_env self app_spec w
  = (inr (map (λ '(name, value), Deployer.literal name value)
              (iteritems (Legacy.constants_of self app_spec))
          ++ flat_map (emitted_for (Legacy.constants_of self app_spec))
                      (iteritems (Legacy._global_env self))),
     with_log w (log w ++ flat_map (warned_for (Legacy.constants_of self app_spec))
                                   (iteritems (Legacy._global_env self)))).
Proof.
  unfold Legacy._make_env.
  change Legacy.global_env_step with Deployer.global_env_step.
  rewrite (bind_inr _ _ _ _ _ (global_env_loop _ _ _ _)).
  done.
Qed.

(** In the single-file builder the global overrides are treated as in
    deployer.py, and the list is left in the order of iteration: the two
    entries of an override follow each other, the bare name first. *)
Lemma legacy_make_env_in_dict_order (self : Legacy.DeploymentDeployer) app_spec w :
  ∃ env logs,
    Legacy._make_env self app_spec w = (inr env, with_log w (log w ++ logs))
    ∧ env = map (λ '(name, value), Deployer.literal name value)
                (iteritems (Legacy.constants_of self app_spec))
            ++ flat_map (emitted_for (Legacy.constants_of self app_spec))
                        (iteritems (Legacy._global_env self))
    ∧ logs = flat_map (warned_for (Legacy.constants_of self app_spec))
                      (iteritems (Legacy._global_env self)).
Proof. eexists _, _. split; [apply legacy_make_env_run|done]. Qed.

Lemma legacy_prometheus_run (app_spec : Legacy.AppSpec.t) :
  ∃ annotations logs, ∀ w,
    (match Legacy.AppSpec.prometheus app_spec with
     | Some prometheus_spec =>
         if PrometheusSpec.enabled prometheus_spec
         then Legacy._make_prometheus_annotations app_spec prometheus_spec
         else ret ∅
     | None => ret ∅
     end) w = (inr annotations, with_log w (log w ++ logs)).
Proof.
  destruct (Legacy.AppSpec.prometheus app_spec) as [prometheus_spec|].
  2:{ exists ∅, []. intros w. unfold ret. by rewrite with_log_same. }
  destruct (PrometheusSpec.enabled prometheus_spec) eqn:Henabled.
  2:{ exists ∅, []. intros w. unfold ret. by rewrite with_log_same. }
  unfold Legacy._make_prometheus_annotations.
  destruct (PrometheusSpec.port prometheus_spec) as [port|port_name].
  { eexists _, []. intros w. unfold ret. by rewrite with_log_same. }
  destruct (py_int port_name) as [port|].
  { eexists _, []. intros w. unfold ret. by rewrite with_log_same. }
  destruct (foldl _ _ _ !! port_name) as [port|].
  { eexists _, []. intros w. unfold ret. by rewrite with_log_same. }
  eexists _, _. intros w. unfold bind, LOG_error, ret. reflexivity.
Qed.


End LegacyBuilder.

(** * The environment of both builders *)

(** Two lists sorted by name with the same entries have the same names at
    the same places. *)
Lemma sorted_names_unique (l1 l2 : list EnvVar.t) :
  StronglySorted name_le l1 → StronglySorted name_le l2 → l1 ≡ₚ l2 →
  map EnvVar.name l1 = map EnvVar.name l2.
Proof.
  intros Hsorted1 Hsorted2 Hperm.
  apply (StronglySorted_unique_strong (λ a b, String.leb a b = true)).
  - intros name1 name2 _ _. apply String.leb_antisym.
  - by apply (StronglySorted_fmap EnvVar.name name_le).
  - by apply (StronglySorted_fmap EnvVar.name name_le).
  - by apply fmap_Permutation.
Qed.

(** C5 (as the code has it). The list that [_make_env] of deployer.py builds
    is sorted in ascending order of the names and holds the constants, what
    the global overrides emit and the six field references, nothing else;
    building it again, in the world the first run left or in any other, gives
    the same list, and under another order of iteration of the dicts it gives
    the same entries with the same names at the same places.  The [_make_env]
    of deployment.py does not sort: its list is the constants and then what
    the overrides emit, in the order in which the dicts are iterated; building
    it again gives the same list. *)
Theorem make_env_sorted_and_repeatable (runtime runtime' : PyRuntime)
    (self : Deployer.DeploymentDeployer) (app_spec : AppSpec.t)
    (legacy : Legacy.DeploymentDeployer) (legacy_spec : Legacy.AppSpec.t) (w : World) :
  (∃ env w1 w2,
     @Deployer._make_env runtime self app_spec w = (inr env, w1)
     ∧ @Deployer._make_env runtime self app_spec w1 = (inr env, w2)
     ∧ StronglySorted name_le env
     ∧ env ≡ₚ map (λ '(name, value), Deployer.literal name value)
                  (map_to_list (Deployer.constants_of self app_spec))
              ++ flat_map (emitted_for (Deployer.constants_of self app_spec))
                          (map_to_list (Deployer._global_env self))
              ++ Deployer.field_references app_spec
     ∧ (∀ w', (@Deployer._make_env runtime self app_spec w').1 = inr env)
     ∧ ∃ env',
         (@Deployer._make_env runtime' self app_spec w).1 = inr env'
         ∧ env' ≡ₚ env
         ∧ map EnvVar.name env' = map EnvVar.name env)
  ∧ (∃ env w1 w2,
       @Legacy._make_env runtime legacy legacy_spec w = (inr env, w1)
       ∧ @Legacy._make_env runtime legacy legacy_spec w1 = (inr env, w2)
       ∧ env = map (λ '(name, value), Legacy.literal name value)
                   (@iteritems runtime (Legacy.constants_of legacy legacy_spec))
               ++ flat_map (emitted_for (Legacy.constants_of legacy legacy_spec))
                           (@iteritems runtime (Legacy._global_env legacy))).
Proof.
  split.
  - destruct (@global_overrides_run runtime self app_spec w) as (env & Hrun & Hperm).
    destruct (@global_overrides_run runtime' self app_spec w) as (env' & Hrun' & Hperm').
    pose proof Hrun as Hsorted. rewrite make_env_run in Hsorted.
    injection Hsorted as Hsorted.
    pose proof Hrun' as Hsorted'. rewrite make_env_run in Hsorted'.
    injection Hsorted' as Hsorted'.
    assert (Henv : StronglySorted name_le env).
    { rewrite <- Hsorted. apply sort_by_name_sorted. }
    assert (Henv' : StronglySorted name_le env').
    { rewrite <- Hsorted'. apply sort_by_name_sorted. }
    exists env. eexists _, _.
    split; [rewrite make_env_run, Hsorted; reflexivity|].
    split; [rewrite make_env_run, Hsorted; reflexivity|].
    split; [exact Henv|].
    split; [exact Hperm|].
    split; [intros w'; by rewrite make_env_run, Hsorted|].
    exists env'. split; [exact Hrun'|].
    assert (Hboth : env' ≡ₚ env) by (by rewrite Hperm, Hperm').
    split; [exact Hboth|]. by apply sorted_names_unique.
  - eexists _, _, _.
    split; [apply legacy_make_env_run|].
    split; [apply legacy_make_env_run|].
    reflexivity.
Qed.

(** That the list is sorted does not hold of deployment.py: with the one
    global override [ZONE] its list ends with [ZONE] and [FIAAS_ZONE], in
    that order. *)
Lemma legacy_make_env_is_not_sorted :
  ∃ env,
    (@Legacy._make_env Sample.runtime Sample.legacy_deployer (Sample.legacy_app 1)
       (Sample.world ∅ Sample.always_accepts)).1 = inr env
    ∧ map EnvVar.name env
      = [ "CONSTRETTO_TAGS"; "IMAGE"; "ARTIFACT_NAME"; "VERSION"; "FIAAS_ENVIRONMENT";
          "FIAAS_INFRASTRUCTURE"; "FINN_ENV"; "LOG_STDOUT"; "LOG_FORMAT";
          "ZONE"; "FIAAS_ZONE" ]
    ∧ ¬ StronglySorted name_le env.
Proof.
  eexists. split; [vm_compute; reflexivity|].
  split; [reflexivity|].
  intros Hsorted.
  repeat (apply StronglySorted_inv in Hsorted as [Hsorted Hfirst];
          try (apply Forall_inv in Hfirst; discriminate Hfirst);
          clear Hfirst).
Qed.


(** A spec without a liveness mechanism: the deploy raises the error of the
    probe, and nothing is written. *)
Lemma deploy_probe_error_witness :
  ∃ w',
    @Deployer.deploy Sample.runtime Sample.autoscaled Sample.deployer Sample.unchecked_app
      Sample.selector Sample.labels false (Sample.world ∅ Sample.always_accepts)
    = (inl (RuntimeError "AppSpec must have exactly one health check, none was defined."),
       w')
    ∧ save_calls w' = 0%nat ∧ committed w' = [] ∧ slept w' = [].
Proof.
  apply (@deploy_probe_error Sample.runtime Sample.autoscaled Sample.deployer
           Sample.unchecked_app Sample.selector Sample.labels false
           (Sample.world ∅ Sample.always_accepts)).
  reflexivity.
Defined.

(** * Independence of the order of iteration *)

Lemma same_name_same_entry (l : list EnvVar.t) x y :
  NoDup (map EnvVar.name l) → x ∈ l → y ∈ l → EnvVar.name x = EnvVar.name y → x = y.
Proof.
  induction l as [|z l IH]; simpl; [by intros _ ?%elem_of_nil|].
  intros [Hz Hl]%NoDup_cons [->|Hx]%elem_of_cons [->|Hy]%elem_of_cons Hname; try done.
  - destruct Hz. rewrite Hname. by apply list_elem_of_fmap_2.
  - destruct Hz. rewrite <- Hname. by apply list_elem_of_fmap_2.
  - by apply IH.
Qed.

(** When no two entries of the environment have the same name, the built
    list is the same for every order in which the dicts are iterated: the
    sort makes the output a function of the dicts' contents. *)
Lemma make_env_independent_of_iteration_order (runtime1 runtime2 : PyRuntime)
    (self : Deployer.DeploymentDeployer) app_spec w1 w2 :
  NoDup (map EnvVar.name
           (map (λ '(name, value), Deployer.literal name value)
                (map_to_list (Deployer.constants_of self app_spec))
            ++ flat_map (emitted_for (Deployer.constants_of self app_spec))
                        (map_to_list (Deployer._global_env self))
            ++ Deployer.field_references app_spec)) →
  (@Deployer._make_env runtime1 self app_spec w1).1
  = (@Deployer._make_env runtime2 self app_spec w2).1.
Proof.
  intros Hnames.
  destruct (@global_overrides_run runtime1 self app_spec w1) as (env1 & Hrun1 & Hperm1).
  destruct (@global_overrides_run runtime2 self app_spec w2) as (env2 & Hrun2 & Hperm2).
  rewrite Hrun1, Hrun2. f_equal.
  apply (StronglySorted_unique_strong name_le).
  - intros x1 x2 Hx1 Hx2 H12 H21.
    rewrite Hperm1 in Hx1. rewrite Hperm2 in Hx2.
    eapply same_name_same_entry; [exact Hnames|done|done|].
    by apply String.leb_antisym.
  - rewrite make_env_run in Hrun1. injection Hrun1 as <-. apply sort_by_name_sorted.
  - rewrite make_env_run in Hrun2. injection Hrun2 as <-. apply sort_by_name_sorted.
  - by rewrite Hperm1, Hperm2.
Qed.

Lemma make_env_independent_of_iteration_order_witness :
  (@Deployer._make_env Sample.runtime Sample.deployer (Sample.app 1 false)
     (Sample.world ∅ Sample.always_accepts)).1
  = (@Deployer._make_env Sample.reversed_runtime Sample.deployer (Sample.app 1 false)
       (Sample.world ∅ Sample.always_accepts)).1.
Proof.
  apply (make_env_independent_of_iteration_order Sample.runtime Sample.reversed_runtime).
  apply (bool_decide_unpack _). vm_compute. exact I.
Defined.

(** * Deleting *)

(** [delete] returns whether or not the deployment exists, and afterwards it
    does not. *)
Lemma delete_run (self : Deployer.DeploymentDeployer) app_spec w :
  ∃ w',
    Deployer.delete self app_spec w = (inr tt, w')
    ∧ deployments w'
      = delete (AppSpec.name app_spec, AppSpec.namespace app_spec) (deployments w)
    ∧ committed w' = committed w.
Proof.
  unfold Deployer.delete, bind, LOG_info, try_except, Deployment_delete, ret. simpl.
  destruct (deployments w !! _) as [live|] eqn:Hlive; simpl.
  - by eexists.
  - eexists. repeat split. simpl. by rewrite delete_id.
Qed.

(** Deleting twice is deleting once. *)
Lemma delete_idempotent (self : Deployer.DeploymentDeployer) app_spec w :
  ∃ w1 w2,
    Deployer.delete self app_spec w = (inr tt, w1)
    ∧ Deployer.delete self app_spec w1 = (inr tt, w2)
    ∧ deployments w2 = deployments w1
    ∧ deployments w1 !! (AppSpec.name app_spec, AppSpec.namespace app_spec) = None
    ∧ committed w2 = committed w.
Proof.
  destruct (delete_run self app_spec w) as (w1 & Hrun1 & Hstore1 & Hcommitted1).
  destruct (delete_run self app_spec w1) as (w2 & Hrun2 & Hstore2 & Hcommitted2).
  exists w1, w2. split; [done|]. split; [done|].
  split; [by rewrite Hstore2, Hstore1, delete_delete_eq|].
  split; [by rewrite Hstore1, lookup_delete_eq|congruence].
Qed.

(** * The names of the environment *)

Lemma flat_map_bind {A B} (f : A → list B) (l : list A) : flat_map f l = l ≫= f.
Proof. induction l as [|x l IH]; [done|]. simpl. by rewrite IH. Qed.

Lemma string_length_app (s t : string) :
  String.length (s +:+ t) = (String.length s + String.length t)%nat.
Proof. induction s as [|c s IH]; [done|]. simpl. by rewrite IH. Qed.

Lemma prefixed_ne name : "FIAAS_" +:+ name ≠ name.
Proof.
  intros Heq. apply (f_equal String.length) in Heq.
  rewrite string_length_app in Heq. simpl in Heq. lia.
Qed.

Lemma prefixed_inj name1 name2 : "FIAAS_" +:+ name1 = "FIAAS_" +:+ name2 → name1 = name2.
Proof. intros Heq. cbv [String.append] in Heq. by injection Heq. Qed.

Section EnvironmentNames.
Context {runtime : PyRuntime}.
Variable self : Deployer.DeploymentDeployer.
Variable app_spec : AppSpec.t.

#[local] Abbreviation constants := (Deployer.constants_of self app_spec).
#[local] Abbreviation overrides := (Deployer._global_env self).
#[local] Abbreviation field_names := (map EnvVar.name (Deployer.field_references app_spec)).

(** The names one global override puts into the environment. *)
Lemma emitted_names (item : string * string) :
  map EnvVar.name (emitted_for constants item)
  = if decide (reserved constants item.1) then [] else [item.1; "FIAAS_" +:+ item.1].
Proof. unfold emitted_for. by destruct (decide _). Qed.

Lemma elem_of_emitted_names name (item : string * string) :
  name ∈ map EnvVar.name (emitted_for constants item)
  ↔ ¬ reserved constants item.1 ∧ (name = item.1 ∨ name = "FIAAS_" +:+ item.1).
Proof.
  rewrite emitted_names. destruct (decide _) as [Hres|Hfree].
  - split; [by intros ?%elem_of_nil|tauto].
  - rewrite !elem_of_cons, elem_of_nil. tauto.
Qed.

(** The names of the built list, up to order: the keys of the constants,
    the names the overrides emit and the names of the field references. *)
Lemma make_env_names w :
  ∃ env,
    (Deployer._make_env self app_spec w).1 = inr env
    ∧ map EnvVar.name env
      ≡ₚ (map_to_list constants).*1
         ++ (map_to_list overrides
               ≫= (λ item, map EnvVar.name (emitted_for constants item)))
         ++ field_names.
Proof.
  destruct (global_overrides_run self app_spec w) as (env & Hrun & Hperm).
  exists env. split; [exact Hrun|]. rewrite Hperm, !map_app. f_equiv.
  - generalize (map_to_list constants). intros l.
    induction l as [|[name value] l IH]; [done|]. cbn. by f_equiv.
  - f_equiv. rewrite flat_map_bind.
    generalize (map_to_list overrides). intros l.
    induction l as [|item l IH]; [done|]. cbn. rewrite map_app. by f_equiv.
Qed.

Lemma not_in_emitted name :
  is_Some (constants !! name) →
  name ∉ map_to_list overrides ≫= (λ item, map EnvVar.name (emitted_for constants item)).
Proof.
  intros Hname [item [Hin _]]%list_elem_of_bind.
  apply elem_of_emitted_names in Hin as [Hfree [-> | ->]]; apply Hfree.
  - by right.
  - by left.
Qed.

(** A constant whose name is not that of a field reference is in the
    environment once, with its value: no global override takes its place. *)
Lemma make_env_constant_once w name value :
  constants !! name = Some value →
  name ∉ field_names →
  ∃ env,
    (Deployer._make_env self app_spec w).1 = inr env
    ∧ filter (λ e, EnvVar.name e = name) env = [Deployer.literal name value].
Proof.
  intros Hname Hfield.
  destruct (global_overrides_run self app_spec w) as (env & Hrun & Hperm).
  exists env. split; [exact Hrun|].
  apply Permutation_singleton_r. rewrite Hperm, !filter_app.
  assert (Hnone : ∀ l : list EnvVar.t,
            name ∉ map EnvVar.name l → filter (λ e, EnvVar.name e = name) l = []).
  { intros l Hl. induction l as [|e l IH]; [done|].
    rewrite filter_cons. destruct (decide _) as [Heq|_].
    - destruct Hl. rewrite <- Heq. by left.
    - apply IH. intros Hin. apply Hl. by right. }
  rewrite (Hnone (Deployer.field_references app_spec)) by done.
  rewrite (Hnone (flat_map _ _)).
  2:{ rewrite flat_map_bind. intros Hin.
      apply (not_in_emitted name); [by eauto|].
      revert Hin. generalize (map_to_list overrides). intros l.
      induction l as [|item l IH]; [done|]. cbn. rewrite map_app, !elem_of_app.
      intros [?|?]; [by left|right; by apply IH]. }
  rewrite !app_nil_r.
  rewrite <- (map_to_list_delete constants name value Hname). cbn.
  rewrite decide_True by done.
  rewrite Hnone; [done|].
  rewrite map_map. intros [[name' value'] [Heq Hin]]%list_elem_of_fmap.
  apply elem_of_map_to_list in Hin. simpl in Heq. subst name'.
  by rewrite lookup_delete_eq in Hin.
Qed.

(** The three identity values of the application are in the environment
    once each, with the values of the spec: whatever the daemon-wide
    constants and the global overrides are, no other entry is named
    [ARTIFACT_NAME], [IMAGE] or [VERSION]. *)
Theorem make_env_identity_values w :
  ∃ env,
    (Deployer._make_env self app_spec w).1 = inr env
    ∧ filter (λ e, EnvVar.name e = "ARTIFACT_NAME") env
      = [Deployer.literal "ARTIFACT_NAME" (AppSpec.name app_spec)]
    ∧ filter (λ e, EnvVar.name e = "IMAGE") env
      = [Deployer.literal "IMAGE" (AppSpec.image app_spec)]
    ∧ filter (λ e, EnvVar.name e = "VERSION") env
      = [Deployer.literal "VERSION" (AppSpec.version app_spec)].
Proof.
  destruct (make_env_constant_once w "ARTIFACT_NAME" (AppSpec.name app_spec))
    as (env & Hrun & Hname).
  { unfold Deployer.constants_of. by simplify_map_eq. }
  { cbn. by rewrite !elem_of_cons, elem_of_nil; intros [?|[?|[?|[?|[?|[?|?]]]]]]. }
  destruct (make_env_constant_once w "IMAGE" (AppSpec.image app_spec))
    as (env1 & Hrun1 & Himage).
  { unfold Deployer.constants_of. by simplify_map_eq. }
  { cbn. by rewrite !elem_of_cons, elem_of_nil; intros [?|[?|[?|[?|[?|[?|?]]]]]]. }
  destruct (make_env_constant_once w "VERSION" (AppSpec.version app_spec))
    as (env2 & Hrun2 & Hversion).
  { unfold Deployer.constants_of. by simplify_map_eq. }
  { cbn. by rewrite !elem_of_cons, elem_of_nil; intros [?|[?|[?|[?|[?|[?|?]]]]]]. }
  rewrite Hrun in Hrun1, Hrun2. injection Hrun1 as <-. injection Hrun2 as <-.
  by exists env.
Qed.

(** Every global override is accounted for: it puts two entries into the
    environment or one warning into the log.  With the constants and the six
    field references, that is all the list holds. *)
Theorem make_env_accounts_for_overrides w :
  ∃ env logs,
    Deployer._make_env self app_spec w = (inr env, with_log w (log w ++ logs))
    ∧ Forall (λ record, record.1 = WARNING) logs
    ∧ (List.length env + 2 * List.length logs
       = size constants + 2 * size overrides + 6)%nat.
Proof.
  eexists _, _. split; [apply make_env_run|].
  assert (Hitems : List.length (iteritems overrides) = size overrides).
  { by rewrite (iteritems_perm _), length_map_to_list. }
  revert Hitems. generalize (iteritems overrides) as items. intros items Hitems.
  split.
  - clear Hitems. induction items as [|item items IH]; [done|]. cbn [flat_map].
    apply Forall_app. split; [|exact IH].
    unfold warned_for. destruct (decide _); by repeat constructor.
  - assert (Hsort : ∀ l, List.length (sort_by_name l) = List.length l).
    { intros l. by rewrite sort_by_name_perm. }
    rewrite Hsort, !length_app, length_map, (iteritems_perm _), length_map_to_list.
    rewrite <- Hitems. cbn [Deployer.field_references List.length].
    assert (Hpairs : (List.length (flat_map (emitted_for constants) items)
                      + 2 * List.length (flat_map (warned_for constants) items)
                      = 2 * List.length items)%nat).
    { clear Hitems. induction items as [|item items IH]; [done|].
      cbn [flat_map List.length]. rewrite !length_app.
      unfold emitted_for at 1, warned_for at 1.
      destruct (decide _); cbn [List.length]; lia. }
    lia.
Qed.

(** No two entries of the environment have the same name exactly when no
    constant has the name of a field reference and every override that is
    let through has a name that, bare and prefixed, is not the name of a
    field reference, and is not the bare form of another override that is
    let through. *)
Theorem make_env_names_unique w :
  ∃ env,
    (Deployer._make_env self app_spec w).1 = inr env
    ∧ (NoDup (map EnvVar.name env)
       ↔ (∀ name, name ∈ field_names → constants !! name = None)
         ∧ (∀ name, is_Some (overrides !! name) → ¬ reserved constants name →
              (name ∉ field_names)
              ∧ ("FIAAS_" +:+ name ∉ field_names)
              ∧ (is_Some (overrides !! ("FIAAS_" +:+ name))
                 → reserved constants ("FIAAS_" +:+ name)))).
Proof.
  destruct (make_env_names w) as (env & Hrun & Hperm).
  exists env. split; [exact Hrun|]. rewrite Hperm. clear Hperm Hrun.
  set (emitted := map_to_list overrides
                    ≫= (λ item, map EnvVar.name (emitted_for constants item))).
  assert (Hemitted : ∀ name,
            name ∈ emitted
            ↔ ∃ bare, is_Some (overrides !! bare) ∧ ¬ reserved constants bare
                      ∧ (name = bare ∨ name = "FIAAS_" +:+ bare)).
  { intros name. unfold emitted. rewrite list_elem_of_bind. split.
    - intros ([bare value] & [Hfree Hname]%elem_of_emitted_names
                           & Hin%elem_of_map_to_list).
      exists bare. by eauto.
    - intros (bare & [value Hvalue] & Hfree & Hname).
      exists (bare, value). split; [by apply elem_of_emitted_names|].
      by apply elem_of_map_to_list. }
  assert (Hkeys : ∀ name, name ∈ (map_to_list constants).*1 ↔ is_Some (constants !! name)).
  { intros name. rewrite list_elem_of_fmap. split.
    - intros ([name' value] & -> & Hin%elem_of_map_to_list). by eauto.
    - intros [value Hvalue]. exists (name, value). split; [done|].
      by apply elem_of_map_to_list. }
  rewrite !NoDup_app. split.
  - intros (_ & Hdisjoint & Hemit & Hfields & _). split.
    + intros name Hfield. destruct (constants !! name) as [value|] eqn:Hvalue; [|done].
      destruct (Hdisjoint name); [apply Hkeys; by eauto|].
      apply elem_of_app. by right.
    + intros name Hoverride Hfree.
      split; [|split].
      * apply Hfields, Hemitted. exists name. by eauto.
      * apply Hfields, Hemitted. exists name. by eauto.
      * intros Hprefixed. destruct (decide (reserved constants ("FIAAS_" +:+ name)))
          as [?|Hfree']; [done|].
        destruct Hoverride as [value Hvalue], Hprefixed as [value' Hvalue'].
        assert (Heq : (name, value) = ("FIAAS_" +:+ name, value')); [|by destruct (prefixed_ne name); injection Heq].
        unfold emitted in Hemit.
        revert Hemit. generalize (NoDup_map_to_list overrides).
        assert (Hin1 : (name, value) ∈ map_to_list overrides)
          by by apply elem_of_map_to_list.
        assert (Hin2 : ("FIAAS_" +:+ name, value') ∈ map_to_list overrides)
          by by apply elem_of_map_to_list.
        revert Hin1 Hin2. generalize (map_to_list overrides). intros l.
        induction l as [|item l IH]; [by intros ?%elem_of_nil|].
        intros Hin1 Hin2 [Hitem Hl]%NoDup_cons. cbn.
        intros (Hhead & Hcross & Htail)%NoDup_app.
        apply elem_of_cons in Hin1 as [<-|Hin1], Hin2 as [Hin2|Hin2].
        -- done.
        -- destruct (Hcross ("FIAAS_" +:+ name)).
           ++ apply elem_of_emitted_names. cbn. by eauto.
           ++ apply list_elem_of_bind. exists ("FIAAS_" +:+ name, value').
              split; [|done]. apply elem_of_emitted_names. cbn. by eauto.
        -- subst item. destruct (Hcross ("FIAAS_" +:+ name)).
           ++ apply elem_of_emitted_names. cbn. by eauto.
           ++ apply list_elem_of_bind. exists (name, value).
              split; [|done]. apply elem_of_emitted_names. cbn. by eauto.
        -- by apply IH.
  - intros [Hfields Hoverrides].
    split; [apply NoDup_fst_map_to_list|]. split; [|split; [|split]].
    + intros name Hconstant%Hkeys [Hin|Hin]%elem_of_app.
      * by apply (not_in_emitted name).
      * apply Hfields in Hin. rewrite Hin in Hconstant. by destruct Hconstant.
    + apply NoDup_bind.
      * intros [bare1 value1] [bare2 value2] name Hin1 Hin2.
        intros [Hfree1 Hname1]%elem_of_emitted_names [Hfree2 Hname2]%elem_of_emitted_names.
        cbn in *. apply elem_of_map_to_list in Hin1, Hin2.
        assert (bare1 = bare2) as ->; [|congruence].
        destruct Hname1 as [->| ->], Hname2 as [Heq|Heq]; try done.
        -- subst bare1. destruct Hfree1.
           apply (Hoverrides bare2); by eauto.
        -- subst bare2. destruct Hfree2.
           apply (Hoverrides bare1); by eauto.
        -- by apply prefixed_inj.
      * intros [bare value] _. rewrite emitted_names. destruct (decide _); [constructor|].
        cbn. apply NoDup_cons. split; [|apply NoDup_singleton].
        intros ?%list_elem_of_singleton. by destruct (prefixed_ne bare).
      * apply NoDup_map_to_list.
    + intros name (bare & Hoverride & Hfree & Hname)%Hemitted Hfield.
      destruct (Hoverrides bare Hoverride Hfree) as (Hbare & Hprefixed & _).
      by destruct Hname as [-> | ->].
    + cbn. apply (bool_decide_unpack _). by vm_compute.
Qed.

End EnvironmentNames.

(** For a deployer built from a configuration, the names of global
    overrides that are passed over are these: the names of the constants,
    and [INFRASTRUCTURE] and, with an environment configured, [ENVIRONMENT],
    whose prefixed forms are constants. *)
Theorem init_reserved_names (config : Configuration.t)
    (datadog : Deployment.t → AppSpec.t → bool → Deployment.t)
    (prometheus secrets : Deployment.t → AppSpec.t → Deployment.t)
    (app_spec : AppSpec.t) (name : string) :
  reserved (Deployer.constants_of (Deployer.__init__ config datadog prometheus secrets)
                                  app_spec) name
  ↔ name ∈ [ "ARTIFACT_NAME"; "IMAGE"; "VERSION"; "CONSTRETTO_TAGS"; "LOG_FORMAT";
             "LOG_STDOUT"; "FIAAS_INFRASTRUCTURE"; "INFRASTRUCTURE" ]
    ∨ (Configuration.environment config ≠ ""
       ∧ name ∈ [ "FINN_ENV"; "FIAAS_ENVIRONMENT"; "ENVIRONMENT" ]).
Proof.
  unfold reserved. rewrite <- !elem_of_dom.
  unfold Deployer.constants_of, Deployer.__init__, Deployer._build_fiaas_env.
  cbn [Deployer._fiaas_env].
  destruct (String.eqb_spec (Configuration.environment config) "") as [Hnone|Hsome];
    cbn [negb]; rewrite !dom_insert_L, dom_empty_L; set_unfold;
    cbv [String.append]; naive_solver.
Qed.

(** * One run of the body of [deploy] *)

Section Body.
Context {runtime : PyRuntime}.
Variable should_have_autoscaler : AppSpec.t → bool.

#[local] Abbreviation deploy_once := (Deployer.deploy_once should_have_autoscaler).
#[local] Abbreviation deploy := (Deployer.deploy should_have_autoscaler).
#[local] Abbreviation collaborate := DeployerReadings.collaborate.
#[local] Abbreviation keeps := DeployerReadings.keeps.
#[local] Abbreviation probes_buildable := DeployerReadings.probes_buildable.
#[local] Abbreviation live_readable := (DeployerReadings.live_readable should_have_autoscaler).
#[local] Abbreviation resolved_replicas :=
  (DeployerReadings.resolved_replicas should_have_autoscaler).

(** Reading the live replica count, with the record it logs. *)
Lemma resolve_replicas_log app_spec w :
  live_readable app_spec w →
  ∀ w', deployments w' = deployments w →
    (if should_have_autoscaler app_spec then
       try_except
         (deployment <- Deployment_get (AppSpec.name app_spec) (AppSpec.namespace app_spec) ;;
          replicas <- Deployer.live_replicas deployment ;;
          LOG_info ("Configured replica size (" +:+ str (AppSpec.replicas app_spec)
                    +:+ ") for deployment is being ignored, as current running replica size"
                    +:+ " is different (" +:+ str replicas +:+ ") for "
                    +:+ AppSpec.name app_spec) ;;
          ret replicas)
         is_not_found
         (ret (AppSpec.replicas app_spec))
     else ret (AppSpec.replicas app_spec)) w'
    = (inr (resolved_replicas app_spec w),
       with_log w' (log w' ++ replica_records should_have_autoscaler app_spec w)).
Proof.
  intros Hlive w' Hw'. unfold DeployerReadings.live_readable in Hlive.
  unfold DeployerReadings.resolved_replicas, replica_records.
  destruct (should_have_autoscaler app_spec).
  - unfold try_except, bind at 1, Deployment_get. rewrite Hw'.
    destruct (deployments w !! _) as [live|] eqn:Hget.
    + destruct (Hlive eq_refl live eq_refl) as [spec Hspec].
      unfold Deployer.live_replicas, replicas_of. rewrite Hspec. simpl.
      unfold bind, ret, LOG_info. reflexivity.
    + simpl. unfold ret. by rewrite with_log_same.
  - unfold ret. by rewrite with_log_same.
Qed.

(** What the body of [deploy] builds is a function of the replica count it
    settles on: the object of that count, with the name and namespace of the
    application and a pod of one container. *)
Lemma deploy_once_builds (self : Deployer.DeploymentDeployer) app_spec selector labels
    besteffort :
  probes_buildable app_spec →
  ∃ (build : Z → Deployment.t) (container : Container.t),
    (∀ w, live_readable app_spec w →
       ∀ w', deployments w' = deployments w →
         deploy_once self app_spec selector labels besteffort w'
         = Deployment_save
             (collaborate self app_spec besteffort
                (Deployer._clear_pod_init_container_annotations
                   (build (resolved_replicas app_spec w))))
             (with_log w'
                (log w'
                 ++ (INFO, "Creating new deployment for " +:+ AppSpec.name app_spec)
                    :: flat_map (warned_for (Deployer.constants_of self app_spec))
                                (iteritems (Deployer._global_env self))
                 ++ replica_records should_have_autoscaler app_spec w)))
    ∧ (∀ replicas,
         replicas_of (build replicas) = Some replicas
         ∧ key_of (build replicas)
           = Some (AppSpec.name app_spec, AppSpec.namespace app_spec)
         ∧ pod_spec_of (build replicas)
           = Some {| PodSpec.containers := [container];
                     PodSpec.initContainers := [];
                     PodSpec.volumes := Deployer._make_volumes self app_spec;
                     PodSpec.serviceAccountName := "default";
                     PodSpec.automountServiceAccountToken := AppSpec.admin_access app_spec;
                     PodSpec.terminationGracePeriodSeconds :=
                       Some (Deployer._grace_period self) |})
    ∧ Container.name container = AppSpec.name app_spec
    ∧ Container.lifecycle container = Deployer._lifecycle self
    ∧ Container.volumeMounts container = Deployer._make_volume_mounts self app_spec
    ∧ Container.ports container
      = map (λ port_spec,
               {| ContainerPort.name := PortSpec.name port_spec;
                  ContainerPort.containerPort := PortSpec.target_port port_spec |})
            (AppSpec.ports app_spec).
Proof.
  intros [[liveness Hliveness] [readiness Hreadiness]].
  eexists _, _. split; [|split].
  - intros w Hlive w' Hw'. unfold Deployer.deploy_once.
    rewrite (bind_inr _ _ _ _ _ (LOG_info_run ("Creating new deployment for " +:+ AppSpec.name app_spec) w')). cbv beta zeta.
    erewrite bind_inr by apply make_env_run. cbv beta zeta.
    rewrite Hliveness, Hreadiness.
    erewrite bind_inr by apply lift_run. cbv beta zeta.
    erewrite bind_inr by apply lift_run. cbv beta zeta.
    erewrite bind_inr by (apply (resolve_replicas_log _ w Hlive); exact Hw'). cbv beta zeta.
    erewrite bind_inr by apply get_or_create_run. cbv beta zeta.
    rewrite !with_log_twice, <- !app_assoc. unfold DeployerReadings.collaborate.
    cbn [app].
    generalize (resolved_replicas app_spec w). intros replicas.
    reflexivity.
  - intros replicas. split; [reflexivity|]. split; reflexivity.
  - cbn. done.
Qed.

(** One run of the body of [deploy] logs, in this order, that it creates
    the deployment, one warning for each global override that is passed
    over, and, when autoscaling is on and a live object was read, the record
    about the replica count; the write adds nothing.  That record, which says
    the current size is different, is written also when the live count is the
    declared one. *)
Theorem deploy_once_log (self : Deployer.DeploymentDeployer) app_spec selector labels
    besteffort w :
  probes_buildable app_spec →
  live_readable app_spec w →
  ∃ result w',
    deploy_once self app_spec selector labels besteffort w = (result, w')
    ∧ log w'
      = log w
        ++ (INFO, "Creating new deployment for " +:+ AppSpec.name app_spec)
           :: flat_map (warned_for (Deployer.constants_of self app_spec))
                       (iteritems (Deployer._global_env self))
        ++ replica_records should_have_autoscaler app_spec w
    ∧ (∀ live,
         should_have_autoscaler app_spec = true →
         deployments w !! (AppSpec.name app_spec, AppSpec.namespace app_spec) = Some live →
         replicas_of live = Some (AppSpec.replicas app_spec) →
         (INFO, "Configured replica size (" +:+ str (AppSpec.replicas app_spec)
                +:+ ") for deployment is being ignored, as current running replica size"
                +:+ " is different (" +:+ str (AppSpec.replicas app_spec) +:+ ") for "
                +:+ AppSpec.name app_spec) ∈ log w').
Proof.
  intros Hprobes Hlive.
  destruct (deploy_once_builds self app_spec selector labels besteffort Hprobes)
    as (build & container & Hruns & _).
  specialize (Hruns w Hlive w eq_refl).
  assert (Hsave : ∀ d w0, log (Deployment_save d w0).2 = log w0).
  { intros d w0. unfold Deployment_save. by destruct (save_response w0 _). }
  eexists _, _. split; [rewrite Hruns; apply surjective_pairing|].
  assert (Hlog : ∀ l, log (with_log w l) = l) by done.
  split; [by rewrite Hsave|].
  intros live Hauto Hget Hreplicas. rewrite Hsave, Hlog.
  unfold replica_records. rewrite Hauto, Hget, Hreplicas.
  rewrite elem_of_app, elem_of_cons, elem_of_app, list_elem_of_singleton. by eauto.
Qed.

(** Deploying the same spec twice is deploying it once: when the API server
    accepts both writes the second commits the object the first committed,
    also under autoscaling, where the second reads the replica count the
    first wrote, and the cluster then holds that object under the name and
    namespace of the application.  The collaborators are taken to leave the
    replica count, the name and the namespace alone. *)
Theorem deploy_twice (self : Deployer.DeploymentDeployer) app_spec selector labels
    besteffort w :
  probes_buildable app_spec →
  live_readable app_spec w →
  keeps replicas_of self app_spec besteffort →
  keeps key_of self app_spec besteffort →
  save_response w (save_calls w) = None →
  save_response w (S (save_calls w)) = None →
  ∃ d w1 w2,
    deploy self app_spec selector labels besteffort w = (inr tt, w1)
    ∧ deploy self app_spec selector labels besteffort w1 = (inr tt, w2)
    ∧ committed w2 = committed w ++ [d; d]
    ∧ deployments w1
      = <[(AppSpec.name app_spec, AppSpec.namespace app_spec) := d]> (deployments w)
    ∧ deployments w2 = deployments w1
    ∧ Deployment_get (AppSpec.name app_spec) (AppSpec.namespace app_spec) w2 = (inr d, w2).
Proof.
  intros Hprobes Hlive Hkeep_replicas Hkeep_key Hfirst Hsecond.
  destruct (deploy_once_builds self app_spec selector labels besteffort Hprobes)
    as (build & container & Hruns & Hbuild & _).
  set (replicas := resolved_replicas app_spec w) in *.
  set (d := collaborate self app_spec besteffort
              (Deployer._clear_pod_init_container_annotations (build replicas))).
  destruct (Hbuild replicas) as (Hreplicas & Hkey & _).
  assert (Hd_replicas : replicas_of d = Some replicas).
  { unfold d. rewrite Hkeep_replicas; rewrite clear_keeps_replicas, Hreplicas; by eauto. }
  assert (Hd_key : ObjectMeta.name (Deployment.metadata d) = AppSpec.name app_spec
                   ∧ ObjectMeta.namespace (Deployment.metadata d)
                     = AppSpec.namespace app_spec).
  { assert (Hclear : ∀ d0, key_of (Deployer._clear_pod_init_container_annotations d0)
                           = key_of d0).
    { intros d0. unfold key_of. clear_cases d0. }
    assert (Hk : key_of d = Some (AppSpec.name app_spec, AppSpec.namespace app_spec)).
    { unfold d. rewrite Hkeep_key; rewrite Hclear, Hkey; by eauto. }
    unfold key_of in Hk. by injection Hk. }
  destruct Hd_key as [Hname Hnamespace].
  pose proof (Hruns w Hlive w eq_refl) as Hrun1. fold replicas d in Hrun1.
  unfold Deployment_save in Hrun1. cbn [save_response save_calls with_log] in Hrun1.
  rewrite Hfirst, Hname, Hnamespace in Hrun1.
  match type of Hrun1 with _ = (_, ?w') => set (w1 := w') in * end.
  assert (Hlive1 : live_readable app_spec w1).
  { intros _ live Hget. unfold w1 in Hget. cbn in Hget.
    rewrite lookup_insert_eq in Hget. injection Hget as <-.
    unfold replicas_of in Hd_replicas. by destruct (Deployment.spec d); [eauto|]. }
  assert (Hsame : resolved_replicas app_spec w1 = replicas).
  { unfold DeployerReadings.resolved_replicas, replicas, DeployerReadings.resolved_replicas.
    destruct (should_have_autoscaler app_spec) eqn:Hauto; [|done].
    unfold w1 at 1. cbn. rewrite lookup_insert_eq, Hd_replicas. cbn.
    unfold replicas, DeployerReadings.resolved_replicas. by rewrite Hauto. }
  pose proof (Hruns w1 Hlive1 w1 eq_refl) as Hrun2. rewrite Hsame in Hrun2. fold d in Hrun2.
  unfold Deployment_save in Hrun2.
  assert (Hresponse : save_response (with_log w1 (log w1 ++ (INFO, "Creating new deployment for " +:+ AppSpec.name app_spec) :: flat_map (warned_for (Deployer.constants_of self app_spec)) (iteritems (Deployer._global_env self)) ++ replica_records should_have_autoscaler app_spec w1)) (save_calls (with_log w1 (log w1 ++ (INFO, "Creating new deployment for " +:+ AppSpec.name app_spec) :: flat_map (warned_for (Deployer.constants_of self app_spec)) (iteritems (Deployer._global_env self)) ++ replica_records should_have_autoscaler app_spec w1))) = None) by exact Hsecond.
  rewrite Hresponse, Hname, Hnamespace in Hrun2.
  match type of Hrun2 with _ = (_, ?w') => set (w2 := w') in * end.
  exists d, w1, w2.
  split; [by apply retry_loop_success|]. split; [by apply retry_loop_success|].
  split; [by unfold w2, w1; cbn; rewrite <- app_assoc|].
  split; [done|].
  split; [by unfold w2, w1; cbn; rewrite insert_insert_eq|].
  unfold Deployment_get. unfold w2 at 1. cbn. by rewrite lookup_insert_eq.
Qed.

(** The pod that [deploy] builds for a deployer made from a configuration
    is given thirty seconds to terminate and the pre-stop delay on top of
    them; its main container sleeps for that delay before it is stopped.  A
    delay that is not positive is no delay: no pre-stop handler, thirty
    seconds. *)
Theorem deploy_grace_period (config : Configuration.t)
    (datadog : Deployment.t → AppSpec.t → bool → Deployment.t)
    (prometheus secrets : Deployment.t → AppSpec.t → Deployment.t)
    app_spec selector labels besteffort w :
  probes_buildable app_spec →
  live_readable app_spec w →
  ∃ d0 pod container logs,
    deploy_once (Deployer.__init__ config datadog prometheus secrets)
                app_spec selector labels besteffort w
    = Deployment_save
        (collaborate (Deployer.__init__ config datadog prometheus secrets)
                     app_spec besteffort
                     (Deployer._clear_pod_init_container_annotations d0))
        (with_log w (log w ++ logs))
    ∧ pod_spec_of d0 = Some pod
    ∧ PodSpec.containers pod = [container]
    ∧ PodSpec.terminationGracePeriodSeconds pod
      = Some (Deployer.MINIMUM_GRACE_PERIOD
              + Z.max 0 (Configuration.pre_stop_delay config))
    ∧ (Configuration.pre_stop_delay config ≤ 0 → Container.lifecycle container = None)
    ∧ (0 < Configuration.pre_stop_delay config →
       Container.lifecycle container
       = Some {| Lifecycle.preStop :=
                   {| Handler._exec :=
                        {| ExecAction.command :=
                             ["sleep"; str (Configuration.pre_stop_delay config)] |} |} |}).
Proof.
  intros Hprobes Hlive.
  destruct (deploy_once_builds (Deployer.__init__ config datadog prometheus secrets)
              app_spec selector labels besteffort Hprobes)
    as (build & container & Hruns & Hbuild & _ & Hlifecycle & _).
  destruct (Hbuild (resolved_replicas app_spec w)) as (_ & _ & Hpod).
  eexists _, _, container, _. split; [by apply Hruns|]. split; [exact Hpod|].
  split; [done|]. rewrite Hlifecycle. cbn.
  destruct (Z.ltb_spec 0 (Configuration.pre_stop_delay config)).
  - split; [f_equal; lia|]. split; [lia|done].
  - split; [f_equal; lia|]. split; [done|lia].
Qed.

Lemma config_volume_ne_tmp name : name +:+ "-config" ≠ "tmp".
Proof.
  intros Heq. apply (f_equal String.length) in Heq.
  rewrite string_length_app in Heq. simpl in Heq. lia.
Qed.

(** In the pod that [deploy] builds every volume mount of every container
    names a volume of the pod, no two volumes have the same name, and the
    scratch volume is kept in memory exactly when the deployer is configured
    so. *)
Theorem deploy_mounts_have_volumes (self : Deployer.DeploymentDeployer) app_spec selector
    labels besteffort w :
  probes_buildable app_spec →
  live_readable app_spec w →
  ∃ d0 pod logs,
    deploy_once self app_spec selector labels besteffort w
    = Deployment_save
        (collaborate self app_spec besteffort
           (Deployer._clear_pod_init_container_annotations d0))
        (with_log w (log w ++ logs))
    ∧ pod_spec_of d0 = Some pod
    ∧ NoDup (map Volume.name (PodSpec.volumes pod))
    ∧ (∀ container mount,
         container ∈ PodSpec.containers pod ++ PodSpec.initContainers pod →
         mount ∈ Container.volumeMounts container →
         VolumeMount.name mount ∈ map Volume.name (PodSpec.volumes pod))
    ∧ (∀ volume,
         volume ∈ PodSpec.volumes pod → Volume.name volume = "tmp" →
         Volume.emptyDir volume
         = Some {| EmptyDirVolumeSource.medium :=
                     if Deployer._use_in_memory_emptydirs self
                     then Some "Memory" else None |}).
Proof.
  intros Hprobes Hlive.
  destruct (deploy_once_builds self app_spec selector labels besteffort Hprobes)
    as (build & container & Hruns & Hbuild & _ & _ & Hmounts & _).
  destruct (Hbuild (resolved_replicas app_spec w)) as (_ & _ & Hpod).
  eexists _, _, _. split; [by apply Hruns|]. split; [exact Hpod|].
  cbn [PodSpec.volumes PodSpec.containers PodSpec.initContainers].
  unfold Deployer._make_volumes. cbn [map Volume.name].
  split; [|split].
  - apply NoDup_cons. split; [|apply NoDup_singleton].
    intros Hin%list_elem_of_singleton. by apply config_volume_ne_tmp in Hin.
  - intros c mount Hc%list_elem_of_singleton Hmount. subst c.
    rewrite Hmounts in Hmount. unfold Deployer._make_volume_mounts in Hmount.
    apply elem_of_cons in Hmount as [->|Hmount%list_elem_of_singleton]; [by left|].
    subst mount. right. by left.
  - intros volume [->|Hvolume%list_elem_of_singleton]%elem_of_cons Hname.
    + by apply config_volume_ne_tmp in Hname.
    + subst volume. cbn. by destruct (Deployer._use_in_memory_emptydirs self).
Qed.

End Body.

(** * Clearing twice *)

(** Clearing the init-container annotations changes nothing in an object
    that has none of them, and so clearing twice is clearing once. *)
Theorem clear_pod_init_container_annotations_idempotent (d : Deployment.t) :
  ((∀ key, is_Some (pod_annotations d !! key) →
           Deployer.init_container_annotation key = false) →
   Deployer._clear_pod_init_container_annotations d = d)
  ∧ Deployer._clear_pod_init_container_annotations
      (Deployer._clear_pod_init_container_annotations d)
    = Deployer._clear_pod_init_container_annotations d.
Proof.
  assert (Hid : ∀ d0, (∀ key, is_Some (pod_annotations d0 !! key) →
                              Deployer.init_container_annotation key = false) →
                      Deployer._clear_pod_init_container_annotations d0 = d0).
  { intros d0 Hnone.
    assert (Hsame : ∀ annotations : Dict,
              (∀ key, is_Some (annotations !! key) →
                      Deployer.init_container_annotation key = false) →
              set_fold (λ key acc, delete key acc) annotations
                (dom (filter (λ item : string * string,
                                Deployer.init_container_annotation item.1 = true)
                             annotations))
              = annotations).
    { intros annotations Hkeys. apply map_eq. intros key.
      rewrite cleared_annotations_lookup.
      destruct (Deployer.init_container_annotation key) eqn:Hkey; [|done].
      destruct (annotations !! key) as [value|] eqn:Hvalue; [|done].
      rewrite Hkeys in Hkey by eauto. done. }
    revert Hnone.
    unfold Deployer._clear_pod_init_container_annotations, pod_annotations, pod_metadata_of.
    destruct d0 as [? [[? ? [[[[? ? ? annotations]|] ?]|] ? ?]|]]; simpl; try done.
    case_bool_decide; [done|]. intros Hnone. by rewrite Hsame. }
  split; [apply Hid|]. apply Hid.
  intros key. rewrite clear_pod_annotations_lookup.
  destruct (Deployer.init_container_annotation key); [by intros [? ?]|done].
Qed.

(** * More on strings *)

Lemma list_ascii_of_string_app (s t : string) :
  list_ascii_of_string (s +:+ t) = list_ascii_of_string s ++ list_ascii_of_string t.
Proof. induction s as [|c s IH]; [done|]. simpl. by rewrite IH. Qed.

Lemma list_ascii_of_string_inj (s t : string) :
  list_ascii_of_string s = list_ascii_of_string t → s = t.
Proof.
  intros Heq. rewrite <- (string_of_list_ascii_of_string s),
    <- (string_of_list_ascii_of_string t). by rewrite Heq.
Qed.

Lemma string_app_inv_tail (s t suffix : string) : s +:+ suffix = t +:+ suffix → s = t.
Proof.
  intros Heq%(f_equal list_ascii_of_string). rewrite !list_ascii_of_string_app in Heq.
  by apply app_inv_tail, list_ascii_of_string_inj in Heq.
Qed.

Lemma string_app_inv_head (s t prefix : string) : prefix +:+ s = prefix +:+ t → s = t.
Proof.
  intros Heq%(f_equal list_ascii_of_string). rewrite !list_ascii_of_string_app in Heq.
  by apply app_inv_head, list_ascii_of_string_inj in Heq.
Qed.

Lemma secret_ne_config (s t : string) : s +:+ "-secret" ≠ t +:+ "-config".
Proof.
  intros Heq%(f_equal list_ascii_of_string). rewrite !list_ascii_of_string_app in Heq.
  apply (f_equal last) in Heq. rewrite !last_app in Heq. by vm_compute in Heq.
Qed.

(** * The pod of the single-file builder *)

Section LegacyPod.
Context {runtime : PyRuntime}.
Variable should_have_autoscaler : Legacy.AppSpec.t → bool.

(** One deploy of the single-file builder, the write accepted: the pod of
    the committed object. *)
Lemma legacy_deploy_builds (self : Legacy.DeploymentDeployer) app_spec selector labels w :
  (∃ p, Legacy._make_probe
          (HealthCheckSpec.liveness (Legacy.AppSpec.health_checks app_spec)) = inr p) →
  (∃ p, Legacy._make_probe
          (HealthCheckSpec.readiness (Legacy.AppSpec.health_checks app_spec)) = inr p) →
  (should_have_autoscaler app_spec = true →
   ∀ live, deployments w !! (Legacy.AppSpec.name app_spec, Legacy.AppSpec.namespace app_spec)
           = Some live → is_Some (Deployment.spec live)) →
  save_response w (save_calls w) = None →
  ∃ d w' main,
    Legacy.deploy should_have_autoscaler self app_spec selector labels w = (inr tt, w')
    ∧ committed w' = committed w ++ [d]
    ∧ pod_spec_of d
      = Some {| PodSpec.containers := [main];
                PodSpec.initContainers :=
                  if Legacy.AppSpec.has_secrets app_spec
                     && Legacy._uses_secrets_init_container self
                  then [Legacy._make_secrets_init_container self app_spec] else [];
                PodSpec.volumes := Legacy._make_volumes self app_spec;
                PodSpec.serviceAccountName :=
                  if Legacy.AppSpec.has_secrets app_spec
                     && Legacy._uses_secrets_init_container self
                     && Legacy.truthy (Legacy._secrets_service_account_name self)
                  then default "" (Legacy._secrets_service_account_name self)
                  else "default";
                PodSpec.automountServiceAccountToken :=
                  if Legacy.AppSpec.has_secrets app_spec
                     && Legacy._uses_secrets_init_container self
                  then true else Legacy.AppSpec.admin_access app_spec;
                PodSpec.terminationGracePeriodSeconds := None |}
    ∧ Container.name main = Legacy.AppSpec.name app_spec
    ∧ Container.volumeMounts main = Legacy._make_volume_mounts self app_spec false.
Proof.
  intros [liveness Hliveness] [readiness Hreadiness] Hlive Haccepted.
  destruct (legacy_prometheus_run app_spec) as (annotations & logs & Hprometheus).
  unfold Legacy.deploy.
  rewrite (bind_inr _ _ _ _ _ (LOG_info_run ("Creating new deployment for " +:+ Legacy.AppSpec.name app_spec) w)). cbv beta zeta.
  erewrite bind_inr by apply legacy_make_env_run. cbv beta zeta.
  rewrite Hliveness, Hreadiness.
  erewrite bind_inr by apply lift_run. cbv beta zeta.
  erewrite bind_inr by apply lift_run. cbv beta zeta.
  erewrite bind_inr by apply Hprometheus. cbv beta zeta.
  rewrite !with_log_twice.
  match goal with
  | |- context [bind ?m _ (with_log w ?l)] =>
      assert (Hreplicas : ∃ replicas, m (with_log w l) = (inr replicas, with_log w l))
  end.
  { destruct (should_have_autoscaler app_spec); [|by eexists].
    unfold try_except, bind, Deployment_get. simpl.
    destruct (deployments w !! _) as [live|] eqn:Hget; [|by eexists].
    destruct (Hlive eq_refl live eq_refl) as [spec Hspec].
    unfold Legacy.live_replicas. rewrite Hspec. by eexists. }
  destruct Hreplicas as [replicas Hreplicas].
  erewrite bind_inr by exact Hreplicas. cbv beta zeta.
  erewrite bind_inr by apply get_or_create_run. cbv beta zeta.
  unfold Deployment_save. simpl. rewrite Haccepted.
  eexists _, _, _. split; [reflexivity|]. simpl. split; [reflexivity|].
  split; [reflexivity|]. done.
Qed.

(** In the pod the single-file builder commits, every volume mount of the
    main container and of the secrets init container names a volume of the
    pod.  The volumes have different names except in one case: an
    application with secrets that is named as the init container is, deployed
    with an init container image configured, gets two volumes of one name. *)
Theorem legacy_deploy_mounts_have_volumes (self : Legacy.DeploymentDeployer) app_spec
    selector labels w :
  (∃ p, Legacy._make_probe
          (HealthCheckSpec.liveness (Legacy.AppSpec.health_checks app_spec)) = inr p) →
  (∃ p, Legacy._make_probe
          (HealthCheckSpec.readiness (Legacy.AppSpec.health_checks app_spec)) = inr p) →
  (should_have_autoscaler app_spec = true →
   ∀ live, deployments w !! (Legacy.AppSpec.name app_spec, Legacy.AppSpec.namespace app_spec)
           = Some live → is_Some (Deployment.spec live)) →
  save_response w (save_calls w) = None →
  ∃ d w' pod,
    Legacy.deploy should_have_autoscaler self app_spec selector labels w = (inr tt, w')
    ∧ committed w' = committed w ++ [d]
    ∧ pod_spec_of d = Some pod
    ∧ (∀ container mount,
         container ∈ PodSpec.containers pod ++ PodSpec.initContainers pod →
         mount ∈ Container.volumeMounts container →
         VolumeMount.name mount ∈ map Volume.name (PodSpec.volumes pod))
    ∧ (NoDup (map Volume.name (PodSpec.volumes pod))
       ↔ ¬ (Legacy.AppSpec.has_secrets app_spec = true
            ∧ Legacy._uses_secrets_init_container self = true
            ∧ Legacy.AppSpec.name app_spec = Legacy.SECRETS_INIT_CONTAINER_NAME)).
Proof.
  intros Hliveness Hreadiness Hlive Haccepted.
  destruct (legacy_deploy_builds self app_spec selector labels w
              Hliveness Hreadiness Hlive Haccepted)
    as (d & w' & main & Hrun & Hcommitted & Hpod & _ & Hmounts).
  eexists d, w', _. split; [exact Hrun|]. split; [exact Hcommitted|].
  split; [exact Hpod|].
  cbn [PodSpec.containers PodSpec.initContainers PodSpec.volumes].
  unfold Legacy._make_volumes.
  split.
  - intros container mount Hcontainer Hmount.
    apply elem_of_app in Hcontainer as [->%list_elem_of_singleton|Hinit].
    + rewrite Hmounts in Hmount. unfold Legacy._make_volume_mounts in Hmount.
      destruct (Legacy.AppSpec.has_secrets app_spec),
        (Legacy._uses_secrets_init_container self); cbn in Hmount |- *;
        set_solver.
    + unfold Legacy._make_secrets_init_container, Legacy._make_volume_mounts in Hinit.
      destruct (Legacy.AppSpec.has_secrets app_spec),
        (Legacy._uses_secrets_init_container self); cbn in Hinit;
        try by apply elem_of_nil in Hinit.
      apply list_elem_of_singleton in Hinit. subst container.
      cbn in Hmount |- *. set_solver.
  - destruct (Legacy.AppSpec.has_secrets app_spec),
      (Legacy._uses_secrets_init_container self); cbn.
    + rewrite !NoDup_cons, !elem_of_cons, !elem_of_nil. split.
      * intros (_ & Hconfig & _) (_ & _ & Hname). apply Hconfig. left.
        unfold Legacy.SECRETS_INIT_CONTAINER_NAME in *. by rewrite Hname.
      * intros Hname. split; [|split; [|split; [by intros []|constructor]]].
        -- intros [Heq|[Heq|[]]]; by apply secret_ne_config in Heq.
        -- intros [Heq|[]]. apply Hname. split; [done|]. split; [done|].
           symmetry. by apply string_app_inv_tail in Heq.
    + split; [by intros _ (_ & ? & _)|]. intros _.
      rewrite !NoDup_cons, !elem_of_cons, !elem_of_nil.
      split; [|split; [by intros []|constructor]].
      intros [Heq|[]]. by apply secret_ne_config in Heq.
    + split; [by intros _ (? & _)|]. intros _. apply NoDup_singleton.
    + split; [by intros _ (? & _)|]. intros _. apply NoDup_singleton.
Qed.

(** The secrets of the single-file builder.  The main container mounts
    every volume read-only.  The init container is there exactly when the
    spec has secrets and an init container image is configured; the pod then
    mounts the service-account token whatever the spec says of admin access,
    and the one mount the init container can write is the secrets directory.
    Without the init container the token is mounted as the spec says and the
    service account is [default]. *)
Theorem legacy_deploy_secrets (self : Legacy.DeploymentDeployer) app_spec selector
    labels w :
  (∃ p, Legacy._make_probe
          (HealthCheckSpec.liveness (Legacy.AppSpec.health_checks app_spec)) = inr p) →
  (∃ p, Legacy._make_probe
          (HealthCheckSpec.readiness (Legacy.AppSpec.health_checks app_spec)) = inr p) →
  (should_have_autoscaler app_spec = true →
   ∀ live, deployments w !! (Legacy.AppSpec.name app_spec, Legacy.AppSpec.namespace app_spec)
           = Some live → is_Some (Deployment.spec live)) →
  save_response w (save_calls w) = None →
  ∃ d w' pod main,
    Legacy.deploy should_have_autoscaler self app_spec selector labels w = (inr tt, w')
    ∧ committed w' = committed w ++ [d]
    ∧ pod_spec_of d = Some pod
    ∧ PodSpec.containers pod = [main]
    ∧ Forall (λ mount, VolumeMount.readOnly mount = true) (Container.volumeMounts main)
    ∧ (PodSpec.initContainers pod ≠ []
       ↔ Legacy.AppSpec.has_secrets app_spec = true
         ∧ Legacy.truthy (Legacy._secrets_init_container_image self) = true)
    ∧ (∀ init,
         init ∈ PodSpec.initContainers pod →
         PodSpec.initContainers pod = [init]
         ∧ Container.name init = Legacy.SECRETS_INIT_CONTAINER_NAME
         ∧ Container.image init = Legacy._secrets_init_container_image self
         ∧ PodSpec.automountServiceAccountToken pod = true
         ∧ filter (λ mount, VolumeMount.readOnly mount = false)
                  (Container.volumeMounts init)
           = [ {| VolumeMount.name := Legacy.AppSpec.name app_spec +:+ "-secret";
                  VolumeMount.readOnly := false;
                  VolumeMount.mountPath := "/var/run/secrets/fiaas/" |} ])
    ∧ (PodSpec.initContainers pod = [] →
       PodSpec.automountServiceAccountToken pod = Legacy.AppSpec.admin_access app_spec
       ∧ PodSpec.serviceAccountName pod = "default").
Proof.
  intros Hliveness Hreadiness Hlive Haccepted.
  destruct (legacy_deploy_builds self app_spec selector labels w
              Hliveness Hreadiness Hlive Haccepted)
    as (d & w' & main & Hrun & Hcommitted & Hpod & _ & Hmounts).
  eexists d, w', _, main. split; [exact Hrun|]. split; [exact Hcommitted|].
  split; [exact Hpod|]. split; [reflexivity|].
  cbn [PodSpec.containers PodSpec.initContainers PodSpec.automountServiceAccountToken
       PodSpec.serviceAccountName].
  rewrite Hmounts. unfold Legacy._uses_secrets_init_container, Legacy._make_volume_mounts.
  destruct (Legacy.AppSpec.has_secrets app_spec) eqn:Hsecrets,
    (Legacy.truthy (Legacy._secrets_init_container_image self)) eqn:Himage; cbn.
  all: split; [by repeat constructor|].
  all: split; [split; [try done; by intros []|try done; by intros [? ?]]|].
  all: split; [|try done; by intros _].
  all: try by intros init ?%elem_of_nil.
  intros init ->%list_elem_of_singleton. cbn.
  unfold Legacy._make_volume_mounts. by rewrite Hsecrets.
Qed.

End LegacyPod.

(** * The order of the single-file builder's environment *)

Lemma sorted_adjacent {A} (R : relation A) (l1 l2 : list A) x y :
  StronglySorted R (l1 ++ x :: y :: l2) → R x y.
Proof.
  intros Hsorted%StronglySorted_app_1_r.
  apply StronglySorted_cons in Hsorted as [Hx _].
  by apply Forall_cons in Hx as [Hxy _].
Qed.

Section LegacyOrder.
Context {runtime : PyRuntime}.

(** The single-file builder does not sort.  The two entries of a global
    override that is let through stand next to each other, the bare name
    first, so with an override whose bare name sorts after its prefixed name
    (any name that begins with a letter after [F]) the list is not sorted by
    name, whatever the order in which the dicts are iterated. *)
Theorem legacy_make_env_unsorted (self : Legacy.DeploymentDeployer) app_spec w name value :
  Legacy._global_env self !! name = Some value →
  ¬ reserved (Legacy.constants_of self app_spec) name →
  String.leb name ("FIAAS_" +:+ name) = false →
  ∃ env before after,
    (Legacy._make_env self app_spec w).1 = inr env
    ∧ env = before ++ Legacy.literal name value
                   :: Legacy.literal ("FIAAS_" +:+ name) value :: after
    ∧ ¬ StronglySorted name_le env.
Proof.
  intros Hoverride Hfree Horder.
  assert (Hin : (name, value) ∈ iteritems (Legacy._global_env self)).
  { rewrite (iteritems_perm _). by apply elem_of_map_to_list. }
  apply list_elem_of_split in Hin as (items1 & items2 & Hitems).
  eexists _, _, _. rewrite legacy_make_env_run. split; [reflexivity|].
  assert (Hsplit :
    map (λ '(name, value), Deployer.literal name value)
        (iteritems (Legacy.constants_of self app_spec))
    ++ flat_map (emitted_for (Legacy.constants_of self app_spec))
                (iteritems (Legacy._global_env self))
    = (map (λ '(name, value), Deployer.literal name value)
           (iteritems (Legacy.constants_of self app_spec))
       ++ flat_map (emitted_for (Legacy.constants_of self app_spec)) items1)
      ++ Legacy.literal name value
         :: Legacy.literal ("FIAAS_" +:+ name) value
         :: flat_map (emitted_for (Legacy.constants_of self app_spec)) items2).
  { rewrite Hitems, flat_map_app. cbn [flat_map].
    unfold emitted_for at 2. cbn [fst snd]. rewrite decide_False by done.
    by rewrite <- app_assoc. }
  split; [exact Hsplit|]. rewrite Hsplit.
  intros Hle%sorted_adjacent. unfold name_le in Hle. cbn in Hle. congruence.
Qed.

End LegacyOrder.

(** * The prometheus annotations of the single-file builder *)

Lemma ports_lookup_snoc (ports : list PortSpec.t) (p : PortSpec.t) :
  foldl (λ acc p, <[PortSpec.name p := PortSpec.target_port p]> acc)
        (∅ : gmap string Z) (ports ++ [p])
  = <[PortSpec.name p := PortSpec.target_port p]>
      (foldl (λ acc p, <[PortSpec.name p := PortSpec.target_port p]> acc) ∅ ports).
Proof. by rewrite foldl_app. Qed.

(** The dict of ports by name: a name leads to the target of the last port
    that has it. *)
Lemma ports_lookup (ports : list PortSpec.t) (port_name : string) :
  match foldl (λ acc p, <[PortSpec.name p := PortSpec.target_port p]> acc)
              (∅ : gmap string Z) ports !! port_name with
  | Some port =>
      ∃ before p after,
        ports = before ++ p :: after
        ∧ PortSpec.name p = port_name ∧ PortSpec.target_port p = port
        ∧ Forall (λ q, PortSpec.name q ≠ port_name) after
  | None => Forall (λ q, PortSpec.name q ≠ port_name) ports
  end.
Proof.
  induction ports as [|p ports IH] using rev_ind; [simpl; by rewrite lookup_empty|].
  rewrite ports_lookup_snoc.
  destruct (decide (PortSpec.name p = port_name)) as [Hname|Hname].
  - rewrite <- Hname, lookup_insert_eq. exists ports, p, []. by rewrite Hname.
  - rewrite lookup_insert_ne by done.
    destruct (foldl _ _ _ !! port_name) as [port|].
    + destruct IH as (before & q & after & -> & Hq & Hport & Hafter).
      exists before, q, (after ++ [p]). rewrite <- app_assoc. split; [done|].
      split; [done|]. split; [done|]. apply Forall_app. by split; [|constructor].
    + apply Forall_app. by split; [|constructor].
Qed.

Section LegacyPrometheus.
Context {runtime : PyRuntime}.

(** The prometheus annotations of the single-file builder.  A port that is
    a number, or a string that reads as one, is taken as it is, also when a
    port of the application is named by that string; any other string is
    looked up among the ports of the application, the last port of that name
    counting.  With a port found there are three annotations and nothing is
    logged; with no port of that name there is no annotation at all, an error
    is logged, and nothing is raised. *)
Theorem legacy_prometheus_annotations (app_spec : Legacy.AppSpec.t)
    (prometheus_spec : PrometheusSpec.t) w :
  ∃ annotations logs,
    Legacy._make_prometheus_annotations app_spec prometheus_spec w
    = (inr annotations, with_log w (log w ++ logs))
    ∧ ((∃ port,
          annotations
          = <["prometheus.io/path" := PrometheusSpec.path prometheus_spec]>
              (<["prometheus.io/port" := str port]>
                 (<["prometheus.io/scrape" :=
                      str_bool_lower (PrometheusSpec.enabled prometheus_spec)]> ∅))
          ∧ size annotations = 3%nat
          ∧ logs = []
          ∧ (PrometheusSpec.port prometheus_spec = IsInt port
             ∨ (∃ s, PrometheusSpec.port prometheus_spec = IsStr s
                     ∧ py_int s = Some port)
             ∨ (∃ s before p after,
                  PrometheusSpec.port prometheus_spec = IsStr s
                  ∧ py_int s = None
                  ∧ Legacy.AppSpec.ports app_spec = before ++ p :: after
                  ∧ PortSpec.name p = s ∧ PortSpec.target_port p = port
                  ∧ Forall (λ q, PortSpec.name q ≠ s) after)))
       ∨ (annotations = ∅
          ∧ logs = [(ERROR, "Invalid prometheus configuration for "
                            +:+ Legacy.AppSpec.name app_spec)]
          ∧ ∃ s, PrometheusSpec.port prometheus_spec = IsStr s
                 ∧ py_int s = None
                 ∧ Forall (λ q, PortSpec.name q ≠ s) (Legacy.AppSpec.ports app_spec))).
Proof.
  assert (Hsize : ∀ a b c : string,
            size (<["prometheus.io/path" := a]>
                    (<["prometheus.io/port" := b]>
                       (<["prometheus.io/scrape" := c]> (∅ : Dict)))) = 3%nat).
  { intros a b c. rewrite !map_size_insert_None; [by rewrite map_size_empty|..].
    all: by simplify_map_eq. }
  unfold Legacy._make_prometheus_annotations.
  destruct (PrometheusSpec.port prometheus_spec) as [port|s].
  { eexists _, []. unfold ret. rewrite with_log_same. split; [done|]. left.
    exists port. by eauto 10. }
  destruct (py_int s) as [port|] eqn:Hint.
  { eexists _, []. unfold ret. rewrite with_log_same. split; [done|]. left.
    exists port. split; [done|]. split; [done|]. split; [done|]. right. left. by eauto. }
  pose proof (ports_lookup (Legacy.AppSpec.ports app_spec) s) as Hports.
  destruct (foldl _ _ _ !! s) as [port|].
  - destruct Hports as (before & p & after & Hsplit & Hname & Htarget & Hafter).
    eexists _, []. unfold ret. rewrite with_log_same. split; [done|]. left.
    exists port. split; [done|]. split; [done|]. split; [done|]. right. right.
    exists s, before, p, after. by eauto 10.
  - eexists _, _. unfold bind, LOG_error, ret. split; [reflexivity|]. right.
    split; [done|]. split; [done|]. by eauto.
Qed.

End LegacyPrometheus.

(** * The deployment labels of the single-file builder *)

(** The single-file builder writes the labels of the caller into the dict of
    deployment labels of the spec itself, when the spec has one: the dict it
    puts into the metadata is that very object, holding the caller's labels
    over the spec's, and after the deploy the spec holds them too.  A label
    given to one deploy and not to the next is therefore still there at the
    next.  A spec without deployment labels is left as it is, and the
    metadata gets a new dict with the caller's labels. *)
Theorem legacy_custom_labels_shared (h : PyHeap.heap) (spec_labels : gmap string PyHeap.ref)
    (labels : Dict) :
  (∀ custom m,
     spec_labels !! "deployment" = Some custom → h !! custom = Some m →
     let '(returned, h') := LegacyHeap.custom_labels spec_labels labels h in
     returned = custom
     ∧ h' = <[custom := labels ∪ m]> h
     ∧ PyHeap.deref returned h' = labels ∪ m
     ∧ ∀ labels2,
         let '(returned2, h2) := LegacyHeap.custom_labels spec_labels labels2 h' in
         returned2 = custom
         ∧ PyHeap.deref returned2 h2 = labels2 ∪ (labels ∪ m)
         ∧ ∀ key value, labels !! key = Some value → labels2 !! key = None →
                        PyHeap.deref returned2 h2 !! key = Some value)
  ∧ (spec_labels !! "deployment" = None →
     let '(returned, h') := LegacyHeap.custom_labels spec_labels labels h in
     returned = List.length h
     ∧ h' = h ++ [labels]
     ∧ PyHeap.deref returned h' = labels).
Proof.
  unfold LegacyHeap.custom_labels, PyHeap.hbind, PyHeap.hret, PyHeap.dict_update,
    PyHeap.new_dict.
  assert (Hnew : <[List.length h := labels ∪ PyHeap.deref (List.length h) (h ++ [∅])]>
                   (h ++ [∅]) = h ++ [labels]).
  { unfold PyHeap.deref. rewrite lookup_app_r, Nat.sub_diag by lia. simpl.
    rewrite insert_app_r_alt, Nat.sub_diag by lia. simpl.
    by rewrite (right_id_L ∅ (∪)). }
  split.
  - intros custom m Hspec Hcustom. rewrite Hspec.
    assert (Hlt : (custom < List.length h)%nat) by by eapply lookup_lt_Some.
    assert (Hderef : PyHeap.deref custom h = m) by (unfold PyHeap.deref; by rewrite Hcustom).
    rewrite Hderef.
    assert (Hafter : <[custom := labels ∪ m]> h !! custom = Some (labels ∪ m))
      by by apply list_lookup_insert_eq.
    assert (Hderef2 : PyHeap.deref custom (<[custom := labels ∪ m]> h) = labels ∪ m)
      by (unfold PyHeap.deref; by rewrite Hafter).
    split; [done|]. split; [done|]. split; [done|].
    intros labels2. rewrite Hderef2. split; [done|].
    assert (Hresult : PyHeap.deref custom
                        (<[custom := labels2 ∪ (labels ∪ m)]> (<[custom := labels ∪ m]> h))
                      = labels2 ∪ (labels ∪ m)).
    { unfold PyHeap.deref. rewrite list_lookup_insert_eq; [done|].
      by rewrite length_insert. }
    rewrite Hresult. split; [done|].
    intros key value Hfirst Hsecond.
    apply lookup_union_Some_raw. right. split; [done|].
    apply lookup_union_Some_raw. by left.
  - intros ->. rewrite Hnew. split; [done|]. split; [done|].
    unfold PyHeap.deref. by rewrite lookup_app_r, Nat.sub_diag by lia.
Qed.

(** * The test utilities *)

Section Sanitize.
Import TestUtils.

Lemma is_name_char_sub c : is_name_char (if is_name_char c then c else "-"%char) = true.
Proof. destruct (is_name_char c) eqn:Hc; [exact Hc|reflexivity]. Qed.

Lemma re_sub_other_chars s :
  Forall (λ c, is_name_char c = true) (list_ascii_of_string (re_sub_other s)).
Proof.
  induction s as [|c s IH]; [constructor|]. simpl.
  constructor; [apply is_name_char_sub|exact IH].
Qed.

Lemma re_sub_other_length s : String.length (re_sub_other s) = String.length s.
Proof. induction s as [|c s IH]; [done|]. simpl. by rewrite IH. Qed.

Lemma re_sub_other_id s :
  Forall (λ c, is_name_char c = true) (list_ascii_of_string s) → re_sub_other s = s.
Proof.
  induction s as [|c s IH]; [done|]. simpl.
  intros [Hc Hs]%Forall_cons. by rewrite Hc, IH.
Qed.

Lemma re_sub_other_list s :
  list_ascii_of_string (re_sub_other s)
  = map (λ c, if is_name_char c then c else "-"%char) (list_ascii_of_string s).
Proof. induction s as [|c s IH]; [done|]. simpl. by rewrite IH. Qed.

Lemma replace_from_length old skip s :
  (String.length (replace_from old "" skip s) ≤ String.length s)%nat.
Proof.
  revert skip. induction s as [|c s IH]; intros skip; [done|].
  cbn [replace_from]. destruct skip as [|n].
  - destruct (String.prefix old (String c s)).
    + change ("" +:+ ?x) with x. specialize (IH (Nat.pred (String.length old))).
      simpl. lia.
    + specialize (IH 0%nat). simpl. lia.
  - specialize (IH n). simpl. lia.
Qed.

Lemma prefix_cons a s1 b s2 :
  String.prefix (String a s1) (String b s2)
  = if ascii_dec a b then String.prefix s1 s2 else false.
Proof. reflexivity. Qed.

Lemma replace_absent s :
  Forall (λ c, c ≠ "."%char) (list_ascii_of_string s) → replace ".yml" "" s = s.
Proof.
  unfold replace. induction s as [|c s IH]; [done|].
  cbn [replace_from list_ascii_of_string]. rewrite prefix_cons.
  intros [Hc Hs]%Forall_cons.
  destruct (ascii_dec "." c) as [Heq|_]; [by destruct Hc|].
  by rewrite IH.
Qed.

(** [sanitize_resource_name] returns a string over the characters
    [-a-z0-9] that is no longer than the path it was given, and leaves such a
    string as it is: applying it twice is applying it once. *)
Theorem sanitize_resource_name_sound (yml_path : string) :
  Forall (λ c, is_name_char c = true)
         (list_ascii_of_string (sanitize_resource_name yml_path))
  ∧ (String.length (sanitize_resource_name yml_path) ≤ String.length yml_path)%nat
  ∧ (Forall (λ c, is_name_char c = true) (list_ascii_of_string yml_path) →
     sanitize_resource_name yml_path = yml_path)
  ∧ sanitize_resource_name (sanitize_resource_name yml_path)
    = sanitize_resource_name yml_path.
Proof.
  assert (Hid : ∀ s, Forall (λ c, is_name_char c = true) (list_ascii_of_string s) →
                     sanitize_resource_name s = s).
  { intros s Hs. unfold sanitize_resource_name.
    rewrite replace_absent; [by apply re_sub_other_id|].
    eapply Forall_impl; [exact Hs|]. by intros c Hc ->. }
  split; [apply re_sub_other_chars|]. split; [|split; [apply Hid|]].
  - unfold sanitize_resource_name, replace.
    rewrite re_sub_other_length. apply replace_from_length.
  - apply Hid, re_sub_other_chars.
Qed.

(** The docstring asks for a name that matches [[a-z]([-a-z0-9]*[a-z0-9])?].
    What [sanitize_resource_name] returns matches exactly when the path, its
    [.yml] taken out, is not empty, begins with a lower-case letter and ends
    with a lower-case letter or a digit. *)
Theorem sanitize_resource_name_matches (yml_path : string) :
  matches_resource_name (sanitize_resource_name yml_path) = true
  ↔ ∃ c rest,
      replace ".yml" "" yml_path = String c rest
      ∧ is_lower c = true
      ∧ match last (list_ascii_of_string rest) with
        | None => True
        | Some final => is_lower final = true ∨ is_digit final = true
        end.
Proof.
  assert (Hlower : ∀ c, is_lower (if is_name_char c then c else "-"%char) = is_lower c).
  { intros c. unfold is_name_char.
    destruct (Ascii.eqb_spec c "-") as [->|_]; [done|]. cbn [orb].
    destruct (is_lower c) eqn:Hc; [done|]. cbn [orb].
    destruct (is_digit c) eqn:Hd; [done|]. done. }
  assert (Hdigit : ∀ c, is_digit (if is_name_char c then c else "-"%char) = is_digit c).
  { intros c. unfold is_name_char.
    destruct (Ascii.eqb_spec c "-") as [->|_]; [done|]. cbn [orb].
    destruct (is_lower c) eqn:Hc; [done|]. cbn [orb].
    destruct (is_digit c) eqn:Hd; [done|]. done. }
  unfold sanitize_resource_name.
  destruct (replace ".yml" "" yml_path) as [|c rest].
  { split; [done|]. by intros (? & ? & ? & _). }
  cbn [re_sub_other matches_resource_name]. rewrite Hlower.
  rewrite re_sub_other_list.
  assert (Hall : forallb is_name_char
                   (map (λ c, if is_name_char c then c else "-"%char)
                        (list_ascii_of_string rest)) = true).
  { apply forallb_forall. intros x [c' [<- _]]%in_map_iff. apply is_name_char_sub. }
  rewrite Hall.
  change (map ?f ?l) with (f <$> l). rewrite fmap_last.
  destruct (last (list_ascii_of_string rest)) as [final|] eqn:Hlast;
    cbn [fmap option_fmap option_map].
  - rewrite Hlower, Hdigit, andb_true_l, andb_true_iff, orb_true_iff. split.
    + intros [Hc Hfinal]. exists c, rest. by rewrite Hlast.
    + intros (? & ? & [= <- <-] & Hc & Hfinal). by rewrite Hlast in Hfinal.
  - rewrite andb_true_r. split.
    + intros Hc. exists c, rest. by rewrite Hlast.
    + by intros (? & ? & [= <- <-] & Hc & _).
Qed.

End Sanitize.

(** ** Keys that must be missing *)

Section EnsureKeyMissing.
Import TestUtils.

Lemma ensure_key_missing_last d key :
  _ensure_key_missing d [key]
  = match delitem d key with
    | inl KeyError => inr d
    | result => result
    end.
Proof. cbn [_ensure_key_missing]. by destruct (delitem d key) as [[]|]. Qed.

Lemma ensure_key_missing_next d key key2 rest :
  _ensure_key_missing d (key :: key2 :: rest)
  = match match getitem d key with
          | inl e => inl e
          | inr child =>
              match _ensure_key_missing child (key2 :: rest) with
              | inl e => inl e
              | inr child' => inr (with_item d key child')
              end
          end
    with
    | inl KeyError => inr d
    | result => result
    end.
Proof.
  remember (key2 :: rest) as keys eqn:Hkeys.
  cbn [_ensure_key_missing]. destruct keys as [|k ks]; [done|]. cbv beta iota.
  destruct (getitem d key) as [[]|child]; try done.
  by destruct (_ensure_key_missing child (k :: ks)) as [[]|].
Qed.

Lemma ensure_key_missing_no_key_error d keys : _ensure_key_missing d keys ≠ inl KeyError.
Proof.
  destruct keys as [|key [|key2 rest]]; [done| |].
  - rewrite ensure_key_missing_last. by destruct (delitem d key) as [[]|].
  - rewrite ensure_key_missing_next.
    destruct (getitem d key) as [[]|child]; try done.
    by destruct (_ensure_key_missing child (key2 :: rest)) as [[]|].
Qed.

(** After [_ensure_key_missing] has returned, nothing is found along the
    path of keys; what is found along a path that leaves that path at some
    key is what was found before; a document in which the path led nowhere is
    unchanged; and a second call changes nothing more. *)
Theorem ensure_key_missing_removes (keys : list string) : ∀ (d d' : json),
  _ensure_key_missing d keys = inr d' →
  path_lookup d' keys = None
  ∧ (∀ common key key' rest rest',
       keys = common ++ key :: rest → key' ≠ key →
       path_lookup d' (common ++ key' :: rest') = path_lookup d (common ++ key' :: rest'))
  ∧ (path_lookup d keys = None → d' = d)
  ∧ _ensure_key_missing d' keys = inr d'.
Proof.
  induction keys as [|key keys IH]; intros d d'; [done|].
  destruct keys as [|key2 rest].
  - rewrite ensure_key_missing_last. unfold delitem.
    destruct d as [| | | | |items]; try done.
    destruct (items !! key) as [value|] eqn:Hvalue.
    + intros [= <-]. split; [cbn; by rewrite lookup_delete_eq|]. split; [|split].
      * intros [|? common] k key' rest0 rest' Hkeys Hne.
        -- injection Hkeys as <- _. cbn. by rewrite lookup_delete_ne.
        -- by destruct common.
      * cbn. by rewrite Hvalue.
      * rewrite ensure_key_missing_last. cbn. by rewrite lookup_delete_eq.
    + intros [= <-]. split; [cbn; by rewrite Hvalue|]. split; [done|].
      split; [done|]. rewrite ensure_key_missing_last. cbn. by rewrite Hvalue.
  - rewrite ensure_key_missing_next. unfold getitem.
    destruct d as [| | | | |items]; try done.
    destruct (items !! key) as [child|] eqn:Hchild.
    + destruct (_ensure_key_missing child (key2 :: rest)) as [e|child'] eqn:Hrec.
      { pose proof (ensure_key_missing_no_key_error child (key2 :: rest)) as Hne.
        rewrite Hrec in Hne. by destruct e. }
      intros [= <-]. destruct (IH child child' Hrec) as (Hgone & Hframe & Hsame & Hagain).
      cbn [with_item]. split; [|split; [|split]].
      * cbn [path_lookup]. rewrite lookup_insert_eq. exact Hgone.
      * intros [|? common] k key' rest0 rest' Hkeys Hne.
        -- injection Hkeys as <- _. cbn [app path_lookup].
           by rewrite lookup_insert_ne.
        -- injection Hkeys as <- Hkeys. cbn [app path_lookup].
           rewrite lookup_insert_eq, Hchild. cbn. by eapply Hframe.
      * cbn [path_lookup]. rewrite Hchild. cbn. intros ->%Hsame.
        by rewrite insert_id.
      * rewrite ensure_key_missing_next. cbn [getitem].
        rewrite lookup_insert_eq, Hagain. cbn [with_item].
        by rewrite insert_insert_eq.
    + intros [= <-]. split; [cbn; by rewrite Hchild|]. split; [done|].
      split; [done|]. rewrite ensure_key_missing_next. cbn. by rewrite Hchild.
Qed.

(** [_ensure_key_missing] passes over a missing key and raises in two cases
    only: an [IndexError] when it is given no key, and a [TypeError] when the
    path of keys runs into something that is no dict while a key is still to
    be looked up. *)
Theorem ensure_key_missing_errors (keys : list string) : ∀ (d : json) (e : exn),
  _ensure_key_missing d keys = inl e
  ↔ (keys = [] ∧ e = IndexError)
    ∨ (e = TypeError
       ∧ ∃ before key after value,
           keys = before ++ key :: after
           ∧ path_lookup d before = Some value
           ∧ is_dict value = false).
Proof.
  induction keys as [|key keys IH]; intros d e.
  { cbn. split.
    - intros [= <-]. by left.
    - intros [[_ ->]|(_ & [|? ?] & ? & ? & ? & ? & _)]; done. }
  assert (Hhere : is_dict d = false →
                  ∃ before key' after value,
                    key :: keys = before ++ key' :: after
                    ∧ path_lookup d before = Some value ∧ is_dict value = false).
  { intros Hd. by exists [], key, keys, d. }
  assert (Hbelow : ∀ items child,
            d = JDict items → items !! key = Some child →
            (∃ before key' after value,
               key :: keys = before ++ key' :: after
               ∧ path_lookup d before = Some value ∧ is_dict value = false)
            ↔ (∃ before key' after value,
                 keys = before ++ key' :: after
                 ∧ path_lookup child before = Some value ∧ is_dict value = false)).
  { intros items child -> Hchild. split.
    - intros ([|k before] & key' & after & value & Hkeys & Hvalue & Hdict).
      + cbn in Hvalue. by injection Hvalue as <-.
      + injection Hkeys as <- ->. cbn in Hvalue. rewrite Hchild in Hvalue.
        by exists before, key', after, value.
    - intros (before & key' & after & value & -> & Hvalue & Hdict).
      exists (key :: before), key', after, value. split; [done|].
      cbn. by rewrite Hchild. }
  assert (Habsent : ∀ items,
            d = JDict items → items !! key = None →
            ¬ ∃ before key' after value,
                key :: keys = before ++ key' :: after
                ∧ path_lookup d before = Some value ∧ is_dict value = false).
  { intros items -> Hnone ([|k before] & key' & after & value & Hkeys & Hvalue & Hdict).
    - cbn in Hvalue. by injection Hvalue as <-.
    - injection Hkeys as <- ->. cbn in Hvalue. by rewrite Hnone in Hvalue. }
  destruct keys as [|key2 rest].
  - rewrite ensure_key_missing_last. unfold delitem.
    destruct d as [| | | | |items];
      try (split; [intros [= <-]; right; split; [done|]; by apply Hhere
                  |by intros [[? ?]|[-> _]]]).
    destruct (items !! key) as [value|] eqn:Hvalue.
    + split; [done|]. intros [[? ?]|[_ Hpath]]; [done|].
      apply (Hbelow items value eq_refl Hvalue) in Hpath
        as ([|? ?] & ? & ? & ? & ? & _); done.
    + split; [done|]. intros [[? ?]|[_ Hpath]]; [done|].
      by apply (Habsent items eq_refl Hvalue) in Hpath.
  - rewrite ensure_key_missing_next. unfold getitem.
    destruct d as [| | | | |items];
      try (split; [intros [= <-]; right; split; [done|]; by apply Hhere
                  |by intros [[? ?]|[-> _]]]).
    destruct (items !! key) as [child|] eqn:Hchild.
    + pose proof (IH child e) as IHe.
      rewrite <- (Hbelow items child eq_refl Hchild) in IHe.
      destruct (_ensure_key_missing child (key2 :: rest)) as [e'|child'] eqn:Hrec.
      * pose proof (ensure_key_missing_no_key_error child (key2 :: rest)) as Hne.
        rewrite Hrec in Hne.
        assert (Hsame : match (inl e' : exn + json) with
                        | inl KeyError => inr (JDict items)
                        | result => result
                        end = inl e') by by destruct e'.
        rewrite Hsame. clear Hsame. rewrite IHe. split.
        -- intros [[? ?]|?]; [done|by right].
        -- intros [[? ?]|?]; [done|by right].
      * split; [done|]. intros [[? ?]|Hpath]; [done|].
        assert (Hfalse : inr child' = (inl e : exn + json)); [|done].
        apply IHe. by right.
    + split; [done|]. intros [[? ?]|[_ Hpath]]; [done|].
      by apply (Habsent items eq_refl Hchild) in Hpath.
Qed.

End EnsureKeyMissing.

(** ** The labels of an expected document *)

Section SetLabels.
Import TestUtils.

(** The parts of a string between separators: the string itself when it has
    no separator, and otherwise at least two parts, of which the last is what
    follows the last separator. *)
Lemma split_cases (sep : ascii) (s : string) :
  (split sep s = [s] ∧ Forall (λ c, c ≠ sep) (list_ascii_of_string s))
  ∨ (∃ pre part parts final,
       split sep s = part :: parts
       ∧ last parts = Some final
       ∧ s = pre +:+ String sep final
       ∧ Forall (λ c, c ≠ sep) (list_ascii_of_string final)).
Proof.
  induction s as [|c s IH]; [left; by split; [|constructor]|].
  cbn [split]. destruct (Ascii.eqb_spec c sep) as [->|Hne].
  - right. destruct IH as [[Hsplit Hfree]|(pre & part & parts & final & Hsplit & Hlast & Hs & Hfree)].
    + exists "", "", [s], s. by rewrite Hsplit.
    + exists (String sep pre), "", (part :: parts), final. rewrite Hsplit.
      split; [done|]. split; [|split; [by rewrite Hs at 1|done]].
      rewrite last_cons, Hlast. done.
  - destruct IH as [[Hsplit Hfree]|(pre & part & parts & final & Hsplit & Hlast & Hs & Hfree)].
    + left. rewrite Hsplit. split; [done|]. by constructor.
    + right. exists (String c pre), (String c part), parts, final. rewrite Hsplit.
      split; [done|]. split; [done|]. split; [by rewrite Hs at 1|done].
Qed.

Lemma last_part_cases (sep : ascii) (s : string) :
  Forall (λ c, c ≠ sep) (list_ascii_of_string (last_part sep s))
  ∧ (last_part sep s = s ∨ ∃ pre, s = pre +:+ String sep (last_part sep s)).
Proof.
  unfold last_part.
  destruct (split_cases sep s)
    as [[Hsplit Hfree]|(pre & part & parts & final & Hsplit & Hlast & Hs & Hfree)];
    rewrite Hsplit.
  - cbn. split; [done|by left].
  - rewrite last_cons, Hlast. cbn. split; [done|]. right. by exists pre.
Qed.

(** [_set_labels] succeeds exactly on a document whose [metadata] holds a
    dict of [labels], and then writes two labels into that dict, the version
    being what follows the last colon of the image (the whole image when it
    has none), and changes nothing else; on any other document it raises a
    [KeyError] or a [TypeError].  When the two labels were not there before,
    [_ensure_key_missing] on each of them gives the document back. *)
Theorem set_labels_sets (expected_dict : json) (image deployment_id : string) :
  (Forall (λ c, c ≠ ":"%char) (list_ascii_of_string (last_part ":" image))
   ∧ (last_part ":" image = image
      ∨ ∃ pre, image = pre +:+ String ":" (last_part ":" image)))
  ∧ (∀ labels,
       path_lookup expected_dict ["metadata"; "labels"] = Some (JDict labels) →
       ∃ d',
         _set_labels expected_dict image deployment_id = inr d'
         ∧ path_lookup d' ["metadata"; "labels"]
           = Some (JDict (<["fiaas/deployment_id" := JStr deployment_id]>
                            (<["fiaas/version" := JStr (last_part ":" image)]> labels)))
         ∧ (∀ key rest, key ≠ "metadata" →
              path_lookup d' (key :: rest) = path_lookup expected_dict (key :: rest))
         ∧ (∀ key rest, key ≠ "labels" →
              path_lookup d' ("metadata" :: key :: rest)
              = path_lookup expected_dict ("metadata" :: key :: rest))
         ∧ (labels !! "fiaas/version" = None →
            labels !! "fiaas/deployment_id" = None →
            ∃ d1,
              _ensure_key_missing d' ["metadata"; "labels"; "fiaas/version"] = inr d1
              ∧ _ensure_key_missing d1 ["metadata"; "labels"; "fiaas/deployment_id"]
                = inr expected_dict))
  ∧ (∀ e,
       _set_labels expected_dict image deployment_id = inl e →
       (e = KeyError ∨ e = TypeError)
       ∧ ¬ ∃ labels, path_lookup expected_dict ["metadata"; "labels"]
                     = Some (JDict labels)).
Proof.
  split; [apply last_part_cases|]. unfold _set_labels, getitem. split.
  - intros labels Hlabels.
    destruct expected_dict as [| | | | |items]; try done.
    cbn [path_lookup] in Hlabels.
    destruct (items !! "metadata") as [metadata|] eqn:Hmetadata; [|done].
    cbn in Hlabels.
    destruct metadata as [| | | | |fields]; try done.
    destruct (fields !! "labels") as [labels0|] eqn:Hfields; [|done].
    cbn in Hlabels. injection Hlabels as ->.
    eexists. split; [reflexivity|]. cbn [setitem with_item].
    split; [|split; [|split]].
    + cbn. rewrite lookup_insert_eq. cbn. by rewrite lookup_insert_eq.
    + intros key rest Hkey. cbn. by rewrite lookup_insert_ne.
    + intros key rest Hkey. cbn. rewrite lookup_insert_eq, Hmetadata. cbn.
      by rewrite lookup_insert_ne.
    + intros Hversion Hid. eexists. split.
      * rewrite ensure_key_missing_next. cbn [getitem]. rewrite lookup_insert_eq.
        rewrite ensure_key_missing_next. cbn [getitem]. rewrite lookup_insert_eq.
        rewrite ensure_key_missing_last. cbn [delitem].
        rewrite lookup_insert_ne, lookup_insert_eq by done.
        cbn [with_item]. reflexivity.
      * rewrite ensure_key_missing_next. cbn [getitem]. rewrite lookup_insert_eq.
        rewrite ensure_key_missing_next. cbn [getitem]. rewrite lookup_insert_eq.
        rewrite ensure_key_missing_last. cbn [delitem].
        rewrite lookup_delete_ne, lookup_insert_eq by done.
        cbn [with_item]. f_equal. f_equal.
        rewrite !insert_insert_eq.
        rewrite delete_insert_ne by done. rewrite delete_insert_eq.
        rewrite delete_insert_eq.
        rewrite (delete_id labels) by done. rewrite (delete_id labels) by done.
        rewrite (insert_id fields) by done. by rewrite insert_id.
  - intros e.
    destruct expected_dict as [| | | | |items];
      try (intros [= <-]; split; [by right|]; by intros [? ?]).
    cbn [path_lookup].
    destruct (items !! "metadata") as [metadata|];
      [|intros [= <-]; split; [by left|]; by intros [? ?]].
    cbn.
    destruct metadata as [| | | | |fields];
      try (intros [= <-]; split; [by right|]; by intros [? ?]).
    destruct (fields !! "labels") as [labels|];
      [|intros [= <-]; split; [by left|]; by intros [? ?]].
    cbn.
    destruct labels as [| | | | |labels];
      try (intros [= <-]; split; [by right|]; by intros [? ?]).
    done.
Qed.

End SetLabels.

(** * Field references and the sort *)

(** A field reference is the last entry of its name in the environment: a
    global override that is let through under the name of a field reference
    comes before it in the list. *)
Theorem make_env_field_reference_last {runtime : PyRuntime}
    (self : Deployer.DeploymentDeployer) app_spec w :
  ∃ env,
    (Deployer._make_env self app_spec w).1 = inr env
    ∧ ∀ reference,
        reference ∈ Deployer.field_references app_spec →
        last (filter (λ e, EnvVar.name e = EnvVar.name reference) env) = Some reference.
Proof.
  eexists. rewrite make_env_run. split; [reflexivity|].
  intros reference Hin. rewrite sort_by_name_stable, filter_app.
  assert (Hfield : filter (λ e, EnvVar.name e = EnvVar.name reference)
                          (Deployer.field_references app_spec) = [reference]).
  { unfold Deployer.field_references in *.
    repeat (apply elem_of_cons in Hin as [->|Hin]); try by apply elem_of_nil in Hin.
    all: reflexivity. }
  rewrite Hfield. apply last_snoc.
Qed.

(** * The probes of the two builders *)

(** The two builders make the same probe of a check spec, or fail with the
    same error, but for the failure threshold, which the single-file builder
    leaves out. *)
Theorem legacy_make_probe_agrees {runtime : PyRuntime} (check_spec : CheckSpec.t) :
  Legacy._make_probe check_spec
  = sum_map id without_failure_threshold (Deployer._make_probe check_spec).
Proof.
  unfold Legacy._make_probe, Deployer._make_probe.
  destruct (CheckSpec.http check_spec); [done|].
  destruct (CheckSpec.tcp check_spec); [done|].
  destruct (CheckSpec.execute check_spec); [|done].
  by destruct (shlex_split _).
Qed.

(** * The statements at the sample objects *)

Lemma sample_keeps_key app_spec besteffort :
  DeployerReadings.keeps key_of Sample.deployer app_spec besteffort.
Proof.
  intros d _. unfold DeployerReadings.collaborate, key_of. cbn.
  unfold Sample.add_sidecar. by destruct d as [? [[? ? [?|] ? ?]|]].
Qed.

(** A cluster that runs one replica of the sample application, which
    declares one: the record that says the size is different is logged. *)
Lemma deploy_once_log_witness :
  ∃ result w',
    @Deployer.deploy_once Sample.runtime Sample.autoscaled Sample.deployer
      (Sample.app 1 false) Sample.selector Sample.labels false
      (Sample.world (Sample.cluster_running 1) Sample.always_accepts) = (result, w')
    ∧ (INFO, "Configured replica size (1) for deployment is being ignored, as current "
             +:+ "running replica size is different (1) for app1") ∈ log w'.
Proof.
  destruct (@deploy_once_log Sample.runtime Sample.autoscaled Sample.deployer
              (Sample.app 1 false) Sample.selector Sample.labels false
              (Sample.world (Sample.cluster_running 1) Sample.always_accepts))
    as (result & w' & Hrun & _ & Hequal).
  - apply sample_probes_buildable.
  - apply sample_live_readable.
  - exists result, w'. split; [exact Hrun|].
    apply (Hequal (Sample.running 1)); reflexivity.
Defined.

(** The sample application deployed twice to a cluster that runs three
    replicas of it. *)
Lemma deploy_twice_witness :
  ∃ d w1 w2,
    @Deployer.deploy Sample.runtime Sample.autoscaled Sample.deployer (Sample.app 1 false)
      Sample.selector Sample.labels false
      (Sample.world (Sample.cluster_running 3) Sample.always_accepts) = (inr tt, w1)
    ∧ @Deployer.deploy Sample.runtime Sample.autoscaled Sample.deployer (Sample.app 1 false)
        Sample.selector Sample.labels false w1 = (inr tt, w2)
    ∧ committed w2 = [d; d]
    ∧ deployments w2 = deployments w1.
Proof.
  destruct (@deploy_twice Sample.runtime Sample.autoscaled Sample.deployer
              (Sample.app 1 false) Sample.selector Sample.labels false
              (Sample.world (Sample.cluster_running 3) Sample.always_accepts))
    as (d & w1 & w2 & Hrun1 & Hrun2 & Hcommitted & _ & Hsame & _).
  - apply sample_probes_buildable.
  - apply sample_live_readable.
  - apply sample_keeps_replicas.
  - apply sample_keeps_key.
  - reflexivity.
  - reflexivity.
  - exists d, w1, w2. split; [exact Hrun1|]. split; [exact Hrun2|].
    split; [exact Hcommitted|exact Hsame].
Defined.

(** The sample configuration delays the stop by one second. *)
Lemma deploy_grace_period_witness :
  ∃ d0 pod container logs,
    @Deployer.deploy_once Sample.runtime Sample.autoscaled Sample.deployer
      (Sample.app 1 false) Sample.selector Sample.labels false
      (Sample.world ∅ Sample.always_accepts)
    = Deployment_save
        (DeployerReadings.collaborate Sample.deployer (Sample.app 1 false) false
           (Deployer._clear_pod_init_container_annotations d0))
        (with_log (Sample.world ∅ Sample.always_accepts) logs)
    ∧ pod_spec_of d0 = Some pod
    ∧ PodSpec.containers pod = [container]
    ∧ PodSpec.terminationGracePeriodSeconds pod = Some 31
    ∧ Container.lifecycle container
      = Some {| Lifecycle.preStop :=
                  {| Handler._exec := {| ExecAction.command := ["sleep"; "1"] |} |} |}.
Proof.
  destruct (@deploy_grace_period Sample.runtime Sample.autoscaled Sample.config
              (λ d _ _, Sample.add_sidecar d) (λ d _, d) (λ d _, d)
              (Sample.app 1 false) Sample.selector Sample.labels false
              (Sample.world ∅ Sample.always_accepts))
    as (d0 & pod & container & logs & Hrun & Hpod & Hcontainers & Hgrace & _ & Hsleep).
  - apply sample_probes_buildable.
  - apply sample_live_readable_empty.
  - exists d0, pod, container, logs. split; [exact Hrun|]. split; [exact Hpod|].
    split; [exact Hcontainers|]. split; [exact Hgrace|]. by apply Hsleep.
Defined.

Lemma deploy_mounts_have_volumes_witness :
  ∃ d0 pod logs,
    @Deployer.deploy_once Sample.runtime Sample.autoscaled Sample.deployer
      (Sample.app 1 false) Sample.selector Sample.labels false
      (Sample.world ∅ Sample.always_accepts)
    = Deployment_save
        (DeployerReadings.collaborate Sample.deployer (Sample.app 1 false) false
           (Deployer._clear_pod_init_container_annotations d0))
        (with_log (Sample.world ∅ Sample.always_accepts) logs)
    ∧ pod_spec_of d0 = Some pod
    ∧ NoDup (map Volume.name (PodSpec.volumes pod)).
Proof.
  destruct (@deploy_mounts_have_volumes Sample.runtime Sample.autoscaled Sample.deployer
              (Sample.app 1 false) Sample.selector Sample.labels false
              (Sample.world ∅ Sample.always_accepts))
    as (d0 & pod & logs & Hrun & Hpod & Hnames & _).
  - apply sample_probes_buildable.
  - apply sample_live_readable_empty.
  - exists d0, pod, logs. split; [exact Hrun|]. split; [exact Hpod|exact Hnames].
Defined.

(** An application with secrets, deployed by the single-file builder with an
    init container image configured. *)
Lemma legacy_deploy_mounts_have_volumes_witness :
  ∃ d w' pod,
    @Legacy.deploy Sample.runtime Sample.legacy_autoscaled Cases.secrets_deployer
      Cases.secrets_app Sample.selector Sample.labels
      (Sample.world ∅ Sample.always_accepts) = (inr tt, w')
    ∧ committed w' = [d]
    ∧ pod_spec_of d = Some pod
    ∧ NoDup (map Volume.name (PodSpec.volumes pod)).
Proof.
  destruct (@legacy_deploy_mounts_have_volumes Sample.runtime Sample.legacy_autoscaled
              Cases.secrets_deployer Cases.secrets_app Sample.selector Sample.labels
              (Sample.world ∅ Sample.always_accepts))
    as (d & w' & pod & Hrun & Hcommitted & Hpod & _ & Hnames).
  - eexists. reflexivity.
  - eexists. reflexivity.
  - discriminate.
  - reflexivity.
  - exists d, w', pod. split; [exact Hrun|]. split; [exact Hcommitted|].
    split; [exact Hpod|]. apply Hnames. by intros (_ & _ & ?).
Defined.

Lemma legacy_deploy_secrets_witness :
  ∃ d w' pod init,
    @Legacy.deploy Sample.runtime Sample.legacy_autoscaled Cases.secrets_deployer
      Cases.secrets_app Sample.selector Sample.labels
      (Sample.world ∅ Sample.always_accepts) = (inr tt, w')
    ∧ committed w' = [d]
    ∧ pod_spec_of d = Some pod
    ∧ PodSpec.initContainers pod = [init]
    ∧ Container.image init = Some "fiaas/secrets-init:1"
    ∧ PodSpec.automountServiceAccountToken pod = true
    ∧ Legacy.AppSpec.admin_access Cases.secrets_app = false.
Proof.
  destruct (@legacy_deploy_secrets Sample.runtime Sample.legacy_autoscaled
              Cases.secrets_deployer Cases.secrets_app Sample.selector Sample.labels
              (Sample.world ∅ Sample.always_accepts))
    as (d & w' & pod & main & Hrun & Hcommitted & Hpod & _ & _ & Hinit & Hsecrets & _).
  - eexists. reflexivity.
  - eexists. reflexivity.
  - discriminate.
  - reflexivity.
  - destruct (PodSpec.initContainers pod) as [|init inits] eqn:Hinits.
    { exfalso. by apply Hinit. }
    destruct (Hsecrets init) as (Honly & _ & Himage & Hmount & _); [by left|].
    exists d, w', pod, init. split; [exact Hrun|]. split; [exact Hcommitted|].
    split; [exact Hpod|]. split; [by rewrite Hinits|]. split; [exact Himage|].
    split; [exact Hmount|reflexivity].
Defined.

(** The one override [ZONE] of the sample configuration. *)
Lemma legacy_make_env_unsorted_witness :
  ∃ env,
    (@Legacy._make_env Sample.runtime Sample.legacy_deployer (Sample.legacy_app 1)
       (Sample.world ∅ Sample.always_accepts)).1 = inr env
    ∧ ¬ StronglySorted name_le env.
Proof.
  destruct (@legacy_make_env_unsorted Sample.runtime Sample.legacy_deployer
              (Sample.legacy_app 1) (Sample.world ∅ Sample.always_accepts) "ZONE" "eu")
    as (env & before & after & Hrun & _ & Hunsorted).
  - reflexivity.
  - intros [[? Hin]|[? Hin]]; vm_compute in Hin; discriminate Hin.
  - reflexivity.
  - exists env. split; [exact Hrun|exact Hunsorted].
Defined.

(** The [uid] of the metadata of a document of the API server. *)
Lemma ensure_key_missing_removes_witness :
  ∃ d',
    TestUtils._ensure_key_missing Cases.actual_dict ["metadata"; "uid"] = inr d'
    ∧ TestUtils.path_lookup d' ["metadata"; "uid"] = None
    ∧ TestUtils.path_lookup d' ["metadata"; "name"] = Some (TestUtils.JStr "app1")
    ∧ TestUtils.path_lookup d' ["status"] = Some (TestUtils.JDict ∅).
Proof.
  eexists. split; [reflexivity|].
  destruct (ensure_key_missing_removes ["metadata"; "uid"] Cases.actual_dict _ eq_refl)
    as (Hgone & Hframe & _).
  split; [exact Hgone|]. split.
  - etrans; [exact (Hframe ["metadata"] "uid" "name" [] [] eq_refl ltac:(done))|].
    reflexivity.
  - etrans; [exact (Hframe [] "metadata" "status" ["uid"] [] eq_refl ltac:(done))|].
    reflexivity.
Defined.

(** ** Waiting *)

Section WaitUntil.
Import TestUtils.
Variable action : Action.
Variable start patience : Z.

#[local] Abbreviation most_calls := (Z.max 0 ((patience + 1) / 2)).

(** The loop when the [i]-th reading of the loop test is taken at least
    [2 * i] seconds after [start]. *)
Lemma wait_loop_bounded (tests : list Z) : ∀ (k : nat) (cause : list string),
  (∀ i t, tests !! i = Some t → start + 2 * Z.of_nat (k + i) ≤ t) →
  Z.of_nat k ≤ most_calls →
  (∀ returned cause' calls,
     wait_loop action (start + patience) tests k cause = Some (returned, cause', calls) →
     Z.of_nat calls ≤ most_calls)
  ∧ (most_calls - Z.of_nat k < Z.of_nat (List.length tests) →
     is_Some (wait_loop action (start + patience) tests k cause)).
Proof.
  induction tests as [|t tests IH]; intros k cause Hticks Hk.
  { split; [done|]. cbn. lia. }
  cbn [wait_loop].
  destruct (Z.ltb_spec t (start + patience)) as [Hbefore|Hafter].
  - assert (Hnext : Z.of_nat (S k) ≤ most_calls).
    { specialize (Hticks 0%nat t eq_refl). rewrite Nat.add_0_r in Hticks.
      assert (Z.of_nat (S k) ≤ (patience + 1) / 2); [|lia].
      apply Z.div_le_lower_bound; lia. }
    destruct (call action k) as [lines|].
    + destruct (IH (S k) lines) as [Hcalls Hends]; [|exact Hnext|].
      { intros i t' Ht'. specialize (Hticks (S i) t' Ht').
        by rewrite <- Nat.add_succ_comm in Hticks. }
      split; [exact Hcalls|]. intros Hlength. apply Hends.
      cbn [List.length] in Hlength. lia.
    + split; [|by eauto]. by intros returned cause' calls [= <- <- <-].
  - split; [|by eauto]. by intros returned cause' calls [= <- <- <-].
Qed.

(** [wait_until] on a clock whose loop-test readings are two seconds apart
    or more, as the [time.sleep(2)] between them makes them: the action is
    called at most [patience / 2] times, rounded up, and not at all with no
    patience; and when the clock is read more often than that, the function
    ends, by returning or by raising. *)
Theorem wait_until_bounded description exception_class (tests : list Z) now :
  (∀ i t, tests !! i = Some t → start + 2 * Z.of_nat i ≤ t) →
  (∀ outcome calls,
     wait_until action description exception_class patience (start :: tests) now
     = Some (outcome, calls) →
     Z.of_nat calls ≤ most_calls)
  ∧ (most_calls < Z.of_nat (List.length tests) →
     is_Some (wait_until action description exception_class patience (start :: tests) now)).
Proof.
  intros Hticks.
  destruct (wait_loop_bounded tests 0%nat [] Hticks ltac:(lia)) as [Hcalls Hends].
  unfold wait_until. split.
  - intros outcome calls.
    destruct (wait_loop _ _ _ _ _) as [[[[] cause] calls']|] eqn:Hloop; [| |done].
    + intros [= _ <-]. by eapply Hcalls.
    + intros [= _ <-]. by eapply Hcalls.
  - intros Hlength. destruct Hends as [[[[] cause] calls] Hloop]; [lia| |].
    + rewrite Hloop. by eauto.
    + rewrite Hloop. by eauto.
Qed.

Lemma wait_loop_returns (tests : list Z) : ∀ (n k : nat) (cause : list string),
  (∀ i, (i < n)%nat → is_Some (call action (k + i))) →
  call action (k + n) = None →
  (∀ i, (i ≤ n)%nat → ∃ t, tests !! i = Some t ∧ t < start + patience) →
  ∃ cause',
    wait_loop action (start + patience) tests k cause = Some (true, cause', S (k + n)).
Proof.
  induction tests as [|t tests IH]; intros n k cause Hfail Hsuccess Htime.
  { destruct (Htime 0%nat ltac:(lia)) as (? & ? & _). done. }
  cbn [wait_loop].
  destruct (Htime 0%nat ltac:(lia)) as (t0 & [= <-] & Hbefore).
  rewrite (proj2 (Z.ltb_lt _ _) Hbefore).
  destruct n as [|n].
  - rewrite Nat.add_0_r in *. rewrite Hsuccess. by eauto.
  - destruct (Hfail 0%nat ltac:(lia)) as [lines Hlines].
    rewrite Nat.add_0_r in Hlines. rewrite Hlines.
    destruct (IH n (S k) lines) as [cause' Hloop].
    + intros i Hi. specialize (Hfail (S i) ltac:(lia)).
      by rewrite <- Nat.add_succ_comm in Hfail.
    + by rewrite <- Nat.add_succ_comm in Hsuccess.
    + intros i Hi. apply (Htime (S i)). lia.
    + exists cause'. rewrite Hloop. do 3 f_equal. lia.
Qed.

(** [wait_until] returns at the first call of the action that does not
    raise, when the clock is before the deadline at each of the loop tests up
    to that call.  With no patience, on a clock that does not run backwards,
    it raises at once: the action is not called, and the message is the
    header and no cause. *)
Theorem wait_until_returns description exception_class (tests : list Z) now :
  (∀ n,
     (∀ i, (i < n)%nat → is_Some (call action i)) →
     call action n = None →
     (∀ i, (i ≤ n)%nat → ∃ t, tests !! i = Some t ∧ t < start + patience) →
     wait_until action description exception_class patience (start :: tests) now
     = Some (Returned, S n))
  ∧ (patience ≤ 0 →
     ∀ t tests', tests = t :: tests' → start ≤ t →
     wait_until action description exception_class patience (start :: tests) now
     = Some (Raised exception_class
               ("Gave up waiting for "
                +:+ (if truthy description then default "" description
                     else if truthy (__doc__ action) then default "" (__doc__ action)
                          else __name__ action)
                +:+ " after " +:+ str patience +:+ " seconds at " +:+ now),
             0%nat)).
Proof.
  split.
  - intros n Hfail Hsuccess Htime. unfold wait_until.
    destruct (wait_loop_returns tests n 0%nat [] Hfail Hsuccess Htime) as [cause' Hloop].
    by rewrite Hloop.
  - intros Hpatience t tests' -> Hstart. unfold wait_until. cbn [wait_loop].
    destruct (Z.ltb_spec t (start + patience)); [lia|]. done.
Qed.

End WaitUntil.

(** Four seconds of patience on a clock read at two-second steps: two calls. *)
Lemma wait_until_bounded_witness :
  ∃ outcome calls,
    TestUtils.wait_until Cases.failing_action None "AssertionError" 4 [0; 0; 2; 4]
                         "2018-01-01 00:00:04"
    = Some (outcome, calls)
    ∧ Z.of_nat calls ≤ 2.
Proof.
  destruct (wait_until_bounded Cases.failing_action 0 4 None "AssertionError" [0; 2; 4]
              "2018-01-01 00:00:04") as [Hcalls _].
  - intros [|[|[|i]]] t [= <-]; lia.
  - eexists _, _. split; [reflexivity|]. by eapply Hcalls.
Defined.

(** ** A mock that fails, then succeeds *)

(** The mock runs [fail] at its first [fail_times] calls and [success] at
    every later call, however many there are; with [fail_times] zero or
    negative it runs [success] from the first call on. *)
Theorem side_effects_fail_then_succeed {A} (fail success : A) (fail_times : Z) (n : nat) :
  TestUtils.side_effects fail success (TestUtils._function_generator fail_times) n
  = replicate (Nat.min n (Z.to_nat fail_times)) fail
    ++ replicate (n - Z.to_nat fail_times) success.
Proof.
  unfold TestUtils._function_generator. generalize (Z.to_nat fail_times) as gen.
  induction n as [|n IH]; intros gen; [done|].
  cbn [TestUtils.side_effects]. destruct gen as [|remaining]; cbn [TestUtils.next].
  - rewrite IH. by rewrite Nat.min_0_r, !Nat.sub_0_r.
  - rewrite IH. done.
Qed.
